(** * Hiring job-description analyzer: text-to-insight extraction and aggregation

    A shallow embedding of [src/core/models.py] (the [JobDescription] model
    and the validator of [GenerationRequest]), of
    [src/analyzers/nlp_analyzer.py] (the [NLPAnalyzer] class), of
    [src/core/config.py] ([Config.get] and [Config.set]) and of the analysis
    endpoint of [src/api/server.py], followed by the properties of the
    specification that concern them and by further properties of the code.

    Python strings are sequences of Unicode code points.  The character
    tables of CPython ([str.isspace], [str.isalnum], decimal digits,
    [str.lower], the case-insensitive comparison of [re.IGNORECASE]) are
    written out for the ASCII range and for the two other characters that
    the patterns name; for the rest they are the fields of a [unicode_db],
    over which every definition and theorem is generic.  The order in
    which CPython enumerates a set of strings follows their hashes and is
    a second parameter, a [set_order]. *)

From Stdlib Require Import String Ascii.
From Stdlib Require Import List ZArith NArith Bool Lia PeanoNat.
From Stdlib Require Import Sorting.Sorted Sorting.Permutation.
Import ListNotations.

Local Open Scope list_scope.

(* ================================================================== *)
(** * Part I: the embedding *)
(* ================================================================== *)

(** ** Text *)

Definition char := N.
Definition str := list char.

(** An ASCII literal as a text. *)
Definition txt (s : string) : str := map N_of_ascii (list_ascii_of_string s).
Arguments txt s%_string.

Definition LF : char := 10%N.
Definition BULLET : char := 8226%N.   (* U+2022 *)
Definition EN_DASH : char := 8211%N.  (* U+2013 *)

Fixpoint text_eqb (a b : str) : bool :=
  match a, b with
  | [], [] => true
  | x :: a', y :: b' => N.eqb x y && text_eqb a' b'
  | _, _ => false
  end.

Definition text_eq_dec : forall a b : str, {a = b} + {a <> b} :=
  list_eq_dec N.eq_dec.

(** The tables of CPython for the code points above the ASCII range,
    character by character (the one rule of [str.lower] that looks at the
    neighbours of a character, for the Greek final sigma, is left out). *)
Class unicode_db := {
  uni_isspace : char -> bool;
  uni_isalnum : char -> bool;
  uni_decimal : char -> option N;
  uni_lower : char -> str;
  uni_ignorecase : char -> char -> bool
}.

(** A table that knows no character beyond ASCII. *)
Definition ascii_db : unicode_db := {|
  uni_isspace := fun _ => false;
  uni_isalnum := fun _ => false;
  uni_decimal := fun _ => None;
  uni_lower := fun c => [c];
  uni_ignorecase := fun _ _ => false
|}.

Definition between (lo hi c : N) : bool := (N.leb lo c && N.leb c hi)%bool.
Definition is_ascii (c : char) : bool := N.ltb c 128.

(** [Py_UNICODE_ISSPACE] on ASCII: TAB..CR, FS..US and the blank. *)
Definition ascii_isspace (c : char) : bool :=
  between 9 13 c || between 28 31 c || N.eqb c 32.

Definition ascii_isdigit (c : char) : bool := between 48 57 c.
Definition ascii_isupper (c : char) : bool := between 65 90 c.
Definition ascii_islower (c : char) : bool := between 97 122 c.
Definition ascii_isalnum (c : char) : bool :=
  ascii_isdigit c || ascii_isupper c || ascii_islower c.
Definition ascii_lower (c : char) : char :=
  if ascii_isupper c then (c + 32)%N else c.
Definition ascii_upper (c : char) : char :=
  if ascii_islower c then (c - 32)%N else c.

(** The two characters beyond ASCII that the patterns of the analyzer
    name, the bullet and the en dash: punctuation, neither blank nor
    alphanumeric, without case. *)
Definition is_symbol (c : char) : bool := N.eqb c BULLET || N.eqb c EN_DASH.

Section Strings.
Context {U : unicode_db}.

Definition isspace (c : char) : bool :=
  if is_ascii c then ascii_isspace c
  else if is_symbol c then false
  else uni_isspace c.

(** [\w] of [re]: alphanumeric or underscore. *)
Definition isword (c : char) : bool :=
  if is_ascii c then ascii_isalnum c || N.eqb c 95
  else if is_symbol c then false
  else uni_isalnum c.

(** The decimal value of a digit; [\d] of [re] and [int] agree on it. *)
Definition decimal (c : char) : option N :=
  if is_ascii c then (if ascii_isdigit c then Some (c - 48)%N else None)
  else if is_symbol c then None
  else uni_decimal c.

Definition isdigit (c : char) : bool :=
  match decimal c with Some _ => true | None => false end.

Definition lower_char (c : char) : str :=
  if is_ascii c then [ascii_lower c]
  else if is_symbol c then [c]
  else uni_lower c.

(** [str.lower] *)
Definition lower (s : str) : str := flat_map lower_char s.

(** [str.upper], used by the source on one ASCII letter only. *)
Definition upper (s : str) : str := map ascii_upper s.

Fixpoint lstrip (s : str) : str :=
  match s with
  | [] => []
  | c :: s' => if isspace c then lstrip s' else s
  end.

Definition rstrip (s : str) : str := rev (lstrip (rev s)).

(** [str.strip()] *)
Definition strip (s : str) : str := rstrip (lstrip s).

(** [str.split()]: the maximal runs of non-whitespace. [cur] is the word
    being read, reversed. *)
Fixpoint split_ws_aux (cur : str) (s : str) : list str :=
  match s with
  | [] => match cur with [] => [] | _ => [rev cur] end
  | c :: s' =>
      if isspace c then
        match cur with
        | [] => split_ws_aux [] s'
        | _ => rev cur :: split_ws_aux [] s'
        end
      else split_ws_aux (c :: cur) s'
  end.

Definition split_ws (s : str) : list str := split_ws_aux [] s.

(** The value of a string of decimal digits. *)
Fixpoint int_digits (acc : N) (s : str) : option N :=
  match s with
  | [] => Some acc
  | c :: s' =>
      match decimal c with
      | Some d => int_digits (10 * acc + d)%N s'
      | None => None
      end
  end.

(** [sys.get_int_max_str_digits()]: the longest string of digits that
    CPython converts, 4300 unless the interpreter is configured
    otherwise; leading zeros count. *)
Definition int_max_str_digits : nat := 4300.

(** [int(s)] on a string of decimal digits; [None] is [ValueError], which
    the empty string, a character that is no digit and a string of more
    than [int_max_str_digits] digits raise. *)
Definition int_of (s : str) : option Z :=
  match s with
  | [] => None
  | _ =>
      if Nat.ltb int_max_str_digits (length s) then None
      else option_map Z.of_N (int_digits 0 s)
  end.

End Strings.

(** [str.split(sep)] for a one-character separator. *)
Fixpoint split_on_aux (sep : char) (cur : str) (s : str) : list str :=
  match s with
  | [] => [rev cur]
  | c :: s' =>
      if N.eqb c sep then rev cur :: split_on_aux sep [] s'
      else split_on_aux sep (c :: cur) s'
  end.

Definition split_on (sep : char) (s : str) : list str := split_on_aux sep [] s.

Fixpoint startswith (p s : str) : bool :=
  match p, s with
  | [], _ => true
  | x :: p', y :: s' => N.eqb x y && startswith p' s'
  | _ :: _, [] => false
  end.

(** [p in s] on strings. *)
Fixpoint contains (p s : str) : bool :=
  startswith p s ||
  match s with
  | [] => false
  | _ :: s' => contains p s'
  end.

(** [s.endswith(c)] for a one-character suffix. *)
Definition endswith_char (c : char) (s : str) : bool :=
  match rev s with
  | x :: _ => N.eqb x c
  | [] => false
  end.

(** [s.replace(c, '')] for a one-character pattern. *)
Definition remove_char (c : char) (s : str) : str :=
  filter (fun x => negb (N.eqb x c)) s.

(** [s[:-1]] *)
Definition drop_last (s : str) : str := removelast s.

(** ** Regular expressions: the fragment of [re] the analyzer uses

    A backtracking matcher in continuation-passing style with the search
    order of [re]: alternatives left to right, greedy repetition, the first
    start position that matches. *)

Inductive class_item :=
| CChar (c : char)          (* a character *)
| CRange (lo hi : char)     (* a-d *)
| CDigit.                   (* \d inside a class *)

Inductive regex :=
| Eps
| Lit (c : char)
| Class (items : list class_item)             (* [...] *)
| Digit                                       (* \d *)
| Space                                       (* \s *)
| WordB                                       (* \b *)
| Bol                                         (* ^ *)
| Cat (r1 r2 : regex)
| Or (r1 r2 : regex)                          (* r1|r2 *)
| Repeat (lo : nat) (hi : option nat) (r : regex)  (* greedy {lo,hi} *)
| Group (n : nat) (r : regex).                (* the n-th capturing group *)

Definition Star (r : regex) : regex := Repeat 0 None r.
Definition Plus (r : regex) : regex := Repeat 1 None r.
Definition Opt (r : regex) : regex := Repeat 0 (Some 1) r.

(** The literal string [s]; also [re.escape(s)] once compiled. *)
Fixpoint Str (s : str) : regex :=
  match s with
  | [] => Eps
  | [c] => Lit c
  | c :: s' => Cat (Lit c) (Str s')
  end.

Definition re_escape (s : str) : regex := Str s.

Fixpoint Seq (rs : list regex) : regex :=
  match rs with
  | [] => Eps
  | [r] => r
  | r :: rs' => Cat r (Seq rs')
  end.

Fixpoint Alt (rs : list regex) : regex :=
  match rs with
  | [] => Class []
  | [r] => r
  | r :: rs' => Or r (Alt rs')
  end.

(** The state of a match attempt: the position, the character before it,
    the text that remains and the groups captured so far. *)
Record mstate := {
  pos : nat;
  prev : option char;
  rest : str;
  caps : list (nat * str)
}.

Definition advance (c : char) (tl : str) (st : mstate) : mstate :=
  {| pos := S (pos st); prev := Some c; rest := tl; caps := caps st |}.

Definition set_cap (n : nat) (s : str) (st : mstate) : mstate :=
  {| pos := pos st; prev := prev st; rest := rest st;
     caps := (n, s) :: caps st |}.

Fixpoint get_cap (n : nat) (cs : list (nat * str)) : option str :=
  match cs with
  | [] => None
  | (i, s) :: cs' => if Nat.eqb i n then Some s else get_cap n cs'
  end.

Definition below (count : nat) (hi : option nat) : bool :=
  match hi with
  | None => true
  | Some h => Nat.ltb count h
  end.

Section Matcher.
Context {U : unicode_db}.

(** A pattern character against a text character, under [re.IGNORECASE]
    when [ic] is set. *)
Definition lit_match (ic : bool) (c x : char) : bool :=
  N.eqb c x ||
  (ic && (if is_ascii x then N.eqb (ascii_lower x) (ascii_lower c)
          else if is_symbol x then false
          else uni_ignorecase x c)).

Definition item_match (i : class_item) (x : char) : bool :=
  match i with
  | CChar c => N.eqb c x
  | CRange lo hi => between lo hi x
  | CDigit => isdigit x
  end.

Definition at_boundary (st : mstate) : bool :=
  let before := match prev st with Some c => isword c | None => false end in
  let after := match rest st with c :: _ => isword c | [] => false end in
  xorb before after.

(** One character of the text against a predicate. *)
Definition eat (p : char -> bool) (st : mstate)
    (k : mstate -> option mstate) : option mstate :=
  match rest st with
  | x :: tl => if p x then k (advance x tl st) else None
  | [] => None
  end.

(** [m ic r st k]: match [r] at [st], then continue with [k]; [None] makes
    the matcher backtrack.  A repetition stops on an iteration that
    consumes nothing, so the length of the remaining text bounds the
    number of its iterations. *)
Fixpoint m (ic : bool) (r : regex) (st : mstate)
    (k : mstate -> option mstate) {struct r} : option mstate :=
  match r with
  | Eps => k st
  | Lit c => eat (lit_match ic c) st k
  | Class items => eat (fun x => existsb (fun i => item_match i x) items) st k
  | Digit => eat isdigit st k
  | Space => eat isspace st k
  | WordB => if at_boundary st then k st else None
  | Bol => match pos st with O => k st | S _ => None end
  | Cat r1 r2 => m ic r1 st (fun st1 => m ic r2 st1 k)
  | Or r1 r2 =>
      match m ic r1 st k with
      | Some x => Some x
      | None => m ic r2 st k
      end
  | Repeat lo hi r1 =>
      (fix rep (fuel count : nat) (st : mstate) {struct fuel} : option mstate :=
         match fuel with
         | O => if Nat.leb lo count then k st else None
         | S fuel' =>
             match
               (if below count hi then
                  m ic r1 st (fun st' =>
                    if Nat.ltb (pos st) (pos st') then rep fuel' (S count) st'
                    else None)
                else None)
             with
             | Some x => Some x
             | None => if Nat.leb lo count then k st else None
             end
         end) (S (length (rest st))) 0 st
  | Group n r1 =>
      m ic r1 st (fun st' =>
        k (set_cap n (firstn (pos st' - pos st) (rest st)) st'))
  end.

(** A match object: where the match starts and the state at its end;
    group 0 is the whole match. *)
Record match_obj := {
  m_start : nat;
  m_end : mstate
}.

Definition group (n : nat) (mo : match_obj) : option str :=
  get_cap n (caps (m_end mo)).

(** The text of a group that took part in the match. *)
Definition group_text (n : nat) (mo : match_obj) : str :=
  match group n mo with Some s => s | None => [] end.

Definition match_here (ic : bool) (r : regex) (st : mstate) : option match_obj :=
  match m ic (Group 0 r) st Some with
  | Some st' => Some {| m_start := pos st; m_end := st' |}
  | None => None
  end.

Definition start_state (s : str) : mstate :=
  {| pos := 0; prev := None; rest := s; caps := [] |}.

(** [re.match(r, s)] *)
Definition re_match (ic : bool) (r : regex) (s : str) : option match_obj :=
  match_here ic r (start_state s).

(** The first position from [st] on at which [r] matches. *)
Fixpoint search_from (ic : bool) (r : regex) (p : nat) (pv : option char)
    (s : str) : option match_obj :=
  match match_here ic r {| pos := p; prev := pv; rest := s; caps := [] |} with
  | Some mo => Some mo
  | None =>
      match s with
      | [] => None
      | c :: s' => search_from ic r (S p) (Some c) s'
      end
  end.

(** [re.search(r, s)] *)
Definition re_search (ic : bool) (r : regex) (s : str) : option match_obj :=
  search_from ic r 0 None s.

Definition is_match (o : option match_obj) : bool :=
  match o with Some _ => true | None => false end.

(** [re.findall(r, s)] for a pattern with one group: the texts of group 1
    of the successive matches, each search resuming where the previous
    match ended (one character further after an empty match; the pattern
    the source gives to [findall] matches no empty string). *)
Fixpoint findall_from (ic : bool) (r : regex) (fuel : nat) (p : nat)
    (pv : option char) (s : str) : list str :=
  match fuel with
  | O => []
  | S fuel' =>
      match search_from ic r p pv s with
      | None => []
      | Some mo =>
          let e := m_end mo in
          group_text 1 mo ::
          (if Nat.ltb (m_start mo) (pos e)
           then findall_from ic r fuel' (pos e) (prev e) (rest e)
           else match rest e with
                | c :: tl => findall_from ic r fuel' (S (pos e)) (Some c) tl
                | [] => []
                end)
      end
  end.

Definition re_findall (ic : bool) (r : regex) (s : str) : list str :=
  findall_from ic r (S (length s)) 0 None s.

(** [re.sub(r, '', s)] for a pattern anchored by [^]: such a pattern can
    match at the start of the text only, and the match is cut out. *)
Definition re_sub_anchored (ic : bool) (r : regex) (s : str) : str :=
  match re_match ic r s with
  | Some mo => rest (m_end mo)
  | None => s
  end.

End Matcher.

(** ** Python values *)

(** The values the analyzer stores in dictionaries.  [VQuot n d] is the
    float that the true division [n / d] of two integers returns. *)
#[local] Set Warnings "-register-all".
Inductive value :=
| VNone
| VInt (z : Z)
| VStr (s : str)
| VQuot (num den : Z)
| VStrs (l : list str)
| VCounter (c : list (str * nat))
| VDict (d : list (string * value)).

(** A dictionary with string keys, in insertion order. *)
Definition dict := list (string * value).

Fixpoint dict_get (key : string) (d : dict) : option value :=
  match d with
  | [] => None
  | (k, v) :: d' => if String.eqb k key then Some v else dict_get key d'
  end.

Definition dict_mem (key : string) (d : dict) : bool :=
  match dict_get key d with Some _ => true | None => false end.

(** [d[key] = v] *)
Fixpoint dict_set (key : string) (v : value) (d : dict) : dict :=
  match d with
  | [] => [(key, v)]
  | (k, w) :: d' =>
      if String.eqb k key then (k, v) :: d' else (k, w) :: dict_set key v d'
  end.

(** Truth value of an object. *)
Definition truthy (v : value) : bool :=
  match v with
  | VNone => false
  | VInt z => negb (Z.eqb z 0)
  | VStr s => match s with [] => false | _ => true end
  | VQuot n _ => negb (Z.eqb n 0)
  | VStrs l => match l with [] => false | _ => true end
  | VCounter c => match c with [] => false | _ => true end
  | VDict d => match d with [] => false | _ => true end
  end.

Definition nonempty {A} (l : list A) : bool :=
  match l with [] => false | _ => true end.

(** ** [core/exceptions.py] *)

Inductive exn :=
| InsufficientDataError (min_required : Z) (got : nat)
| AnalysisError (cause : exn)
| ValueError
| TypeError
| ZeroDivisionError.

Definition result (A : Type) : Type := exn + A.

Definition ret {A} (a : A) : result A := inr a.
Definition raise {A} (e : exn) : result A := inl e.
Definition bind {A B} (x : result A) (f : A -> result B) : result B :=
  match x with
  | inl e => inl e
  | inr a => f a
  end.

Notation "x <- c1 ;; c2" := (bind c1 (fun x => c2))
  (at level 61, c1 at next level, right associativity).

(** ** [core/models.py] *)

Record JobDescription := {
  title : str;
  company : str;
  location : option str;
  salary_range : option str;
  description : str
}.

(** One line of a pydantic [ValidationError]. *)
Inductive field_error :=
| string_too_short (field : string)
| string_too_long (field : string)
| value_error (field : string) (msg : string).

Section Models.
Context {U : unicode_db}.

(** [Field(..., min_length=lo, max_length=hi)] on a string. *)
Definition check_length (field : string) (lo : nat) (hi : option nat)
    (v : str) : list field_error :=
  if Nat.ltb (length v) lo then [string_too_short field]
  else match hi with
       | Some h => if Nat.ltb h (length v) then [string_too_long field] else []
       | None => []
       end.

(** [JobDescription.validate_description] *)
Definition validate_description (v : str) : string + str :=
  if Nat.ltb (length (split_ws v)) 50
  then inl "Description must contain at least 50 words"%string
  else inr v.

(** The description field: the length constraint, then the validator. *)
Definition check_description (v : str) : list field_error :=
  match check_length "description" 10 None v with
  | [] =>
      match validate_description v with
      | inl msg => [value_error "description" msg]
      | inr _ => []
      end
  | errs => errs
  end.

(** [JobDescription(title=..., company=..., ...)]: the model, or the
    errors of every field that fails. *)
Definition new_JobDescription (title company : str)
    (location salary_range : option str) (description : str)
    : list field_error + JobDescription :=
  match check_length "title" 1 (Some 200) title
        ++ check_length "company" 1 (Some 200) company
        ++ check_description description with
  | [] => inr {| title := title; company := company; location := location;
                 salary_range := salary_range; description := description |}
  | errs => inl errs
  end.

End Models.

(** ** [analyzers/nlp_analyzer.py] *)

(** An ASCII character of a pattern. *)
Definition ch (a : ascii) : char := N_of_ascii a.
Arguments ch a%_char.

(** What the optional spaCy pipeline returns for a text: the texts of the
    noun chunks, and the entities with their labels. *)
Record spacy_doc := {
  noun_chunks : list str;
  ents : list (str * str)
}.

(** A [set] of strings, held as the list of its elements in the order
    in which they were added: [s.add(x)] and [s.update(new)]. *)
Definition set_add (x : str) (s : list str) : list str :=
  if existsb (text_eqb x) s then s else s ++ [x].

Definition set_update (s new : list str) : list str :=
  fold_left (fun acc x => set_add x acc) new s.

(** [list(s)] for a set [s] of strings.  CPython enumerates a set in the
    order of its hash table, and the hash of a string changes from one
    run of the interpreter to the next unless [PYTHONHASHSEED] is fixed:
    the elements come each once, in an order that the program does not
    choose.  [list_of_set] is that order for one run. *)
Class set_order := {
  list_of_set : list str -> list str;
  list_of_set_perm : forall s : list str, Permutation (list_of_set s) s
}.

(** Two of the orders: that of insertion, and its reverse. *)
Definition insertion_order : set_order :=
  {| list_of_set := fun s => s;
     list_of_set_perm := fun s => Permutation_refl s |}.

Definition reverse_order : set_order :=
  {| list_of_set := fun s => rev s;
     list_of_set_perm := fun s => Permutation_sym (Permutation_rev s) |}.

(** [_build_skill_patterns]: the default taxonomy. *)
Definition _build_skill_patterns : list (string * list str) :=
  [ ("product_management"%string,
     [ txt "product strategy"; txt "product vision"; txt "roadmap"; txt "roadmapping";
       txt "product lifecycle"; txt "product development"; txt "product planning";
       txt "feature prioritization"; txt "backlog management"; txt "user stories";
       txt "product metrics"; txt "product analytics"; txt "kpis" ]);
    ("technical"%string,
     [ txt "sql"; txt "python"; txt "api"; txt "rest"; txt "graphql"; txt "json"; txt "xml";
       txt "cloud"; txt "aws"; txt "azure"; txt "gcp"; txt "kubernetes"; txt "docker";
       txt "microservices"; txt "system design"; txt "architecture";
       txt "technical specifications";
       txt "data structures"; txt "algorithms"; txt "database"; txt "nosql" ]);
    ("analytics"%string,
     [ txt "data analysis"; txt "analytics"; txt "a/b testing"; txt "experimentation";
       txt "metrics"; txt "kpi"; txt "tableau"; txt "google analytics"; txt "mixpanel";
       txt "amplitude"; txt "sql"; txt "excel"; txt "statistics"; txt "data-driven";
       txt "quantitative analysis"; txt "cohort analysis"; txt "funnel analysis" ]);
    ("design"%string,
     [ txt "ux"; txt "ui"; txt "user experience"; txt "user interface"; txt "wireframing";
       txt "prototyping"; txt "figma"; txt "sketch"; txt "adobe xd"; txt "invision";
       txt "user research"; txt "usability testing"; txt "design thinking" ]);
    ("business"%string,
     [ txt "business strategy"; txt "market analysis"; txt "competitive analysis";
       txt "go-to-market"; txt "gtm"; txt "pricing"; txt "monetization"; txt "revenue";
       txt "p&l"; txt "roi"; txt "business case"; txt "financial modeling";
       txt "market research"; txt "customer segmentation" ]);
    ("agile"%string,
     [ txt "agile"; txt "scrum"; txt "kanban"; txt "sprint"; txt "jira"; txt "confluence";
       txt "standup"; txt "retrospective"; txt "sprint planning";
       txt "agile methodologies" ]);
    ("leadership"%string,
     [ txt "stakeholder management"; txt "cross-functional"; txt "leadership";
       txt "team management"; txt "mentoring"; txt "coaching"; txt "influence";
       txt "communication"; txt "presentation"; txt "executive communication" ]);
    ("domain"%string,
     [ txt "saas"; txt "b2b"; txt "b2c"; txt "enterprise"; txt "consumer"; txt "mobile";
       txt "web"; txt "platform"; txt "marketplace"; txt "e-commerce"; txt "fintech";
       txt "healthtech"; txt "edtech"; txt "marketplace" ]) ].

(** [self.skill_patterns] *)
Definition skill_patterns : list (string * list str) := _build_skill_patterns.

(** Every phrase of the taxonomy, in the order in which the two nested
    loops over [self.skill_patterns.items()] visit them. *)
Definition all_skill_phrases : list str := flat_map snd skill_patterns.

(** *** The patterns of the source *)

(** [\b] + re.escape(skill) + [\b] *)
Definition skill_pattern (skill : str) : regex :=
  Seq [WordB; re_escape skill; WordB].

Definition word (s : string) : regex := Seq [WordB; Str (txt s); WordB].

(** [^[-•*\d.]] *)
Definition marker_class : regex :=
  Class [CChar (ch "-"); CChar BULLET; CChar (ch "*"); CDigit; CChar (ch ".")].
Definition re_marker_start : regex := Seq [Bol; marker_class].

(** [^[-•*]\s+] *)
Definition re_bullet : regex :=
  Seq [Bol; Class [CChar (ch "-"); CChar BULLET; CChar (ch "*")]; Plus Space].

(** [^\d+\.\s+] *)
Definition re_numbered : regex :=
  Seq [Bol; Plus Digit; Lit (ch "."); Plus Space].

(** [^[-•*\d.]+\s+] *)
Definition re_marker_run : regex :=
  Seq [Bol; Plus marker_class; Plus Space].

(** [\blead\b|\bprincipal\b|\bstaff\b] *)
Definition re_lead : regex := Alt [word "lead"; word "principal"; word "staff"].

(** [\bsenior\b|\bsr\.?\b] *)
Definition re_senior : regex :=
  Alt [word "senior"; Seq [WordB; Str (txt "sr"); Opt (Lit (ch ".")); WordB]].

(** [\bentry\b|\bjunior\b|\bassociate\b] *)
Definition re_entry : regex := Alt [word "entry"; word "junior"; word "associate"].

(** [(?:to|\-|–)] *)
Definition re_to : regex := Alt [Str (txt "to"); Lit (ch "-"); Lit EN_DASH].

(** [years?] *)
Definition re_years : regex := Seq [Str (txt "year"); Opt (Lit (ch "s"))].

(** [(\d+)\+?\s*(?:to|\-|–)\s*(\d+)?\s*years?] *)
Definition re_years_range : regex :=
  Seq [Group 1 (Plus Digit); Opt (Lit (ch "+")); Star Space; re_to; Star Space;
       Opt (Group 2 (Plus Digit)); Star Space; re_years].

(** [(\d+)\+?\s*years?] *)
Definition re_years_single : regex :=
  Seq [Group 1 (Plus Digit); Opt (Lit (ch "+")); Star Space; re_years].

(** [\d{1,3}(?:,\d{3})*(?:k|K)?] *)
Definition re_amount : regex :=
  Seq [Repeat 1 (Some 3) Digit;
       Star (Seq [Lit (ch ","); Repeat 3 (Some 3) Digit]);
       Opt (Or (Lit (ch "k")) (Lit (ch "K")))].

(** [\$(amount)\s*(?:to|\-|–)\s*\$?(amount)] *)
Definition re_salary_in_text : regex :=
  Seq [Lit (ch "$"); Group 1 re_amount; Star Space; re_to; Star Space;
       Opt (Lit (ch "$")); Group 2 re_amount].

(** [\$?(amount)] *)
Definition re_salary_token : regex := Seq [Opt (Lit (ch "$")); Group 1 re_amount].

(** [[- ]] *)
Definition dash_or_blank : regex := Class [CChar (ch "-"); CChar (ch " ")].

(** [fully remote|100%\s*remote|remote[- ]first] *)
Definition re_fully_remote : regex :=
  Alt [Str (txt "fully remote");
       Seq [Str (txt "100%"); Star Space; Str (txt "remote")];
       Seq [Str (txt "remote"); dash_or_blank; Str (txt "first")]].

(** [on[- ]?site|in[- ]office] *)
Definition re_on_site : regex :=
  Alt [Seq [Str (txt "on"); Opt dash_or_blank; Str (txt "site")];
       Seq [Str (txt "in"); dash_or_blank; Str (txt "office")]].

(** [startup|early[- ]stage] *)
Definition re_startup : regex :=
  Alt [Str (txt "startup"); Seq [Str (txt "early"); dash_or_blank; Str (txt "stage")]].

(** [series [a-d]] and [series ([a-d])] *)
Definition re_series : regex :=
  Seq [Str (txt "series "); Class [CRange (ch "a") (ch "d")]].
Definition re_series_group : regex :=
  Seq [Str (txt "series "); Group 1 (Class [CRange (ch "a") (ch "d")])].

(** [enterprise|fortune] *)
Definition re_enterprise : regex := Alt [Str (txt "enterprise"); Str (txt "fortune")].

(** [(\d+)\+?\s*(?:person|people|employee)] *)
Definition re_company_size : regex :=
  Seq [Group 1 (Plus Digit); Opt (Lit (ch "+")); Star Space;
       Alt [Str (txt "person"); Str (txt "people"); Str (txt "employee")]].

(** The [education_keywords] of [_extract_education]. *)
Definition education_keywords : list regex :=
  [ Seq [Str (txt "bachelor"); Opt (Lit (ch "'")); Opt (Lit (ch "s")); Plus Space;
         Str (txt "degree")];
    Seq [Str (txt "master"); Opt (Lit (ch "'")); Opt (Lit (ch "s")); Plus Space;
         Str (txt "degree")];
    Str (txt "mba");
    Seq [Str (txt "ph"); Opt (Lit (ch ".")); Lit (ch "d"); Opt (Lit (ch "."))];
    Str (txt "computer science degree");
    Str (txt "technical degree");
    Str (txt "engineering degree") ].

(** *** [collections.Counter] *)

(** [c[x] += 1]: a new key goes to the end. *)
Fixpoint counter_incr (x : str) (c : list (str * nat)) : list (str * nat) :=
  match c with
  | [] => [(x, 1)]
  | (k, n) :: c' =>
      if text_eqb k x then (k, S n) :: c' else (k, n) :: counter_incr x c'
  end.

(** [Counter(l)] *)
Definition Counter (l : list str) : list (str * nat) :=
  fold_left (fun c x => counter_incr x c) l [].

Fixpoint insert_desc (e : str * nat) (l : list (str * nat)) : list (str * nat) :=
  match l with
  | [] => [e]
  | y :: l' => if Nat.ltb (snd e) (snd y) then y :: insert_desc e l' else e :: l
  end.

(** [sorted(items, key=itemgetter(1), reverse=True)]: a stable sort. *)
Definition sorted_desc (l : list (str * nat)) : list (str * nat) :=
  fold_right insert_desc [] l.

(** [c.most_common(n)], that is [heapq.nlargest(n, c.items(), key=count)],
    documented to equal [sorted(..., reverse=True)[:n]]. *)
Definition most_common (n : nat) (c : list (str * nat)) : list (str * nat) :=
  firstn n (sorted_desc c).

(** *** Integers out of a list of values *)

Fixpoint ints_of (vs : list value) : result (list Z) :=
  match vs with
  | [] => ret []
  | VInt z :: vs' => l <- ints_of vs' ;; ret (z :: l)
  | _ :: _ => raise TypeError
  end.

(** [min(vs)], [max(vs)] and [sum(vs)] on integers. *)
Definition py_min (vs : list value) : result Z :=
  l <- ints_of vs ;;
  match l with
  | [] => raise ValueError
  | x :: l' => ret (fold_left Z.min l' x)
  end.

Definition py_max (vs : list value) : result Z :=
  l <- ints_of vs ;;
  match l with
  | [] => raise ValueError
  | x :: l' => ret (fold_left Z.max l' x)
  end.

Definition py_sum (vs : list value) : result Z :=
  l <- ints_of vs ;; ret (fold_left Z.add l 0%Z).

(** *** The per-document insight *)

Record insight := {
  ins_title : str;
  ins_company : str;
  skills : list str;
  skills_by_category : list (string * list str);
  responsibilities : list str;
  qualifications : list str;
  experience_level : str;
  experience_years : option Z;
  ins_salary_range : dict;
  ins_location : str;
  remote_policy : str;
  company_info : dict;
  required_education : list str;
  nice_to_have : list str
}.

(** [enumerate(l)] *)
Definition enumerate {A} (l : list A) : list (nat * A) :=
  combine (seq 0 (length l)) l.

Section Extraction.
Context {U : unicode_db} {SO : set_order}.

(** [self.nlp]: the spaCy pipeline, when it could be loaded.  The
    pipeline is taken to return a document for every text; a call of it
    that raises is not modelled. *)
Variable nlp : option (str -> spacy_doc).

(** [_extract_skills_rules] *)
Definition _extract_skills_rules (text : str) : list str :=
  let skills :=
    fold_left
      (fun skills '(category, skill_list) =>
         fold_left
           (fun skills skill =>
              if is_match (re_search true (skill_pattern skill) text)
              then set_add skill skills
              else skills)
           skill_list skills)
      skill_patterns [] in
  list_of_set skills.

(** The two nested loops over the taxonomy in [_extract_skills_nlp]. *)
Definition add_skills_where (p : str -> bool) (skills : list str) : list str :=
  fold_left
    (fun skills '(category, skill_list) =>
       fold_left (fun skills skill => if p skill then set_add skill skills else skills)
         skill_list skills)
    skill_patterns skills.

(** [_extract_skills_nlp] *)
Definition _extract_skills_nlp (text : str) : list str :=
  match nlp with
  | None => _extract_skills_rules (lower text)
  | Some pipeline =>
      let doc := pipeline text in
      let skills :=
        fold_left
          (fun skills chunk =>
             let chunk_text := strip (lower chunk) in
             add_skills_where
               (fun skill => contains skill chunk_text || contains chunk_text skill)
               skills)
          (noun_chunks doc) [] in
      let skills :=
        fold_left
          (fun skills '(ent, label_) =>
             if existsb (text_eqb label_) [txt "PRODUCT"; txt "ORG"; txt "SKILL"]
             then let ent_text := lower ent in
                  add_skills_where (fun skill => contains skill ent_text) skills
             else skills)
          (ents doc) skills in
      let rules_skills := _extract_skills_rules (lower text) in
      list_of_set (set_update skills rules_skills)
  end.

(** The inner loop of [_categorize_skills]: the first category whose list
    holds the skill. *)
Definition first_category (skill : str) : option string :=
  match find (fun '(category, skill_list) => existsb (text_eqb skill) skill_list)
             skill_patterns with
  | Some (category, _) => Some category
  | None => None
  end.

(** [categorized[category].append(skill)] *)
Fixpoint cat_append (category : string) (skill : str)
    (categorized : list (string * list str)) : list (string * list str) :=
  match categorized with
  | [] => []
  | (k, v) :: d' =>
      if String.eqb k category then (k, v ++ [skill]) :: d'
      else (k, v) :: cat_append category skill d'
  end.

(** [_categorize_skills] *)
Definition _categorize_skills (skills : list str) : list (string * list str) :=
  let categorized := map (fun '(category, _) => (category, [])) skill_patterns in
  let categorized :=
    fold_left
      (fun categorized skill =>
         match first_category skill with
         | Some category => cat_append category skill categorized
         | None => categorized
         end)
      skills categorized in
  filter (fun '(k, v) => nonempty v) categorized.

(** One turn of the loop of [_extract_sections]; the state is
    [(in_section, items)]. *)
Definition sections_step (lines : list str) (keywords : list str)
    (st : bool * list str) (il : nat * str) : bool * list str :=
  let '(in_section, items) := st in
  let '(i, line) := il in
  let line := strip line in
  if existsb (fun keyword => contains keyword (lower line)) keywords then
    (true, items)
  else
    let in_section :=
      if in_section && nonempty line
         && negb (is_match (re_match false re_marker_start line))
      then
        if Nat.ltb i (length lines - 1)
           && negb (is_match (re_match false re_marker_start
                                (strip (nth (i + 1) lines []))))
        then false
        else in_section
      else in_section in
    if in_section && is_match (re_match false re_bullet line)
       || is_match (re_match false re_numbered line)
    then
      let clean_line := re_sub_anchored false re_marker_run line in
      if Nat.ltb 20 (length clean_line)
      then (in_section, items ++ [firstn 200 clean_line])
      else (in_section, items)
    else (in_section, items).

(** [_extract_sections] *)
Definition _extract_sections (text : str) (keywords : list str) : list str :=
  let lines := split_on LF text in
  let '(_, items) :=
    fold_left (sections_step lines keywords) (enumerate lines) (false, []) in
  firstn 20 items.

(** [_extract_years_experience] *)
Definition _extract_years_experience (text : str) : result (option Z) :=
  let patterns := [re_years_range; re_years_single] in
  (fix loop (patterns : list regex) : result (option Z) :=
     match patterns with
     | [] => ret None
     | pattern :: patterns' =>
         match re_search true pattern text with
         | Some mo =>
             match int_of (group_text 1 mo) with
             | Some n => ret (Some n)
             | None => raise ValueError
             end
         | None => loop patterns'
         end
     end) patterns.

(** [_extract_experience_level] *)
Definition _extract_experience_level (text : str) : result str :=
  let text_lower := lower text in
  if is_match (re_search false re_lead text_lower) then ret (txt "Lead/Principal")
  else if is_match (re_search false re_senior text_lower) then ret (txt "Senior")
  else if is_match (re_search false re_entry text_lower) then ret (txt "Entry-Level")
  else
    years <- _extract_years_experience text ;;
    match years with
    | Some years =>
        if negb (Z.eqb years 0) then
          if Z.leb 10 years then ret (txt "Lead/Principal")
          else if Z.leb 6 years then ret (txt "Senior")
          else if Z.leb 3 years then ret (txt "Mid-Level")
          else ret (txt "Entry-Level")
        else ret (txt "Mid-Level")
    | None => ret (txt "Mid-Level")
    end.

(** [_parse_salary] *)
Definition _parse_salary (salary_str : str) : result Z :=
  let salary_str := remove_char (ch "$") (remove_char (ch ",") salary_str) in
  if endswith_char (ch "k") salary_str || endswith_char (ch "K") salary_str then
    match int_of (drop_last salary_str) with
    | Some n => ret (n * 1000)%Z
    | None => raise ValueError
    end
  else
    match int_of salary_str with
    | Some n => ret n
    | None => raise ValueError
    end.

(** [_extract_salary_info] *)
Definition _extract_salary_info (salary_range : option str) (text : str) : dict :=
  let salary_range :=
    match salary_range with
    | Some (_ :: _) => salary_range
    | _ =>
        match re_search false re_salary_in_text text with
        | Some mo =>
            Some (txt "$" ++ group_text 1 mo ++ txt " - $" ++ group_text 2 mo)
        | None => salary_range
        end
    end in
  match salary_range with
  | Some ((_ :: _) as salary_range) =>
      let amounts := re_findall false re_salary_token salary_range in
      let unparsed := [("range"%string, VStr salary_range)] in
      match amounts with
      | a0 :: a1 :: _ =>
          match _parse_salary a0, _parse_salary a1 with
          | inr min_sal, inr max_sal =>
              [ ("min"%string, VInt min_sal);
                ("max"%string, VInt max_sal);
                ("average"%string, VInt ((min_sal + max_sal) / 2)%Z);
                ("range"%string, VStr salary_range) ]
          | _, _ => unparsed
          end
      | _ => unparsed
      end
  | _ => []
  end.

(** [_extract_remote_policy] *)
Definition _extract_remote_policy (text : str) : str :=
  if is_match (re_search false re_fully_remote text) then txt "Fully Remote"
  else if is_match (re_search false (Str (txt "hybrid")) text) then txt "Hybrid"
  else if is_match (re_search false re_on_site text) then txt "On-Site"
  else if is_match (re_search false (Str (txt "remote")) text) then txt "Remote Available"
  else txt "Not Specified".

(** [_extract_company_info] *)
Definition _extract_company_info (text : str) : dict :=
  let info : dict := [] in
  let info :=
    if is_match (re_search false re_startup text) then
      dict_set "stage" (VStr (txt "Startup")) info
    else if is_match (re_search false re_series text) then
      match re_search false re_series_group text with
      | Some mo => dict_set "stage" (VStr (txt "Series " ++ upper (group_text 1 mo))) info
      | None => info
      end
    else if is_match (re_search false re_enterprise text) then
      dict_set "stage" (VStr (txt "Enterprise")) info
    else info in
  match re_search false re_company_size text with
  | Some size_match =>
      dict_set "size" (VStr (group_text 1 size_match ++ txt "+ employees")) info
  | None => info
  end.

(** [_extract_education] *)
Definition _extract_education (text : str) : list str :=
  let text_lower := lower text in
  fold_left
    (fun education keyword =>
       match re_search false keyword text_lower with
       | Some mo => education ++ [group_text 0 mo]
       | None => education
       end)
    education_keywords [].

Definition nice_keywords : list str :=
  [txt "nice to have"; txt "preferred"; txt "bonus"; txt "plus"; txt "ideal candidate"].

(** One turn of the loop of [_extract_nice_to_have]; the state is
    [(in_nice_section, nice_to_have)]. *)
Definition nice_step (st : bool * list str) (line : str) : bool * list str :=
  let '(in_nice_section, nice_to_have) := st in
  if existsb (fun keyword => contains keyword (lower line)) nice_keywords then
    (true, nice_to_have)
  else if in_nice_section && is_match (re_match false re_bullet line) then
    let clean_line := re_sub_anchored false re_marker_run (strip line) in
    if Nat.ltb 10 (length clean_line)
    then (in_nice_section, nice_to_have ++ [firstn 200 clean_line])
    else (in_nice_section, nice_to_have)
  else (in_nice_section, nice_to_have).

(** [_extract_nice_to_have] *)
Definition _extract_nice_to_have (text : str) : list str :=
  let lines := split_on LF text in
  let '(_, nice_to_have) := fold_left nice_step lines (false, []) in
  firstn 10 nice_to_have.

End Extraction.

(** *** Aggregation *)

(** [s['min'] for s in salary_ranges if 'min' in s] *)
Definition values_at (key : string) (ds : list dict) : list value :=
  flat_map (fun s => match dict_get key s with Some v => [v] | None => [] end) ds.

(** [_aggregate_salary_data].  In the dictionaries that
    [_extract_salary_info] builds, the values under ['min'] and ['max'] are
    integers; on any other value the arithmetic raises [TypeError]. *)
Definition _aggregate_salary_data (salary_ranges : list dict) : result dict :=
  if negb (nonempty salary_ranges) then ret []
  else
    let min_salaries := values_at "min" salary_ranges in
    let max_salaries := values_at "max" salary_ranges in
    if negb (nonempty min_salaries) then ret []
    else
      market_min <- py_min min_salaries ;;
      market_max <- py_max max_salaries ;;
      sum_min <- py_sum min_salaries ;;
      average_max <-
        (if nonempty max_salaries
         then sum_max <- py_sum max_salaries ;;
              ret (VInt (sum_max / Z.of_nat (length max_salaries)))
         else ret VNone) ;;
      ret [ ("market_min"%string, VInt market_min);
            ("market_max"%string, VInt market_max);
            ("average_min"%string, VInt (sum_min / Z.of_nat (length min_salaries)));
            ("average_max"%string, average_max);
            ("sample_size"%string, VInt (Z.of_nat (length salary_ranges))) ].

(** [i.get('experience_years')] as a truth value. *)
Definition years_truthy (y : option Z) : bool :=
  match y with
  | Some n => negb (Z.eqb n 0)
  | None => false
  end.

(** [_find_common_patterns] *)
Definition _find_common_patterns (insights : list insight) : result dict :=
  let patterns : dict := [] in
  let all_skills := flat_map skills insights in
  let patterns :=
    dict_set "top_skills"
      (VStrs (map fst (most_common 10 (Counter all_skills)))) patterns in
  let years :=
    flat_map (fun i => match experience_years i with
                       | Some n => if years_truthy (Some n) then [n] else []
                       | None => []
                       end) insights in
  let patterns :=
    if nonempty years
    then dict_set "average_years_required"
           (VQuot (fold_left Z.add years 0%Z) (Z.of_nat (length years))) patterns
    else patterns in
  let has_degree_req :=
    length (filter (fun i => nonempty (required_education i)) insights) in
  match insights with
  | [] => raise ZeroDivisionError
  | _ =>
      ret (dict_set "education_requirement_frequency"
             (VQuot (Z.of_nat has_degree_req) (Z.of_nat (length insights)))
             patterns)
  end.

(** [_generate_market_comparison] *)
Definition _generate_market_comparison (insights : list insight) : result dict :=
  common_requirements <- _find_common_patterns insights ;;
  ret [ ("total_roles_analyzed"%string, VInt (Z.of_nat (length insights)));
        ("experience_levels"%string, VCounter (Counter (map experience_level insights)));
        ("remote_policies"%string, VCounter (Counter (map remote_policy insights)));
        ("common_requirements"%string, VDict common_requirements) ].

(** [AnalysisResult] of [core/models.py] *)
Record AnalysisResult := {
  total_analyzed : nat;
  common_skills : list (str * nat);
  common_responsibilities : list (str * nat);
  common_qualifications : list (str * nat);
  insights : list insight;
  salary_insights : option dict;
  market_comparison : option dict
}.

(** *** The two entry points, with their log *)

(** The records the analyzer hands to its logger. *)
Inductive log_event :=
| debug_analyzed (title company : str)      (* "Analyzed job: ... at ..." *)
| error_analyzing (e : exn)                 (* "Error analyzing job description: ..." *)
| info_analyzing (n : nat)                  (* "Analyzing n job descriptions..." *)
| info_complete (n : nat)                   (* "Analysis complete. Found n unique skills." *)
| error_multi (e : exn)                     (* "Error in multi-description analysis: ..." *)
| info_spacy_loaded                         (* "Loaded spaCy model successfully" *)
| warning_model_not_found                   (* "spaCy model not found. Run: ..." *)
| info_falling_back                         (* "Falling back to rule-based extraction" *)
| warning_spacy_not_installed.              (* "spaCy not installed. Using rule-based extraction" *)

(** A computation that may raise and that writes to the log. *)
Definition M (A : Type) : Type := list log_event -> result A * list log_event.

Definition mret {A} (a : A) : M A := fun w => (inr a, w).
Definition mraise {A} (e : exn) : M A := fun w => (inl e, w).
Definition mbind {A B} (x : M A) (f : A -> M B) : M B :=
  fun w =>
    match x w with
    | (inl e, w') => (inl e, w')
    | (inr a, w') => f a w'
    end.
Definition lift {A} (x : result A) : M A := fun w => (x, w).
Definition logger (e : log_event) : M unit := fun w => (inr tt, w ++ [e]).

(** [try: body except Exception as e: handler(e)] *)
Definition try_except {A} (body : M A) (handler : exn -> M A) : M A :=
  fun w =>
    match body w with
    | (inl e, w') => handler e w'
    | (inr a, w') => (inr a, w')
    end.

Notation "x <~ c1 ;; c2" := (mbind c1 (fun x => c2))
  (at level 61, c1 at next level, right associativity).

(** [[f(x) for x in l]] *)
Fixpoint for_each {A B} (f : A -> M B) (l : list A) : M (list B) :=
  match l with
  | [] => mret []
  | x :: l' => y <~ f x ;; ys <~ for_each f l' ;; mret (y :: ys)
  end.

(** [config.get('analysis.min_job_descriptions', 3)] when the
    configuration does not set the key. *)
Definition default_min_job_descriptions : Z := 3.

Section Analysis.
Context {U : unicode_db} {SO : set_order}.
Variable nlp : option (str -> spacy_doc).

(** The body of the [try] of [analyze_job_description]. *)
Definition job_insights (job_desc : JobDescription) : result insight :=
  let text := description job_desc in
  let text_lower := lower text in
  let skills :=
    match nlp with
    | Some _ => _extract_skills_nlp nlp text
    | None => _extract_skills_rules text_lower
    end in
  let responsibilities :=
    _extract_sections text [txt "responsibilities"; txt "duties"; txt "what you"] in
  let qualifications :=
    _extract_sections text [txt "qualifications"; txt "requirements"; txt "you have"] in
  experience_level <- _extract_experience_level text ;;
  let salary_info := _extract_salary_info (salary_range job_desc) text in
  let remote_policy := _extract_remote_policy text_lower in
  let company_info := _extract_company_info text_lower in
  experience_years <- _extract_years_experience text ;;
  ret {| ins_title := title job_desc;
         ins_company := company job_desc;
         skills := skills;
         skills_by_category := _categorize_skills skills;
         responsibilities := responsibilities;
         qualifications := qualifications;
         experience_level := experience_level;
         experience_years := experience_years;
         ins_salary_range := salary_info;
         ins_location :=
           match location job_desc with
           | Some ((_ :: _) as l) => l
           | _ => txt "Not specified"
           end;
         remote_policy := remote_policy;
         company_info := company_info;
         required_education := _extract_education text;
         nice_to_have := _extract_nice_to_have text |}.

(** [analyze_job_description] *)
Definition analyze_job_description (job_desc : JobDescription) : M insight :=
  try_except
    (insights <~ lift (job_insights job_desc) ;;
     _ <~ logger (debug_analyzed (title job_desc) (company job_desc)) ;;
     mret insights)
    (fun e =>
       _ <~ logger (error_analyzing e) ;;
       mraise (AnalysisError e)).

(** [insight.get('salary_range', {}).get('min')] as a truth value. *)
Definition has_min (i : insight) : bool :=
  match dict_get "min" (ins_salary_range i) with
  | Some v => truthy v
  | None => false
  end.

(** [analyze_multiple_descriptions].  [analyze] is
    [self.analyze_job_description], which the method reaches through
    [self]; [min_required] is the value it reads from the configuration. *)
Definition analyze_multiple_descriptions_with
    (analyze : JobDescription -> M insight)
    (min_required : Z) (descriptions : list JobDescription) : M AnalysisResult :=
  if Z.ltb (Z.of_nat (length descriptions)) min_required then
    mraise (InsufficientDataError min_required (length descriptions))
  else
    _ <~ logger (info_analyzing (length descriptions)) ;;
    try_except
      (all_insights <~ for_each analyze descriptions ;;
       let all_skills := flat_map skills all_insights in
       let all_responsibilities := flat_map responsibilities all_insights in
       let all_qualifications := flat_map qualifications all_insights in
       let salary_ranges := map ins_salary_range (filter has_min all_insights) in
       let skill_freq := most_common 50 (Counter all_skills) in
       let responsibility_freq := most_common 30 (Counter all_responsibilities) in
       let qualification_freq := most_common 30 (Counter all_qualifications) in
       salary_insights <~
         lift (if nonempty salary_ranges
               then d <- _aggregate_salary_data salary_ranges ;; ret (Some d)
               else ret None) ;;
       market_comparison <~ lift (_generate_market_comparison all_insights) ;;
       let result :=
         {| total_analyzed := length descriptions;
            common_skills := skill_freq;
            common_responsibilities := responsibility_freq;
            common_qualifications := qualification_freq;
            insights := all_insights;
            salary_insights := salary_insights;
            market_comparison := Some market_comparison |} in
       _ <~ logger (info_complete (length skill_freq)) ;;
       mret result)
      (fun e =>
         _ <~ logger (error_multi e) ;;
         mraise (AnalysisError e)).

Definition analyze_multiple_descriptions :
    Z -> list JobDescription -> M AnalysisResult :=
  analyze_multiple_descriptions_with analyze_job_description.

End Analysis.

(** ** [core/models.py]: the request *)

(** [GenerationRequest.validate_job_descriptions] *)
Definition validate_job_descriptions (v : list JobDescription)
    : string + list JobDescription :=
  if Nat.ltb (length v) 3
  then inl "At least 3 external job descriptions required for quality analysis"%string
  else inr v.

(** ** [core/config.py] *)

(** What [yaml.safe_load] returns for a configuration file: scalars,
    sequences, and mappings in the order of the file.  The keys of the
    mappings are strings, as a dotted path can name no other key; a float
    is kept as the text that denotes it. *)
Inductive yaml :=
| YNone
| YBool (b : bool)
| YInt (z : Z)
| YFloat (repr : str)
| YStr (s : str)
| YList (l : list yaml)
| YDict (d : list (str * yaml)).

(** [d.get(k)] *)
Fixpoint assoc_get {V} (k : str) (d : list (str * V)) : option V :=
  match d with
  | [] => None
  | (k', v) :: d' => if text_eqb k' k then Some v else assoc_get k d'
  end.

(** [d[k] = v]: a new key goes to the end. *)
Fixpoint assoc_set {V} (k : str) (v : V) (d : list (str * V)) : list (str * V) :=
  match d with
  | [] => [(k, v)]
  | (k', w) :: d' =>
      if text_eqb k' k then (k', v) :: d' else (k', w) :: assoc_set k v d'
  end.

(** The loop of [Config.get] over the keys of the path. *)
Fixpoint get_loop (keys : list str) (value default : yaml) : yaml :=
  match keys with
  | [] => value
  | k :: keys' =>
      match value with
      | YDict d =>
          match assoc_get k d with
          | Some YNone | None => default
          | Some v => get_loop keys' v default
          end
      | _ => default
      end
  end.

(** [Config.get(key, default)] on the configuration [_config] *)
Definition Config_get (_config : yaml) (key : str) (default : yaml) : yaml :=
  let keys := split_on (ch ".") key in
  get_loop keys _config default.

(** The loop of [Config.set] over [keys[:-1]], and the assignment under
    [keys[-1]] that follows it.  The mapping under a key that is missing
    is created empty; a value on the path that is no mapping makes the
    membership test, the subscript or the assignment raise [TypeError],
    and this before any mapping is created, so that the configuration is
    then as it was. *)
Fixpoint set_loop (keys : list str) (last_key : str) (value : yaml) (config : yaml)
    : result yaml :=
  match keys with
  | [] =>
      match config with
      | YDict d => ret (YDict (assoc_set last_key value d))
      | _ => raise TypeError
      end
  | k :: keys' =>
      match config with
      | YDict d =>
          let child := match assoc_get k d with
                       | Some c => c
                       | None => YDict []
                       end in
          child' <- set_loop keys' last_key value child ;;
          ret (YDict (assoc_set k child' d))
      | _ => raise TypeError
      end
  end.

(** [Config.set(key, value)]: the configuration after the call. *)
Definition Config_set (_config : yaml) (key : str) (value : yaml) : result yaml :=
  let keys := split_on (ch ".") key in
  set_loop (removelast keys) (last keys []) value _config.

(** ** [api/server.py]: the analysis endpoint *)

(** The classes of [core/exceptions.py] below [HiringSystemError]. *)
Definition is_HiringSystemError (e : exn) : bool :=
  match e with
  | InsufficientDataError _ _ | AnalysisError _ => true
  | _ => false
  end.

(** The [detail] of an [HTTPException]. *)
Inductive http_detail :=
| detail_too_few          (* "At least 3 job descriptions required for analysis" *)
| detail_of (e : exn)     (* str(e) *)
| detail_internal.        (* "Internal server error" *)

Inductive http_result (A : Type) :=
| http_return (a : A)
| HTTPException (status_code : nat) (detail : http_detail).
Arguments http_return {A} a.
Arguments HTTPException {A} status_code detail.

(** The records that the endpoint hands to the logger of the server. *)
Inductive server_event :=
| server_info_analyzed (n : nat)         (* "Analyzed n job descriptions" *)
| server_error_validation                (* "Validation error: ..." *)
| server_error_analysis (e : exn)        (* "Analysis error: ..." *)
| server_error_unexpected (e : exn).     (* "Unexpected error: ..." *)

Section Server.
Context {U : unicode_db} {SO : set_order}.

(** [analyze_job_descriptions], the handler of [POST /api/v1/analyze]:
    what it returns or raises, the log of the analyzer and the records
    of the server.  [NLPAnalyzer] is the call [NLPAnalyzer()] of the
    handler: the constructor reads the configuration, imports spaCy and
    loads its model, none of which is modelled here, so what it leaves
    in [self.nlp], the records it writes and the exception that leaves
    it, if one does, are given.  [min_required] is the minimum that the
    analyzer reads from the configuration, an integer. *)
Definition analyze_job_descriptions
    (NLPAnalyzer : M (option (str -> spacy_doc)))
    (min_required : Z) (job_descriptions : list JobDescription)
    (w : list log_event)
    : http_result AnalysisResult * list log_event * list server_event :=
  if Nat.ltb (length job_descriptions) 3 then
    (HTTPException 400 detail_too_few, w, [server_error_validation])
  else
    match (nlp <~ NLPAnalyzer ;;
           analyze_multiple_descriptions nlp min_required job_descriptions) w with
    | (inr result, w') =>
        (http_return result, w', [server_info_analyzed (length job_descriptions)])
    | (inl e, w') =>
        if is_HiringSystemError e
        then (HTTPException 500 (detail_of e), w', [server_error_analysis e])
        else (HTTPException 500 detail_internal, w', [server_error_unexpected e])
    end.

End Server.

(* ================================================================== *)
(** * Part II: notions for the statements *)
(* ================================================================== *)

(** ** Sample inputs *)

(** A per-document analysis that raises and logs on every call: had the
    gate run it, the log would show it. *)
Definition loud_analysis (d : JobDescription) : M insight :=
  fun w => (inl TypeError, w ++ [debug_analyzed (title d) (company d)]).

Definition short_posting : JobDescription :=
  {| title := txt "PM"; company := txt "Corp"; location := None;
     salary_range := None; description := txt "word word word" |}.

(** Fifty words. *)
Definition fifty_words : str := concat (repeat (txt "word ") 50).

Definition posting_sql : JobDescription :=
  {| title := txt "Product Analyst"; company := txt "Acme";
     location := Some (txt "Berlin"); salary_range := None;
     description := txt
"We are looking for a product analyst who enjoys working with data and people.
Responsibilities:
- Write SQL queries to answer product questions
- Present findings to the wider product team every week
Requirements:
- 3+ years of experience in a similar role
- Strong SQL skills and attention to detail in reporting
You will join a small group that ships often and learns from every release we make together." |}.

Definition posting_agile : JobDescription :=
  {| title := txt "Product Owner"; company := txt "Shopworks";
     location := None; salary_range := None;
     description := txt
"Our team builds tools for small shops and we need a product owner to guide the work.
What you will do:
- Run agile ceremonies with the engineering team each sprint
- Keep the backlog ordered and ready for planning sessions
Nice to have:
- Experience with retail customers or payments
The role is hybrid with two days in the office and the rest from home if you like." |}.

Definition posting_both : JobDescription :=
  {| title := txt "Senior Product Manager"; company := txt "Platformix";
     location := Some (txt "Remote"); salary_range := None;
     description := txt
"Senior product manager wanted for a growing platform company with 200+ employees.
Responsibilities:
- Own the roadmap and work in an agile way with design
- Use SQL to understand how customers use the product
Requirements:
- 6+ years in product management and a bachelor's degree
Compensation is $100k - $120k depending on experience. This is a fully remote position open to all." |}.

Definition sample_batch : list JobDescription :=
  [posting_sql; posting_agile; posting_both].

(** The run of the analyzer on the sample batch, without spaCy, where
    the sets enumerate in the order of insertion. *)
Definition sample_run : result AnalysisResult * list log_event :=
  analyze_multiple_descriptions (U := ascii_db) (SO := insertion_order) None
    default_min_job_descriptions sample_batch [].

Definition empty_result : AnalysisResult :=
  {| total_analyzed := 0; common_skills := []; common_responsibilities := [];
     common_qualifications := []; insights := []; salary_insights := None;
     market_comparison := None |}.

Definition sample_result : AnalysisResult :=
  match fst sample_run with
  | inr r => r
  | inl _ => empty_result
  end.

(** The table of skills of the run on the sample batch, without spaCy,
    for an order of enumeration of the sets. *)
Definition sample_common_skills (SO : set_order) : list (str * nat) :=
  match fst (analyze_multiple_descriptions (U := ascii_db) (SO := SO) None
               default_min_job_descriptions sample_batch []) with
  | inr r => common_skills r
  | inl _ => []
  end.

(** A text without any section heading, with one numbered line. *)
Definition numbered_without_heading : str := txt
"How to apply
1. Send your application through our careers page".

(** The keywords of the two sections that [analyze_job_description]
    extracts with [_extract_sections]. *)
Definition responsibilities_keywords : list str :=
  [txt "responsibilities"; txt "duties"; txt "what you"].

Definition qualifications_keywords : list str :=
  [txt "qualifications"; txt "requirements"; txt "you have"].

(** A nice-to-have section, two lines of plain text, and one more
    bullet. *)
Definition nice_then_prose : str := txt
"Nice to have:
- Experience with retail customers
Thanks for reading this far.
Apply on our site today.
- Send your application by email".

(** ** The taxonomy *)


(** ** The salary summary *)

(** The integer under a key, for the statements below. *)
Definition int_at (key : string) (d : dict) : Z :=
  match dict_get key d with
  | Some (VInt z) => z
  | _ => 0%Z
  end.

(** A fully parsed salary: the four keys, with integers under the first
    three. *)
Definition fully_parsed (d : dict) : Prop :=
  exists (mn mx : Z) (s : str),
    d = [ ("min"%string, VInt mn); ("max"%string, VInt mx);
          ("average"%string, VInt ((mn + mx) / 2)%Z); ("range"%string, VStr s) ].

(** ** Frequency tables *)

(** The number of occurrences of [k] in [l]. *)
Definition count (k : str) (l : list str) : nat := count_occ text_eq_dec l k.

(** The position at which [k] is first met in [l]. *)
Fixpoint first_index (k : str) (l : list str) : nat :=
  match l with
  | [] => 0
  | x :: l' => if text_eqb x k then 0 else S (first_index k l')
  end.

Definition seen_before (l : list str) (k1 k2 : str) : Prop :=
  first_index k1 l < first_index k2 l.

(** [a] ranks before [b]: a larger count, or the same count and met
    earlier in [l]. *)
Definition ranks_before (l : list str) (a b : str * nat) : Prop :=
  snd b < snd a
  \/ (snd a = snd b /\ seen_before l (fst a) (fst b)).

(** What a frequency table of the list [l] capped at [cap] entries is. *)
Definition frequency_table (cap : nat) (l : list str) (t : list (str * nat)) : Prop :=
  length t <= cap
  /\ NoDup (map fst t)
  /\ (forall k n, In (k, n) t -> n = count k l /\ 1 <= n)
  /\ StronglySorted (ranks_before l) t
  /\ (forall k, In k l -> ~ In k (map fst t) ->
        length t = cap /\ Forall (fun a => ranks_before l a (k, count k l)) t).

Definition counts_in (p : list str) (e : str * nat) : Prop := snd e = count (fst e) p.

(** The state of the counter after the elements [p]: one entry for each
    element met, with its number of occurrences, in the order of first
    meeting. *)
Definition counter_inv (p : list str) (c : list (str * nat)) : Prop :=
  NoDup (map fst c)
  /\ Forall (counts_in p) c
  /\ (forall k, In k (map fst c) <-> In k p)
  /\ StronglySorted (seen_before p) (map fst c).

(** ** What a pattern matches *)

(** [iter R lo hi count st st']: further iterations of [R], each of which
    moves on in the text, lead from [st] to [st'], [count] iterations
    having been made before; the total is at least [lo] and stays within
    [hi]. *)
Inductive iter (R : mstate -> mstate -> Prop) (lo : nat) (hi : option nat)
    : nat -> mstate -> mstate -> Prop :=
| iter_stop count st :
    lo <= count -> iter R lo hi count st st
| iter_more count st st1 st2 :
    below count hi = true -> R st st1 -> pos st < pos st1 ->
    iter R lo hi (S count) st1 st2 ->
    iter R lo hi count st st2.

Section SemanticsNotions.
Context {U : unicode_db} {SO : set_order}.

(** The characters a one-character pattern accepts. *)
Definition accepts (ic : bool) (r : regex) : option (char -> bool) :=
  match r with
  | Lit c => Some (lit_match ic c)
  | Class items => Some (fun x => existsb (fun i => item_match i x) items)
  | Digit => Some isdigit
  | Space => Some isspace
  | _ => None
  end.

Inductive matches (ic : bool) : regex -> mstate -> mstate -> Prop :=
| matches_eps st : matches ic Eps st st
| matches_char r p x tl st :
    accepts ic r = Some p -> rest st = x :: tl -> p x = true ->
    matches ic r st (advance x tl st)
| matches_wordb st : at_boundary st = true -> matches ic WordB st st
| matches_bol st : pos st = 0 -> matches ic Bol st st
| matches_cat r1 r2 st st1 st2 :
    matches ic r1 st st1 -> matches ic r2 st1 st2 -> matches ic (Cat r1 r2) st st2
| matches_or_l r1 r2 st st' : matches ic r1 st st' -> matches ic (Or r1 r2) st st'
| matches_or_r r1 r2 st st' : matches ic r2 st st' -> matches ic (Or r1 r2) st st'
| matches_repeat lo hi r st st' :
    iter (matches ic r) lo hi 0 st st' -> matches ic (Repeat lo hi r) st st'
| matches_group n r st st' :
    matches ic r st st' ->
    matches ic (Group n r) st (set_cap n (firstn (pos st' - pos st) (rest st)) st').

End SemanticsNotions.

(** From [st] to [st'] the text [w] was consumed, and [P] holds of it. *)
Definition spans (P : str -> Prop) (st st' : mstate) : Prop :=
  exists w, rest st = w ++ rest st' /\ pos st' = pos st + length w /\ P w.

Section SalaryNotions.
Context {U : unicode_db} {SO : set_order}.

Definition digit_or_comma (c : char) : Prop := isdigit c = true \/ c = ch ",".

(** The shape of a numeric token: a digit, digits and commas, and
    possibly a final k. *)
Definition amount_shape (w : str) : Prop :=
  exists c d k,
    w = (c :: d) ++ k /\ isdigit c = true /\ Forall digit_or_comma d
    /\ (k = [] \/ k = [ch "k"] \/ k = [ch "K"]).

(** *** The claim, read as a program

    Salary parsing as C4 words it.  The numeric tokens of a salary
    string are the amounts written in it: a run of digits, with commas
    between them, and a k or K after it if there is one.  [cur] is the
    token being read, reversed. *)
Fixpoint claimed_tokens_aux (cur : str) (s : str) : list str :=
  match s with
  | [] => match cur with [] => [] | _ => [rev cur] end
  | c :: s' =>
      if isdigit c then claimed_tokens_aux (c :: cur) s'
      else
        match cur with
        | [] => claimed_tokens_aux [] s'
        | _ =>
            if N.eqb c (ch ",") then claimed_tokens_aux (c :: cur) s'
            else if N.eqb c (ch "k") || N.eqb c (ch "K")
            then rev (c :: cur) :: claimed_tokens_aux [] s'
            else rev cur :: claimed_tokens_aux [] s'
        end
  end.

Definition claimed_tokens (salary_range : str) : list str :=
  claimed_tokens_aux [] salary_range.

(** The value of a token: the dollar signs and the commas are dropped,
    and a final k or K multiplies by 1000. *)
Definition claimed_amount (token : str) : option Z :=
  let digits := remove_char (ch "$") (remove_char (ch ",") token) in
  if endswith_char (ch "k") digits || endswith_char (ch "K") digits
  then option_map (fun n => (n * 1000)%Z) (int_of (drop_last digits))
  else int_of digits.

(** Minimum, maximum and the floor of their mean from the first two
    tokens; the string alone when there are fewer than two, or when
    parsing fails. *)
Definition claimed_salary_info (salary_range : str) : dict :=
  let unparsed := [("range"%string, VStr salary_range)] in
  match claimed_tokens salary_range with
  | t0 :: t1 :: _ =>
      match claimed_amount t0, claimed_amount t1 with
      | Some min_sal, Some max_sal =>
          [ ("min"%string, VInt min_sal);
            ("max"%string, VInt max_sal);
            ("average"%string, VInt ((min_sal + max_sal) / 2)%Z);
            ("range"%string, VStr salary_range) ]
      | _, _ => unparsed
      end
  | _ => unparsed
  end.

End SalaryNotions.

(** ** Whole phrases *)

(** The last character of a text. *)
Definition last_char (s : str) : option char :=
  match rev s with
  | x :: _ => Some x
  | [] => None
  end.

(** The state of the matcher between [pre] and [rest]. *)
Definition state_at (pre rest : str) : mstate :=
  {| pos := length pre; prev := last_char pre; rest := rest; caps := [] |}.

Section SkillDetectionNotions.
Context {U : unicode_db} {SO : set_order}.

Definition opt_isword (c : option char) : bool :=
  match c with Some x => isword x | None => false end.

(** A word boundary between two characters, the ends of the text
    counting as non-word characters. *)
Definition word_edge (before after : option char) : bool :=
  xorb (opt_isword before) (opt_isword after).

(** [w] is [skill] up to the case of its letters. *)
Definition same_ignoring_case (skill w : str) : Prop :=
  Forall2 (fun c x => lit_match true c x = true) skill w.

(** [skill] occurs in [text] as a whole phrase: up to case, and with a
    word boundary on either side. *)
Definition whole_phrase (skill text : str) : Prop :=
  exists pre w post,
    text = pre ++ w ++ post
    /\ same_ignoring_case skill w
    /\ word_edge (last_char pre) (hd_error (w ++ post)) = true
    /\ word_edge (last_char (pre ++ w)) (hd_error post) = true.

(** A literal string against the text, character by character. *)
Fixpoint lit_prefix (ic : bool) (s : str) (st : mstate) : option mstate :=
  match s with
  | [] => Some st
  | c :: s' =>
      match rest st with
      | x :: tl => if lit_match ic c x then lit_prefix ic s' (advance x tl st) else None
      | [] => None
      end
  end.

End SkillDetectionNotions.

(** ** Section extraction *)

Section SectionNotions.
Context {U : unicode_db} {SO : set_order}.

(** The line tests of the two extraction loops. *)
Definition is_heading (keywords : list str) (line : str) : bool :=
  existsb (fun keyword => contains keyword (lower line)) keywords.

Definition starts_with_marker (line : str) : bool :=
  is_match (re_match false re_marker_start line).

Definition is_bullet (line : str) : bool := is_match (re_match false re_bullet line).

Definition is_numbered (line : str) : bool := is_match (re_match false re_numbered line).

Definition clean (line : str) : str := re_sub_anchored false re_marker_run line.

(** The characters of [[-•*\d.]]. *)
Definition is_marker (c : char) : bool :=
  existsb (fun i => item_match i c)
    [CChar (ch "-"); CChar BULLET; CChar (ch "*"); CDigit; CChar (ch ".")].

(** [line] is a run of marker characters, then blanks, then [rest]. *)
Definition marker_stripped (line rest : str) : Prop :=
  exists marks blanks,
    line = marks ++ blanks ++ rest
    /\ marks <> [] /\ Forall (fun c => is_marker c = true) marks
    /\ blanks <> [] /\ Forall (fun c => isspace c = true) blanks.

(** *** The claim, read as a program

    The extraction as C6 words it: a heading opens the window; a bulleted
    or numbered line is captured while the window is open; the second of
    two consecutive lines that are neither closes it. *)
Definition claimed_step (min_len : nat) (keywords : list str)
    (st : bool * bool * list str) (line : str) : bool * bool * list str :=
  let '(window, after_plain, items) := st in
  let line := strip line in
  if is_heading keywords line then (true, false, items)
  else if is_bullet line || is_numbered line then
    if window && Nat.ltb min_len (length (clean line))
    then (window, false, items ++ [firstn 200 (clean line)])
    else (window, false, items)
  else ((if after_plain then false else window), true, items).

Definition claimed_extraction (min_len cap : nat) (keywords : list str)
    (text : str) : list str :=
  let '(_, _, items) :=
    fold_left (claimed_step min_len keywords) (split_on LF text) (false, false, []) in
  firstn cap items.

(** *** The state of the loop of [_extract_sections], line by line *)

Section LoopNotions.
Variable lines : list str.
Variable keywords : list str.

Definition line_at (i : nat) : str := strip (nth i lines []).

(** The line [i] closes an open window: it is not a heading, not empty,
    does not start with a marker character, is not the last line, and
    the next line does not start with a marker character either. *)
Definition closing_line (i : nat) : bool :=
  negb (is_heading keywords (line_at i))
  && nonempty (line_at i)
  && negb (starts_with_marker (line_at i))
  && Nat.ltb i (length lines - 1)
  && negb (starts_with_marker (line_at (i + 1))).

(** The window is open at line [i]: a heading came before, and no line
    after that heading, up to [i], closes. *)
Definition window_open (i : nat) : Prop :=
  exists j, j < i /\ is_heading keywords (line_at j) = true
            /\ forall k, j < k -> k <= i -> closing_line k = false.

(** [in_section] after the turn of the loop for line [i], from its value
    [b] before. *)
Definition window_step (b : bool) (i : nat) : bool :=
  if is_heading keywords (line_at i) then true
  else if b && nonempty (line_at i) && negb (starts_with_marker (line_at i))
  then if Nat.ltb i (length lines - 1) && negb (starts_with_marker (line_at (i + 1)))
       then false else b
  else b.

Fixpoint window_after (i : nat) : bool :=
  match i with
  | O => window_step false 0
  | S i' => window_step (window_after i') (S i')
  end.

Definition window_before (n : nat) : bool :=
  match n with
  | O => false
  | S i => window_after i
  end.

(** What the turn for line [i] appends to [items]. *)
Definition captured (i : nat) : list str :=
  if is_heading keywords (line_at i) then []
  else if window_after i && is_bullet (line_at i) || is_numbered (line_at i)
  then if Nat.ltb 20 (length (clean (line_at i)))
       then [firstn 200 (clean (line_at i))] else []
  else [].

End LoopNotions.

(** *** The state of the loop of [_extract_nice_to_have] *)

Section NiceLoopNotions.
Variable lines : list str.

(** [in_nice_section] before the turn for line [n]: a heading came
    before. *)
Definition nice_window (n : nat) : bool :=
  existsb (is_heading nice_keywords) (firstn n lines).

Definition nice_captured (i : nat) : list str :=
  let raw := nth i lines [] in
  if is_heading nice_keywords raw then []
  else if nice_window i && is_bullet raw
  then if Nat.ltb 10 (length (clean (strip raw)))
       then [firstn 200 (clean (strip raw))] else []
  else [].

End NiceLoopNotions.

End SectionNotions.

(** ** What a pattern matches, as a set of texts *)

(** The patterns that look at nothing but the text they consume: no
    [\b], no [^]. *)
Fixpoint context_free (r : regex) : bool :=
  match r with
  | WordB | Bol => false
  | Cat r1 r2 | Or r1 r2 => context_free r1 && context_free r2
  | Repeat _ _ r1 | Group _ r1 => context_free r1
  | _ => true
  end.

Section LanguageNotions.
Context {U : unicode_db} {SO : set_order}.

(** [lang ic r w]: the text [w], as a whole, is a match of [r]. *)
Fixpoint lang (ic : bool) (r : regex) (w : str) : Prop :=
  match r with
  | Eps => w = []
  | WordB | Bol => False
  | Cat r1 r2 => exists u v, w = u ++ v /\ lang ic r1 u /\ lang ic r2 v
  | Or r1 r2 => lang ic r1 w \/ lang ic r2 w
  | Repeat lo hi r1 =>
      exists ws, w = concat ws
                 /\ Forall (fun u => u <> [] /\ lang ic r1 u) ws
                 /\ lo <= length ws
                 /\ match hi with Some h => length ws <= h | None => True end
  | Group _ r1 => lang ic r1 w
  | _ => match accepts ic r with
         | Some p => exists x, w = [x] /\ p x = true
         | None => False
         end
  end.

End LanguageNotions.

(** ** Wordings *)

Section WordingNotions.
Context {U : unicode_db} {SO : set_order}.

Definition blanks (w : str) : Prop := Forall (fun c => isspace c = true) w.

(** The wordings of [fully remote|100%\s*remote|remote[- ]first]. *)
Definition fully_remote_wording (text : str) : Prop :=
  contains (txt "fully remote") text = true
  \/ (exists w, blanks w /\ contains (txt "100%" ++ w ++ txt "remote") text = true)
  \/ contains (txt "remote-first") text = true
  \/ contains (txt "remote first") text = true.

(** The wordings of [on[- ]?site|in[- ]office]. *)
Definition on_site_wording (text : str) : Prop :=
  exists p, In p [txt "onsite"; txt "on-site"; txt "on site";
                  txt "in-office"; txt "in office"]
            /\ contains p text = true.

End WordingNotions.

(** The groups of a pattern. *)
Fixpoint groups (r : regex) : list nat :=
  match r with
  | Cat r1 r2 | Or r1 r2 => groups r1 ++ groups r2
  | Repeat _ _ r1 => groups r1
  | Group n r1 => n :: groups r1
  | _ => []
  end.

Section CompanyNotions.
Context {U : unicode_db} {SO : set_order}.

(** The wordings of [startup|early[- ]stage]. *)
Definition startup_wording (text : str) : Prop :=
  contains (txt "startup") text = true
  \/ contains (txt "early-stage") text = true
  \/ contains (txt "early stage") text = true.

(** The wording of [series [a-d]], with the letter [x]. *)
Definition series_wording (x : char) (text : str) : Prop :=
  between (ch "a") (ch "d") x = true /\ contains (txt "series " ++ [x]) text = true.

(** The wordings of [enterprise|fortune]. *)
Definition enterprise_wording (text : str) : Prop :=
  contains (txt "enterprise") text = true \/ contains (txt "fortune") text = true.

(** The wordings of [(\d+)\+?\s*(?:person|people|employee)], with the
    digits [ds]. *)
Definition size_wording (ds : str) (text : str) : Prop :=
  ds <> [] /\ Forall (fun c => isdigit c = true) ds
  /\ exists plus w noun,
       (plus = [] \/ plus = txt "+") /\ blanks w
       /\ In noun [txt "person"; txt "people"; txt "employee"]
       /\ contains (ds ++ plus ++ w ++ noun) text = true.

End CompanyNotions.

(** ** Numbers in a text *)

Section NumberNotions.
Context {U : unicode_db} {SO : set_order}.

(** The number of decimal digits at the start of [s]. *)
Fixpoint digit_prefix (s : str) : nat :=
  match s with
  | c :: s' => if isdigit c then S (digit_prefix s') else 0
  | [] => 0
  end.

(** The length of the longest run of decimal digits in [s]. *)
Fixpoint longest_digit_run (s : str) : nat :=
  match s with
  | [] => 0
  | _ :: s' => Nat.max (digit_prefix s) (longest_digit_run s')
  end.

(** [ds] is a non-empty run of decimal digits that occurs in [text]. *)
Definition digit_run (ds text : str) : Prop :=
  ds <> [] /\ Forall (fun c => isdigit c = true) ds /\ contains ds text = true.

(** What the two patterns of [_extract_years_experience] ask for after
    the digits of group 1. *)
Definition years_range_wording : regex :=
  Seq [Opt (Lit (ch "+")); Star Space; re_to; Star Space;
       Opt (Group 2 (Plus Digit)); Star Space; re_years].

Definition years_single_wording : regex :=
  Seq [Opt (Lit (ch "+")); Star Space; re_years].

Definition years_pattern (wording : regex) : regex :=
  Cat (Group 1 (Plus Digit)) wording.

(** The first place of [text] where digits come with the [wording]
    after them has the digits [ds]: [text] is [a], then [ds], then a
    text [v] of the wording, then [b], and no digits with the wording
    after them start inside [a]. *)
Definition years_first_found (wording : regex) (text ds : str) : Prop :=
  exists a v b,
    text = a ++ ds ++ v ++ b
    /\ ds <> [] /\ Forall (fun c => isdigit c = true) ds
    /\ lang true wording v
    /\ forall a1 a2 w c,
         a = a1 ++ a2 -> a2 <> [] -> a2 ++ ds ++ v ++ b = w ++ c ->
         ~ lang true (years_pattern wording) w.

(** No place of [text] has digits with the [wording] after them. *)
Definition years_not_found (wording : regex) (text : str) : Prop :=
  forall w, lang true (years_pattern wording) w -> contains w text = false.

(** [years] is what [int] makes of the digits [ds]: their decimal value,
    or [ValueError] when they are more than [int_max_str_digits]. *)
Definition years_read (ds : str) (years : result (option Z)) : Prop :=
  (length ds <= int_max_str_digits ->
     exists n, int_digits 0 ds = Some n /\ years = inr (Some (Z.of_N n)))
  /\ (int_max_str_digits < length ds -> years = inl ValueError).

End NumberNotions.

(** The four literals of [ExperienceLevel] in [core/models.py]. *)
Definition ExperienceLevel : list str :=
  [txt "Entry-Level"; txt "Mid-Level"; txt "Senior"; txt "Lead/Principal"].

(** A posting that asks for years of experience; its location is the
    empty string. *)
Definition posting_years : JobDescription :=
  {| title := txt "Product Manager"; company := txt "Initech";
     location := Some []; salary_range := None;
     description := txt "We ask for 5+ years of experience in product roles." |}.

(** Three short postings, for the per-document analysis that raises. *)
Definition short_batch : list JobDescription :=
  [short_posting; short_posting; short_posting].

(** A salary dictionary as [_extract_salary_info] builds them. *)
Definition salary_120_150 : dict :=
  [ ("min"%string, VInt 120000); ("max"%string, VInt 150000);
    ("average"%string, VInt ((120000 + 150000) / 2)%Z);
    ("range"%string, VStr (txt "$120k - $150k")) ].

Definition salary_95_110 : dict :=
  [ ("min"%string, VInt 95000); ("max"%string, VInt 110000);
    ("average"%string, VInt ((95000 + 110000) / 2)%Z);
    ("range"%string, VStr (txt "$95,000-$110,000")) ].

(** [skill] is filed under [category]: the first category of the
    taxonomy that lists it. *)
Definition in_category (category : string) (skill : str) : bool :=
  match first_category skill with
  | Some c => String.eqb c category
  | None => false
  end.

Section HintNotions.
Context {U : unicode_db} {SO : set_order}.

(** A noun chunk suggests a skill: the skill occurs in the chunk, or the
    chunk in the skill, the chunk lowercased and stripped. *)
Definition chunk_suggests (chunk skill : str) : bool :=
  contains skill (strip (lower chunk)) || contains (strip (lower chunk)) skill.

(** An entity suggests a skill: it is a product, an organisation or a
    skill, and the skill occurs in it, lowercased. *)
Definition entity_suggests (ent : str * str) (skill : str) : bool :=
  existsb (text_eqb (snd ent)) [txt "PRODUCT"; txt "ORG"; txt "SKILL"]
  && contains skill (lower (fst ent)).

End HintNotions.

(** The constructor of the analyzer where spaCy is not installed: it
    warns, and leaves no pipeline. *)
Definition spacy_not_installed : M (option (str -> spacy_doc)) :=
  _ <~ logger warning_spacy_not_installed ;; mret None.

(** A configuration that sets nothing, and the path of the minimum that
    the analyzer reads. *)
Definition empty_config : yaml := YDict [].

Definition min_job_descriptions_key : str := txt "analysis.min_job_descriptions".

(* ================================================================== *)
(** * Part III: properties *)
(* ================================================================== *)

(** Inversion of a match, the case of a one-character pattern set aside
    when the pattern is none. *)
Ltac inv_matches H :=
  inversion H; subst; clear H;
  try match goal with
      | A : accepts _ _ = Some _ |- _ => simpl in A; try discriminate A
      end.

(** ** Texts and lists *)

Lemma text_eqb_eq (a b : str) : text_eqb a b = true <-> a = b.
Proof.
  revert b; induction a as [|x a IH]; intros [|y b]; simpl; split;
    try congruence; try reflexivity.
  - intros H. apply andb_true_iff in H as [Hx Hab].
    apply N.eqb_eq in Hx. apply IH in Hab. congruence.
  - intros H. injection H as -> ->. rewrite N.eqb_refl. simpl. now apply IH.
Qed.

Lemma text_eqb_refl (a : str) : text_eqb a a = true.
Proof. now apply text_eqb_eq. Qed.

Lemma text_eqb_neq (a b : str) : text_eqb a b = false <-> a <> b.
Proof.
  split.
  - intros H ->. rewrite text_eqb_refl in H. discriminate.
  - intros H. destruct (text_eqb a b) eqn:E; [|reflexivity].
    apply text_eqb_eq in E. contradiction.
Qed.

Lemma existsb_text_eqb (x : str) (l : list str) :
  existsb (text_eqb x) l = true <-> In x l.
Proof.
  rewrite existsb_exists. split.
  - intros (y & Hy & E). apply text_eqb_eq in E. now subst.
  - intros H. exists x. split; [assumption | apply text_eqb_refl].
Qed.

Section WordCount.
Context {U : unicode_db} {SO : set_order}.

(** A text has at most as many words as characters. *)
Lemma split_ws_aux_length (s cur : str) :
  length (split_ws_aux cur s) <= length s + match cur with [] => 0 | _ => 1 end.
Proof.
  revert cur; induction s as [|c s IH]; intros cur; simpl.
  - destruct cur; simpl; lia.
  - destruct (isspace c).
    + destruct cur; simpl.
      * specialize (IH []). simpl in IH. lia.
      * specialize (IH []). simpl in IH. lia.
    + specialize (IH (c :: cur)). simpl in IH. destruct cur; lia.
Qed.

Lemma split_ws_length (s : str) : length (split_ws s) <= length s.
Proof. unfold split_ws. pose proof (split_ws_aux_length s []). simpl in *. lia. Qed.

End WordCount.

(** ** The batch gate (C1) *)

Section Gate.
Context {U : unicode_db} {SO : set_order}.
Variable nlp : option (str -> spacy_doc).

(** C1. A batch shorter than the configured minimum makes
    [analyze_multiple_descriptions] raise [InsufficientDataError] and
    leaves the log as it was, whatever the per-document analysis is and
    whatever it would write: the per-document analysis is not run. *)
Theorem C1_insufficient_data_before_any_work :
  forall (analyze : JobDescription -> M insight) (min_required : Z)
         (descriptions : list JobDescription) (w : list log_event),
    (Z.of_nat (length descriptions) < min_required)%Z ->
    analyze_multiple_descriptions_with analyze min_required descriptions w
      = (inl (InsufficientDataError min_required (length descriptions)), w)
    /\ analyze_multiple_descriptions nlp min_required descriptions w
      = (inl (InsufficientDataError min_required (length descriptions)), w).
Proof.
  intros analyze min_required descriptions w Hlt.
  assert (gate : forall f, analyze_multiple_descriptions_with f min_required descriptions w
            = (inl (InsufficientDataError min_required (length descriptions)), w)).
  { intros f. unfold analyze_multiple_descriptions_with.
    apply Z.ltb_lt in Hlt. rewrite Hlt. reflexivity. }
  split; [apply gate | apply gate].
Qed.

End Gate.

Lemma C1_witness :
  analyze_multiple_descriptions_with loud_analysis default_min_job_descriptions
      [short_posting; short_posting] []
    = (inl (InsufficientDataError 3 2), [])
  /\ analyze_multiple_descriptions (U := ascii_db) (SO := insertion_order) None default_min_job_descriptions
      [short_posting; short_posting] []
    = (inl (InsufficientDataError 3 2), []).
Proof.
  apply (@C1_insufficient_data_before_any_work ascii_db insertion_order None loud_analysis
           default_min_job_descriptions [short_posting; short_posting] []).
  vm_compute. reflexivity.
Defined.

(** ** Construction of a [JobDescription] (C2) *)

Section Construction.
Context {U : unicode_db} {SO : set_order}.

Lemma check_length_ok (field : string) (lo : nat) (hi : option nat) (v : str) :
  check_length field lo hi v = [] <->
  lo <= length v /\ match hi with Some h => length v <= h | None => True end.
Proof.
  unfold check_length.
  destruct (Nat.ltb (length v) lo) eqn:Elo.
  - apply Nat.ltb_lt in Elo. split; [discriminate | lia].
  - apply Nat.ltb_ge in Elo. destruct hi as [h|].
    + destruct (Nat.ltb h (length v)) eqn:Ehi.
      * apply Nat.ltb_lt in Ehi. split; [discriminate | lia].
      * apply Nat.ltb_ge in Ehi. split; [intros _; lia | reflexivity].
    + split; [intros _; lia | reflexivity].
Qed.

Lemma check_description_ok (v : str) :
  check_description v = [] <-> 50 <= length (split_ws v).
Proof.
  unfold check_description, validate_description.
  destruct (check_length "description" 10 None v) eqn:Elen.
  - destruct (Nat.ltb (length (split_ws v)) 50) eqn:Ew.
    + apply Nat.ltb_lt in Ew. split; [discriminate | lia].
    + apply Nat.ltb_ge in Ew. split; [intros _; assumption | reflexivity].
  - split; [discriminate|]. intros Hw.
    assert (Hok : check_length "description" 10 None v = []).
    { apply check_length_ok. pose proof (split_ws_length v). split; [lia | exact I]. }
    congruence.
Qed.

Lemma new_JobDescription_inr (title company : str)
    (location salary_range : option str) (description : str) (jd : JobDescription) :
  new_JobDescription title company location salary_range description = inr jd <->
  (check_length "title" 1 (Some 200) title = []
   /\ check_length "company" 1 (Some 200) company = []
   /\ check_description description = [])
  /\ jd = Build_JobDescription title company location salary_range description.
Proof.
  unfold new_JobDescription.
  destruct (check_length "title" 1 (Some 200) title) as [|et lt];
    destruct (check_length "company" 1 (Some 200) company) as [|ec lc];
    destruct (check_description description) as [|ed ld]; simpl;
    split; try discriminate;
    try (intros [(H1 & H2 & H3) _]; discriminate).
  - intros H. injection H as <-. repeat split.
  - intros [_ ->]. reflexivity.
Qed.

(** C2, as amended.  Construction succeeds exactly when the title and the
    company have between 1 and 200 characters and the description has at
    least 50 words; the model then holds the fields as they were given.
    A description of fewer than 50 words always fails. *)
Theorem C2_construction_succeeds_iff :
  forall (title company : str) (location salary_range : option str)
         (description : str),
    ((exists jd, new_JobDescription title company location salary_range description
                 = inr jd)
     <-> (1 <= length title <= 200 /\ 1 <= length company <= 200
          /\ 50 <= length (split_ws description)))
    /\ (forall jd,
          new_JobDescription title company location salary_range description = inr jd ->
          jd = Build_JobDescription title company location salary_range description)
    /\ (length (split_ws description) < 50 ->
        exists errs,
          new_JobDescription title company location salary_range description
          = inl errs).
Proof.
  intros t c l s d.
  pose proof (check_length_ok "title" 1 (Some 200) t) as Ht.
  pose proof (check_length_ok "company" 1 (Some 200) c) as Hc.
  pose proof (check_description_ok d) as Hd.
  split; [|split].
  - split.
    + intros [jd Hjd]. apply new_JobDescription_inr in Hjd as [(H1 & H2 & H3) _].
      apply Ht in H1. apply Hc in H2. apply Hd in H3. tauto.
    + intros (H1 & H2 & H3). eexists. apply new_JobDescription_inr.
      split; [|reflexivity].
      repeat split; [apply Ht | apply Hc | apply Hd]; tauto.
  - intros jd Hjd. now apply new_JobDescription_inr in Hjd.
  - intros Hlt.
    destruct (new_JobDescription t c l s d) as [errs|jd] eqn:E.
    + now exists errs.
    + apply new_JobDescription_inr in E as [(_ & _ & H3) _].
      apply Hd in H3. lia.
Qed.

End Construction.

(** C2, as stated, fails: fifty words of description do not make up for an
    empty title. *)
Lemma C2_counterexample :
  50 <= length (split_ws (U := ascii_db) fifty_words)
  /\ new_JobDescription (U := ascii_db) [] (txt "Corp") None None fifty_words
     = inl [string_too_short "title"].
Proof. vm_compute. split; [repeat constructor | reflexivity]. Qed.

Lemma C2_witness :
  exists jd,
    new_JobDescription (U := ascii_db) (txt "PM") (txt "Corp") None None fifty_words
    = inr jd.
Proof.
  apply (proj1 (@C2_construction_succeeds_iff ascii_db (txt "PM") (txt "Corp")
                  None None fifty_words)).
  vm_compute. repeat split; repeat constructor.
Defined.

(** ** Experience level (C3) *)

Section ExperienceLevel.
Context {U : unicode_db} {SO : set_order}.

(** The cascade of [_extract_experience_level], read off the code: the
    three title tests in order, then the thresholds on a number of years
    that is present and not zero. *)
Lemma experience_level_cascade (text : str) :
  _extract_experience_level text =
    if is_match (re_search false re_lead (lower text)) then inr (txt "Lead/Principal")
    else if is_match (re_search false re_senior (lower text)) then inr (txt "Senior")
    else if is_match (re_search false re_entry (lower text)) then inr (txt "Entry-Level")
    else match _extract_years_experience text with
         | inl e => inl e
         | inr None => inr (txt "Mid-Level")
         | inr (Some years) =>
             if Z.eqb years 0 then inr (txt "Mid-Level")
             else if Z.leb 10 years then inr (txt "Lead/Principal")
             else if Z.leb 6 years then inr (txt "Senior")
             else if Z.leb 3 years then inr (txt "Mid-Level")
             else inr (txt "Entry-Level")
         end.
Proof.
  unfold _extract_experience_level.
  destruct (is_match (re_search false re_lead (lower text))); [reflexivity|].
  destruct (is_match (re_search false re_senior (lower text))); [reflexivity|].
  destruct (is_match (re_search false re_entry (lower text))); [reflexivity|].
  destruct (_extract_years_experience text) as [e|[years|]]; simpl; try reflexivity.
  destruct (Z.eqb years 0); reflexivity.
Qed.

(** The example of the specification: an explicit title term wins over
    the years. *)
Lemma senior_with_ten_years :
  _extract_experience_level (txt "Senior Product Manager, 10+ years experience")
  = inr (txt "Senior").
Proof. vm_compute. reflexivity. Qed.

(** C3. On a posting that asks for "0-2 years" the years are found and
    are 0, below every threshold, yet the level is Mid-Level and not
    Entry-Level: the test [if years:] takes the number 0 for a missing
    number. *)
Theorem C3_zero_years_taken_for_missing :
  _extract_years_experience (txt "Product Manager, 0-2 years of experience")
    = inr (Some 0%Z)
  /\ _extract_experience_level (txt "Product Manager, 0-2 years of experience")
    = inr (txt "Mid-Level")
  /\ _extract_experience_level (txt "Product Manager, 1-2 years of experience")
    = inr (txt "Entry-Level").
Proof. vm_compute. repeat split. Qed.

End ExperienceLevel.

(** ** The taxonomy and the grouping of skills (C9) *)




Lemma skill_patterns_keys_NoDup : NoDup (map fst skill_patterns).
Proof.
  unfold skill_patterns, _build_skill_patterns. simpl.
  repeat (constructor; [simpl; intuition discriminate|]). constructor.
Qed.








(** ** A batch that is analysed *)

Section Batch.
Context {U : unicode_db} {SO : set_order}.

(** What a successful call of [analyze_multiple_descriptions] has done:
    the batch passed the gate, every posting was analysed in order, and
    the fields of the result are the aggregates of the insights. *)
Lemma analyze_multiple_descriptions_with_success
    (analyze : JobDescription -> M insight) (min_required : Z)
    (descriptions : list JobDescription) (w w' : list log_event)
    (r : AnalysisResult) :
  analyze_multiple_descriptions_with analyze min_required descriptions w = (inr r, w') ->
  (min_required <= Z.of_nat (length descriptions))%Z
  /\ (exists w1,
        for_each analyze descriptions (w ++ [info_analyzing (length descriptions)])
        = (inr (insights r), w1))
  /\ total_analyzed r = length descriptions
  /\ common_skills r = most_common 50 (Counter (flat_map skills (insights r)))
  /\ common_responsibilities r
     = most_common 30 (Counter (flat_map responsibilities (insights r)))
  /\ common_qualifications r
     = most_common 30 (Counter (flat_map qualifications (insights r)))
  /\ match salary_insights r with
     | None => filter has_min (insights r) = []
     | Some d =>
         filter has_min (insights r) <> []
         /\ _aggregate_salary_data (map ins_salary_range (filter has_min (insights r)))
            = inr d
     end
  /\ exists mc, market_comparison r = Some mc
                /\ _generate_market_comparison (insights r) = inr mc.
Proof.
  unfold analyze_multiple_descriptions_with.
  destruct (Z.ltb (Z.of_nat (length descriptions)) min_required) eqn:Egate;
    [discriminate|].
  apply Z.ltb_ge in Egate.
  unfold mbind, logger, try_except, lift, mret, mraise.
  destruct (for_each analyze descriptions (w ++ [info_analyzing (length descriptions)]))
    as [[e|all_insights] w1] eqn:Efor; [discriminate|].
  destruct (filter has_min all_insights) as [|i0 is0] eqn:Efilter; simpl.
  - destruct (_generate_market_comparison all_insights) as [e|mc] eqn:Emc;
      [discriminate|].
    intros H. injection H as <- <-. simpl.
    rewrite Efilter.
    repeat split; try assumption; try reflexivity; eauto.
  - destruct (_aggregate_salary_data (ins_salary_range i0 :: map ins_salary_range is0))
      as [e|d] eqn:Eagg; simpl; [discriminate|].
    destruct (_generate_market_comparison all_insights) as [e|mc] eqn:Emc;
      [discriminate|].
    intros H. injection H as <- <-. simpl.
    rewrite Efilter. simpl.
    repeat split; try assumption; try reflexivity; eauto; discriminate.
Qed.

(** The insights of a batch analysed by [analyze_job_description] are the
    insights of its postings, one for one. *)
Lemma for_each_analyze_job_description (nlp : option (str -> spacy_doc))
    (descriptions : list JobDescription) (w w1 : list log_event)
    (all_insights : list insight) :
  for_each (analyze_job_description nlp) descriptions w = (inr all_insights, w1) ->
  Forall2 (fun d i => job_insights nlp d = inr i) descriptions all_insights.
Proof.
  revert w w1 all_insights.
  induction descriptions as [|d ds IH]; intros w w1 all_insights; simpl.
  - unfold mret. intros H. injection H as <- _. constructor.
  - unfold mbind at 1. unfold analyze_job_description at 1.
    unfold try_except, mbind, lift, logger, mret, mraise.
    destruct (job_insights nlp d) as [e|i] eqn:Ei; [discriminate|].
    destruct (for_each (analyze_job_description nlp) ds
                (w ++ [debug_analyzed (title d) (company d)]))
      as [[e|is'] w2] eqn:Erest; [discriminate|].
    intros H. injection H as <- _.
    constructor; [assumption | eapply IH; eassumption].
Qed.

End Batch.

(** ** A sample batch *)

Lemma sample_run_succeeds : sample_run = (inr sample_result, snd sample_run).
Proof. vm_compute. reflexivity. Qed.

(** ** The market comparison (C10) *)

Lemma find_common_patterns_keys (all_insights : list insight) (cr : dict) :
  _find_common_patterns all_insights = inr cr ->
  all_insights <> []
  /\ dict_get "top_skills" cr
     = Some (VStrs (map fst (most_common 10 (Counter (flat_map skills all_insights)))))
  /\ dict_get "education_requirement_frequency" cr
     = Some (VQuot
               (Z.of_nat (length (filter (fun i => nonempty (required_education i))
                                         all_insights)))
               (Z.of_nat (length all_insights))).
Proof.
  unfold _find_common_patterns.
  destruct all_insights as [|i0 is0]; [discriminate|].
  set (all := i0 :: is0).
  destruct (nonempty (flat_map _ all)); intros H; injection H as <-;
    (split; [discriminate | split; reflexivity]).
Qed.

Section MarketComparison.
Context {U : unicode_db} {SO : set_order}.
Variable nlp : option (str -> spacy_doc).

(** C10. Whenever [analyze_multiple_descriptions] returns a result, its
    market comparison is present and holds the histogram of the experience
    levels, the histogram of the remote policies and the common
    requirements, in which the top skills and the frequency of an
    education requirement (over a batch that is not empty) are present;
    nothing of this depends on the salary summary or on skills having
    been found. *)
Theorem C10_market_comparison_always_present :
  forall (min_required : Z) (descriptions : list JobDescription)
         (w w' : list log_event) (r : AnalysisResult),
    analyze_multiple_descriptions nlp min_required descriptions w = (inr r, w') ->
    exists mc cr,
      market_comparison r = Some mc
      /\ dict_get "experience_levels" mc
         = Some (VCounter (Counter (map experience_level (insights r))))
      /\ dict_get "remote_policies" mc
         = Some (VCounter (Counter (map remote_policy (insights r))))
      /\ dict_get "common_requirements" mc = Some (VDict cr)
      /\ dict_get "top_skills" cr
         = Some (VStrs (map fst (most_common 10
                                   (Counter (flat_map skills (insights r))))))
      /\ dict_get "education_requirement_frequency" cr
         = Some (VQuot
                   (Z.of_nat (length (filter (fun i => nonempty (required_education i))
                                             (insights r))))
                   (Z.of_nat (length (insights r))))
      /\ insights r <> [].
Proof.
  intros min_required descriptions w w' r Hrun.
  apply analyze_multiple_descriptions_with_success in Hrun
    as (_ & _ & _ & _ & _ & _ & _ & (mc & Hmc & Hgen)).
  unfold _generate_market_comparison in Hgen.
  destruct (_find_common_patterns (insights r)) as [e|cr] eqn:Ecr; [discriminate|].
  simpl in Hgen. injection Hgen as <-.
  apply find_common_patterns_keys in Ecr as (Hne & Htop & Hedu).
  eexists. exists cr. split; [exact Hmc|].
  repeat split; try assumption; reflexivity.
Qed.

End MarketComparison.

Lemma C10_witness :
  exists mc cr,
    market_comparison sample_result = Some mc
    /\ dict_get "experience_levels" mc
       = Some (VCounter (Counter (map experience_level (insights sample_result))))
    /\ dict_get "remote_policies" mc
       = Some (VCounter (Counter (map remote_policy (insights sample_result))))
    /\ dict_get "common_requirements" mc = Some (VDict cr)
    /\ dict_get "top_skills" cr
       = Some (VStrs (map fst (most_common 10
                                 (Counter (flat_map skills (insights sample_result))))))
    /\ dict_get "education_requirement_frequency" cr
       = Some (VQuot
                 (Z.of_nat (length (filter (fun i => nonempty (required_education i))
                                           (insights sample_result))))
                 (Z.of_nat (length (insights sample_result))))
    /\ insights sample_result <> [].
Proof.
  apply (@C10_market_comparison_always_present ascii_db insertion_order None
           default_min_job_descriptions sample_batch [] (snd sample_run) sample_result).
  vm_compute. reflexivity.
Defined.

(** ** The salary summary (C8) *)

Lemma ints_of_VInt (l : list Z) : ints_of (map VInt l) = inr l.
Proof.
  induction l as [|z l IH]; simpl; [reflexivity|]. rewrite IH. reflexivity.
Qed.

Lemma values_at_fully_parsed (key : string) (ds : list dict) :
  (key = "min"%string \/ key = "max"%string) ->
  Forall fully_parsed ds ->
  values_at key ds = map VInt (map (int_at key) ds).
Proof.
  intros Hkey H. induction H as [|d ds (mn & mx & s & ->) _ IH]; [reflexivity|].
  unfold values_at in *. simpl flat_map. rewrite IH.
  destruct Hkey as [-> | ->]; reflexivity.
Qed.

(** On fully parsed salaries [_aggregate_salary_data] does not raise and
    returns the five statistics. *)
Lemma aggregate_fully_parsed (ds : list dict) :
  Forall fully_parsed ds -> ds <> [] ->
  exists m0 ms x0 xs,
    map (int_at "min") ds = m0 :: ms
    /\ map (int_at "max") ds = x0 :: xs
    /\ _aggregate_salary_data ds
       = inr [ ("market_min"%string, VInt (fold_left Z.min ms m0));
               ("market_max"%string, VInt (fold_left Z.max xs x0));
               ("average_min"%string,
                VInt (fold_left Z.add (m0 :: ms) 0 / Z.of_nat (length ds))%Z);
               ("average_max"%string,
                VInt (fold_left Z.add (x0 :: xs) 0 / Z.of_nat (length ds))%Z);
               ("sample_size"%string, VInt (Z.of_nat (length ds))) ].
Proof.
  intros Hall Hne.
  destruct ds as [|d ds]; [contradiction|].
  exists (int_at "min" d), (map (int_at "min") ds),
         (int_at "max" d), (map (int_at "max") ds).
  split; [reflexivity|]. split; [reflexivity|].
  unfold _aggregate_salary_data.
  rewrite (values_at_fully_parsed "min" (d :: ds)) by (auto).
  rewrite (values_at_fully_parsed "max" (d :: ds)) by (auto).
  unfold py_min, py_max, py_sum. rewrite !ints_of_VInt.
  simpl nonempty. cbv beta iota. simpl negb. cbv iota.
  unfold bind, ret. simpl map. cbv beta iota.
  cbn [length]. rewrite !length_map. reflexivity.
Qed.

Section SalarySummary.
Context {U : unicode_db} {SO : set_order}.
Variable nlp : option (str -> spacy_doc).

(** The three shapes of the dictionary [_extract_salary_info] returns. *)
Lemma extract_salary_info_shape (salary_range : option str) (text : str) :
  let d := _extract_salary_info salary_range text in
  d = [] \/ (exists s, d = [("range"%string, VStr s)]) \/ fully_parsed d.
Proof.
  unfold _extract_salary_info.
  assert (parsed : forall c s,
    let d := match re_findall false re_salary_token (c :: s) with
             | a0 :: a1 :: _ =>
                 match _parse_salary a0, _parse_salary a1 with
                 | inr min_sal, inr max_sal =>
                     [ ("min"%string, VInt min_sal);
                       ("max"%string, VInt max_sal);
                       ("average"%string, VInt ((min_sal + max_sal) / 2)%Z);
                       ("range"%string, VStr (c :: s)) ]
                 | _, _ => [("range"%string, VStr (c :: s))]
                 end
             | _ => [("range"%string, VStr (c :: s))]
             end in
    d = [] \/ (exists s0, d = [("range"%string, VStr s0)]) \/ fully_parsed d).
  { intros c s.
    destruct (re_findall false re_salary_token (c :: s)) as [|a0 [|a1 amounts]];
      simpl; eauto.
    destruct (_parse_salary a0) as [e|mn]; simpl; eauto.
    destruct (_parse_salary a1) as [e|mx]; simpl; eauto.
    right. right. exists mn, mx, (c :: s). reflexivity. }
  destruct salary_range as [[|c s]|]; cbv zeta.
  - destruct (re_search false re_salary_in_text text) as [mo|]; [apply parsed | auto].
  - apply parsed.
  - destruct (re_search false re_salary_in_text text) as [mo|]; [apply parsed | auto].
Qed.

Lemma has_min_fully_parsed (d : JobDescription) (i : insight) :
  job_insights nlp d = inr i -> has_min i = true -> fully_parsed (ins_salary_range i).
Proof.
  unfold job_insights.
  destruct (_extract_experience_level (description d)) as [e|lvl]; [discriminate|].
  simpl bind.
  destruct (_extract_years_experience (description d)) as [e|yrs]; [discriminate|].
  simpl. intros H. injection H as <-. unfold has_min. simpl.
  destruct (extract_salary_info_shape (salary_range d) (description d))
    as [E|[(s & E)|P]]; simpl in *.
  - rewrite E. discriminate.
  - rewrite E. discriminate.
  - intros _. exact P.
Qed.

(** C8. In a batch that is analysed, the insights that count for the
    salary summary all carry a parsed minimum and maximum.  If no insight
    of the batch carries both, the summary is absent.  A summary that is
    present is never empty: it holds the five statistics of the insights
    that count, of which there is at least one. *)
Theorem C8_salary_summary_only_over_parsed_salaries :
  forall (min_required : Z) (descriptions : list JobDescription)
         (w w' : list log_event) (r : AnalysisResult),
    analyze_multiple_descriptions nlp min_required descriptions w = (inr r, w') ->
    let counted := map ins_salary_range (filter has_min (insights r)) in
    Forall (fun d => dict_mem "min" d = true /\ dict_mem "max" d = true) counted
    /\ ((forall i, In i (insights r) ->
           ~ (dict_mem "min" (ins_salary_range i) = true
              /\ dict_mem "max" (ins_salary_range i) = true)) ->
        salary_insights r = None)
    /\ (forall d, salary_insights r = Some d ->
          d <> []
          /\ (1 <= length counted)
          /\ exists m0 ms x0 xs,
               map (int_at "min") counted = m0 :: ms
               /\ map (int_at "max") counted = x0 :: xs
               /\ d = [ ("market_min"%string, VInt (fold_left Z.min ms m0));
                        ("market_max"%string, VInt (fold_left Z.max xs x0));
                        ("average_min"%string,
                         VInt (fold_left Z.add (m0 :: ms) 0
                               / Z.of_nat (length counted))%Z);
                        ("average_max"%string,
                         VInt (fold_left Z.add (x0 :: xs) 0
                               / Z.of_nat (length counted))%Z);
                        ("sample_size"%string, VInt (Z.of_nat (length counted))) ]).
Proof.
  intros min_required descriptions w w' r Hrun counted.
  apply analyze_multiple_descriptions_with_success in Hrun
    as (_ & (w1 & Hfor) & _ & _ & _ & _ & Hsal & _).
  apply for_each_analyze_job_description in Hfor.
  assert (Hparsed : Forall fully_parsed counted).
  { unfold counted. apply Forall_forall. intros d Hd.
    apply in_map_iff in Hd as (i & <- & Hi).
    apply filter_In in Hi as [Hi Hmin].
    clear - Hfor Hi Hmin.
    induction Hfor as [|jd i' ds is' Hjd _ IH]; [contradiction|].
    destruct Hi as [->|Hi]; [|now apply IH].
    eapply has_min_fully_parsed; eassumption. }
  split; [|split].
  - eapply Forall_impl; [|exact Hparsed].
    intros d (mn & mx & s & ->). split; reflexivity.
  - intros Hnone. destruct (salary_insights r) as [d|]; [|reflexivity].
    destruct Hsal as [Hne _]. exfalso.
    destruct (filter has_min (insights r)) as [|i0 is0] eqn:Ef; [now apply Hne|].
    assert (Hin : In i0 (filter has_min (insights r))) by (rewrite Ef; now left).
    apply filter_In in Hin as [Hin _].
    apply (Hnone i0 Hin).
    inversion Hparsed as [|? ? (mn & mx & s & E) _]; subst.
    rewrite E. split; reflexivity.
  - intros d Hd. rewrite Hd in Hsal. destruct Hsal as [Hne Hagg].
    assert (Hne' : counted <> []).
    { unfold counted. destruct (filter has_min (insights r)); [now elim Hne|discriminate]. }
    destruct (aggregate_fully_parsed counted Hparsed Hne')
      as (m0 & ms & x0 & xs & Hm & Hx & E).
    fold counted in Hagg. rewrite E in Hagg. injection Hagg as <-.
    split; [discriminate|]. split.
    + destruct counted; [now elim Hne' | simpl; lia].
    + exists m0, ms, x0, xs. repeat split; assumption.
Qed.

End SalarySummary.

Lemma C8_witness :
  salary_insights sample_result <> Some []
  /\ exists d, salary_insights sample_result = Some d
               /\ dict_get "sample_size" d = Some (VInt 1).
Proof.
  pose proof (@C8_salary_summary_only_over_parsed_salaries ascii_db insertion_order None
                default_min_job_descriptions sample_batch [] (snd sample_run)
                sample_result sample_run_succeeds) as (_ & _ & H).
  split.
  - intros E. destruct (H [] E) as [Hne _]. now apply Hne.
  - eexists. split; vm_compute; reflexivity.
Defined.

(** ** Frequency tables (C7) *)

Lemma first_index_In (k : str) (l : list str) : In k l -> first_index k l < length l.
Proof.
  induction l as [|x l IH]; simpl; [contradiction|].
  intros H. destruct (text_eqb x k) eqn:E; [lia|].
  apply text_eqb_neq in E. destruct H as [H|H]; [contradiction|].
  apply IH in H. lia.
Qed.

Lemma first_index_app_In (k : str) (p q : list str) :
  In k p -> first_index k (p ++ q) = first_index k p.
Proof.
  induction p as [|x p IH]; simpl; [contradiction|].
  intros H. destruct (text_eqb x k) eqn:E; [reflexivity|].
  apply text_eqb_neq in E. destruct H as [H|H]; [contradiction|].
  now rewrite IH.
Qed.

Lemma first_index_app_new (k : str) (p : list str) :
  ~ In k p -> first_index k (p ++ [k]) = length p.
Proof.
  induction p as [|x p IH]; simpl.
  - intros _. now rewrite text_eqb_refl.
  - intros H. destruct (text_eqb x k) eqn:E.
    + apply text_eqb_eq in E. subst. elim H. now left.
    + rewrite IH; [reflexivity|]. intros Hin. apply H. now right.
Qed.

Lemma count_snoc (k x : str) (p : list str) :
  count k (p ++ [x]) = count k p + (if text_eq_dec x k then 1 else 0).
Proof.
  unfold count. rewrite count_occ_app. simpl.
  destruct (text_eq_dec x k); reflexivity.
Qed.

Lemma count_pos (k : str) (l : list str) : In k l <-> 1 <= count k l.
Proof. unfold count. apply count_occ_In. Qed.

Lemma count_zero (k : str) (l : list str) : ~ In k l -> count k l = 0.
Proof. unfold count. apply count_occ_not_In. Qed.

(** *** [Counter] *)

Lemma counter_incr_new (x : str) (c : list (str * nat)) :
  ~ In x (map fst c) -> counter_incr x c = c ++ [(x, 1)].
Proof.
  induction c as [|[k n] c IH]; simpl; [reflexivity|].
  intros H. destruct (text_eqb k x) eqn:E.
  - apply text_eqb_eq in E. elim H. now left.
  - rewrite IH; [reflexivity|]. intros Hin. apply H. now right.
Qed.

Lemma counter_incr_keys (x : str) (c : list (str * nat)) :
  In x (map fst c) -> map fst (counter_incr x c) = map fst c.
Proof.
  induction c as [|[k n] c IH]; simpl; [contradiction|].
  intros H. destruct (text_eqb k x) eqn:E; simpl; [reflexivity|].
  apply text_eqb_neq in E. destruct H as [H|H]; [contradiction|].
  now rewrite IH.
Qed.

Lemma counts_in_other (p : list str) (x : str) (e : str * nat) :
  fst e <> x -> counts_in p e -> counts_in (p ++ [x]) e.
Proof.
  unfold counts_in. intros Hne ->. rewrite count_snoc.
  destruct (text_eq_dec x (fst e)); [congruence | lia].
Qed.

Lemma counter_incr_counts_present (p : list str) (x : str) (c : list (str * nat)) :
  In x (map fst c) -> NoDup (map fst c) -> Forall (counts_in p) c ->
  Forall (counts_in (p ++ [x])) (counter_incr x c).
Proof.
  induction c as [|[k n] c IH]; simpl; [contradiction|].
  intros Hin Hnd Hall.
  inversion Hnd as [|? ? Hnot Hnd']; subst.
  inversion Hall as [|? ? Hk Hall']; subst.
  destruct (text_eqb k x) eqn:E.
  - apply text_eqb_eq in E. subst k. constructor.
    + unfold counts_in in *. simpl in *. rewrite count_snoc.
      destruct (text_eq_dec x x); [lia | congruence].
    + apply Forall_forall. intros e He.
      apply counts_in_other.
      * intros Heq. apply Hnot. rewrite <- Heq. now apply in_map.
      * rewrite Forall_forall in Hall'. now apply Hall'.
  - apply text_eqb_neq in E. destruct Hin as [Hin|Hin]; [contradiction|].
    constructor.
    + now apply counts_in_other.
    + now apply IH.
Qed.

Lemma StronglySorted_weaken {A} (R R' : A -> A -> Prop) (l : list A) :
  (forall a b, In a l -> In b l -> R a b -> R' a b) ->
  StronglySorted R l -> StronglySorted R' l.
Proof.
  intros Himp H. induction H as [|a l Hs IH Hall]; constructor.
  - apply IH. intros x y Hx Hy. apply Himp; now right.
  - rewrite Forall_forall in *. intros b Hb.
    apply Himp; [now left | now right | now apply Hall].
Qed.

Lemma StronglySorted_snoc {A} (R : A -> A -> Prop) (l : list A) (e : A) :
  StronglySorted R l -> Forall (fun a => R a e) l -> StronglySorted R (l ++ [e]).
Proof.
  intros H. induction H as [|a l Hs IH Hall]; simpl; intros He.
  - constructor; constructor.
  - inversion He as [|? ? Hae He']; subst. constructor.
    + now apply IH.
    + apply Forall_app. split; [assumption | now constructor].
Qed.

Lemma counter_inv_step (p : list str) (x : str) (c : list (str * nat)) :
  counter_inv p c -> counter_inv (p ++ [x]) (counter_incr x c).
Proof.
  intros (Hnd & Hcnt & Hkeys & Hsorted).
  assert (Hstable : forall a b, In a (map fst c) -> In b (map fst c) ->
                      seen_before p a b -> seen_before (p ++ [x]) a b).
  { intros a b Ha Hb. unfold seen_before.
    rewrite !first_index_app_In by (now apply Hkeys). trivial. }
  destruct (in_dec text_eq_dec x (map fst c)) as [Hin|Hnew].
  - (* a key that is there: its count goes up *)
    pose proof (counter_incr_keys x c Hin) as Ekeys.
    split; [|split; [|split]].
    + now rewrite Ekeys.
    + now apply counter_incr_counts_present.
    + intros k. rewrite Ekeys, Hkeys, in_app_iff. simpl.
      split; [tauto|]. intros [H|[<-|[]]]; [assumption | now apply Hkeys].
    + rewrite Ekeys. eapply StronglySorted_weaken; [|exact Hsorted]. exact Hstable.
  - (* a new key: it goes to the end with count 1 *)
    assert (Hnotin : ~ In x p) by (intros H; apply Hnew; now apply Hkeys).
    rewrite (counter_incr_new x c Hnew).
    split; [|split; [|split]].
    + rewrite map_app. simpl.
      apply NoDup_app_remove_l with (l := []). simpl.
      apply (@Permutation_NoDup _ (x :: map fst c)).
      * apply Permutation_cons_append.
      * now constructor.
    + apply Forall_app. split.
      * apply Forall_forall. intros e He. apply counts_in_other.
        -- intros Heq. apply Hnew. rewrite <- Heq. now apply in_map.
        -- rewrite Forall_forall in Hcnt. now apply Hcnt.
      * constructor; [|constructor]. unfold counts_in. simpl.
        rewrite count_snoc, (count_zero x p Hnotin).
        destruct (text_eq_dec x x); [reflexivity | congruence].
    + intros k. rewrite map_app, !in_app_iff, Hkeys. simpl. tauto.
    + rewrite map_app. simpl. apply StronglySorted_snoc.
      * eapply StronglySorted_weaken; [|exact Hsorted]. exact Hstable.
      * apply Forall_forall. intros a Ha. unfold seen_before.
        rewrite first_index_app_In by (now apply Hkeys).
        rewrite (first_index_app_new x p Hnotin).
        apply first_index_In. now apply Hkeys.
Qed.

Lemma counter_inv_fold (l p : list str) (c : list (str * nat)) :
  counter_inv p c ->
  counter_inv (p ++ l) (fold_left (fun c x => counter_incr x c) l c).
Proof.
  revert p c; induction l as [|x l IH]; intros p c H; simpl.
  - now rewrite app_nil_r.
  - replace (p ++ x :: l) with ((p ++ [x]) ++ l) by (now rewrite <- app_assoc).
    apply IH. now apply counter_inv_step.
Qed.

Lemma Counter_inv (l : list str) : counter_inv l (Counter l).
Proof.
  apply (counter_inv_fold l [] []).
  repeat split; simpl; try constructor; try tauto.
Qed.

(** *** The stable sort and the cut *)

Lemma insert_desc_perm (e : str * nat) (l : list (str * nat)) :
  Permutation (insert_desc e l) (e :: l).
Proof.
  induction l as [|y l IH]; simpl; [reflexivity|].
  destruct (Nat.ltb (snd e) (snd y)); [|reflexivity].
  rewrite IH. apply perm_swap.
Qed.

Lemma sorted_desc_perm (l : list (str * nat)) : Permutation (sorted_desc l) l.
Proof.
  induction l as [|e l IH]; simpl; [reflexivity|].
  rewrite insert_desc_perm. now constructor.
Qed.

Lemma ranks_before_count (F : list str) (a b : str * nat) :
  ranks_before F a b -> snd b <= snd a.
Proof. unfold ranks_before. lia. Qed.

(** Inserting an entry that was met before all the entries of a ranked
    table keeps the table ranked. *)
Lemma insert_desc_sorted (F : list str) (e : str * nat) (l : list (str * nat)) :
  StronglySorted (ranks_before F) l ->
  Forall (fun y => seen_before F (fst e) (fst y)) l ->
  StronglySorted (ranks_before F) (insert_desc e l).
Proof.
  intros H. induction H as [|y l Hs IH Hall]; simpl; intros Hseen.
  - constructor; constructor.
  - inversion Hseen as [|? ? Hy Hseen']; subst.
    destruct (Nat.ltb (snd e) (snd y)) eqn:E.
    + apply Nat.ltb_lt in E. constructor; [now apply IH|].
      apply (@Permutation_Forall _ _ (e :: l)).
      * symmetry. apply insert_desc_perm.
      * constructor; [now left | assumption].
    + apply Nat.ltb_ge in E. constructor; [now constructor|].
      constructor.
      * unfold ranks_before. destruct (Nat.eq_dec (snd e) (snd y)); [right | left]; 
          [tauto | lia].
      * rewrite Forall_forall in *. intros z Hz.
        pose proof (ranks_before_count F y z (Hall z Hz)) as Hle.
        unfold ranks_before.
        destruct (Nat.eq_dec (snd e) (snd z)); [right | left]; [|lia].
        split; [assumption | now apply Hseen'].
Qed.

Lemma sorted_desc_sorted (F : list str) (c : list (str * nat)) :
  StronglySorted (seen_before F) (map fst c) ->
  StronglySorted (ranks_before F) (sorted_desc c).
Proof.
  induction c as [|e c IH]; simpl; intros H; [constructor|].
  apply StronglySorted_inv in H as [Hs Hall].
  apply insert_desc_sorted; [now apply IH|].
  apply (@Permutation_Forall _ _ c); [symmetry; apply sorted_desc_perm|].
  rewrite Forall_forall in *. intros y Hy. apply Hall. now apply in_map.
Qed.

Lemma StronglySorted_firstn {A} (R : A -> A -> Prop) (n : nat) (l : list A) :
  StronglySorted R l -> StronglySorted R (firstn n l).
Proof.
  intros H. revert n. induction H as [|a l Hs IH Hall]; intros [|n]; simpl;
    try constructor.
  - apply IH.
  - rewrite Forall_forall in *. intros b Hb. apply Hall.
    rewrite <- (firstn_skipn n l). apply in_or_app. now left.
Qed.

Lemma StronglySorted_app_cross {A} (R : A -> A -> Prop) (l1 l2 : list A) :
  StronglySorted R (l1 ++ l2) -> forall a b, In a l1 -> In b l2 -> R a b.
Proof.
  induction l1 as [|x l1 IH]; simpl; intros H a b Ha Hb; [contradiction|].
  apply StronglySorted_inv in H as [Hs Hall].
  destruct Ha as [<-|Ha].
  - rewrite Forall_forall in Hall. apply Hall. apply in_or_app. now right.
  - now apply IH.
Qed.

(** [most_common n (Counter l)] is the frequency table of [l] capped at
    [n] entries. *)
Lemma most_common_Counter (n : nat) (l : list str) :
  frequency_table n l (most_common n (Counter l)).
Proof.
  destruct (Counter_inv l) as (Hnd & Hcnt & Hkeys & Hsorted).
  pose proof (sorted_desc_perm (Counter l)) as Hperm.
  pose proof (sorted_desc_sorted l (Counter l) Hsorted) as Hranked.
  unfold most_common.
  set (t := sorted_desc (Counter l)) in *.
  assert (Hin_t : forall e, In e (firstn n t) -> In e (Counter l)).
  { intros e He. apply (Permutation_in _ Hperm).
    rewrite <- (firstn_skipn n t). apply in_or_app. now left. }
  split; [|split; [|split; [|split]]].
  - apply firstn_le_length.
  - rewrite <- firstn_map.
    apply NoDup_app_remove_r with (l' := skipn n (map fst t)).
    rewrite firstn_skipn.
    apply (@Permutation_NoDup _ (map fst (Counter l))); [|assumption].
    apply Permutation_map. now symmetry.
  - intros k m Hk. apply Hin_t in Hk.
    rewrite Forall_forall in Hcnt. pose proof (Hcnt _ Hk) as E.
    unfold counts_in in E. simpl in E. split; [assumption|].
    rewrite E. apply count_pos. apply Hkeys.
    apply in_map_iff. now exists (k, m).
  - now apply StronglySorted_firstn.
  - intros k Hk Hnot.
    assert (Hentry : In (k, count k l) t).
    { apply Hkeys in Hk. apply in_map_iff in Hk as ([k' m] & Ek & Hin).
      simpl in Ek. subst k'.
      rewrite Forall_forall in Hcnt. pose proof (Hcnt _ Hin) as E.
      unfold counts_in in E. simpl in E. subst m.
      apply (Permutation_in _ (Permutation_sym Hperm)). assumption. }
    rewrite <- (firstn_skipn n t) in Hentry, Hranked.
    apply in_app_or in Hentry as [Hfirst|Hrest].
    + elim Hnot. apply in_map_iff. now exists (k, count k l).
    + split.
      * rewrite length_firstn. apply Nat.min_l.
        destruct (Nat.le_gt_cases n (length t)) as [Hle|Hgt]; [assumption|].
        rewrite skipn_all2 in Hrest by lia. contradiction.
      * apply Forall_forall. intros a Ha.
        now apply (StronglySorted_app_cross _ _ _ Hranked).
Qed.

Section FrequencyTables.
Context {U : unicode_db} {SO : set_order}.
Variable nlp : option (str -> spacy_doc).

(** In the result of a batch the insights are those of the postings, in
    the order of the batch, and the three tables are the frequency
    tables of the skills, the responsibilities and the qualifications of
    all insights taken in order: each entry holds the number of
    occurrences of its key, a larger count ranks first and equal counts
    rank in the order of first meeting, and the tables are cut after 50,
    30 and 30 entries, what is cut ranking after all that is kept. *)
Lemma frequency_tables_ranked_and_capped :
  forall (min_required : Z) (descriptions : list JobDescription)
         (w w' : list log_event) (r : AnalysisResult),
    analyze_multiple_descriptions nlp min_required descriptions w = (inr r, w') ->
    Forall2 (fun d i => job_insights nlp d = inr i) descriptions (insights r)
    /\ frequency_table 50 (flat_map skills (insights r)) (common_skills r)
    /\ frequency_table 30 (flat_map responsibilities (insights r))
         (common_responsibilities r)
    /\ frequency_table 30 (flat_map qualifications (insights r))
         (common_qualifications r).
Proof.
  intros min_required descriptions w w' r Hrun.
  apply analyze_multiple_descriptions_with_success in Hrun
    as (_ & (w1 & Hfor) & _ & -> & -> & -> & _).
  split; [eapply for_each_analyze_job_description; exact Hfor|].
  split; [|split]; apply most_common_Counter.
Qed.

End FrequencyTables.

(** C7.  The three tables of a result hold the counts over the lists of
    the insights of the postings, a larger count first, equal counts in
    the order of first meeting, cut after 50, 30 and 30 entries.  But
    the list of skills of one posting is [list(skills)] of a set, which
    CPython enumerates in the order of the hashes of the strings, and
    these change from run to run: the order in which the skills of one
    posting are met is not that of the text, and it is not the same in
    every run.  On the sample batch the skills rest and sprint, found
    once each and in the same posting, rank one way when the sets
    enumerate in the order of insertion and the other way when they
    enumerate in the reverse order, and so do roadmap and platform: the
    ranking of the skills is not reproducible for the same input. *)
Theorem C7_skill_ranking_follows_set_order :
  (forall (U : unicode_db) (SO : set_order) (nlp : option (str -> spacy_doc))
          (min_required : Z) (descriptions : list JobDescription)
          (w w' : list log_event) (r : AnalysisResult),
     analyze_multiple_descriptions nlp min_required descriptions w = (inr r, w') ->
     Forall2 (fun d i => job_insights nlp d = inr i) descriptions (insights r)
     /\ frequency_table 50 (flat_map skills (insights r)) (common_skills r)
     /\ frequency_table 30 (flat_map responsibilities (insights r))
          (common_responsibilities r)
     /\ frequency_table 30 (flat_map qualifications (insights r))
          (common_qualifications r))
  /\ sample_common_skills insertion_order
     = [ (txt "sql", 2); (txt "agile", 2); (txt "rest", 1); (txt "sprint", 1);
         (txt "roadmap", 1); (txt "platform", 1) ]
  /\ sample_common_skills reverse_order
     = [ (txt "sql", 2); (txt "agile", 2); (txt "sprint", 1); (txt "rest", 1);
         (txt "platform", 1); (txt "roadmap", 1) ]
  /\ sample_common_skills insertion_order <> sample_common_skills reverse_order.
Proof.
  split.
  - intros U SO nlp min_required descriptions w w' r Hrun.
    eapply frequency_tables_ranked_and_capped; exact Hrun.
  - split; [vm_compute; reflexivity|]. split; [vm_compute; reflexivity|].
    vm_compute. discriminate.
Qed.

(** The scenario of the specification: "sql" and "agile" are each found
    in two of the three postings, "sql" is met first and ranks first, and
    one posting carries a salary. *)
Lemma sample_batch_scenario :
  firstn 2 (common_skills sample_result) = [(txt "sql", 2); (txt "agile", 2)]
  /\ (exists d, salary_insights sample_result = Some d
                /\ dict_get "sample_size" d = Some (VInt 1)).
Proof. split; [vm_compute; reflexivity | eexists; split; vm_compute; reflexivity]. Qed.

(** ** What the matcher finds

    The soundness of the backtracking matcher with respect to the
    declarative reading of the patterns: whatever [m] hands to its
    continuation is the end of a match. *)

Section Semantics.
Context {U : unicode_db} {SO : set_order}.

Lemma eat_sound (p : char -> bool) (st : mstate) (k : mstate -> option mstate)
    (x : mstate) :
  eat p st k = Some x ->
  exists c tl, rest st = c :: tl /\ p c = true /\ k (advance c tl st) = Some x.
Proof.
  unfold eat. destruct (rest st) as [|c tl]; [discriminate|].
  destruct (p c) eqn:E; [|discriminate]. intros H. now exists c, tl.
Qed.

(** Soundness of the matcher. *)
Lemma m_sound (ic : bool) (r : regex) :
  forall (st : mstate) (k : mstate -> option mstate) (x : mstate),
    m ic r st k = Some x ->
    exists st', matches ic r st st' /\ k st' = Some x.
Proof.
  induction r as [ | c | items | | | | | r1 IH1 r2 IH2 | r1 IH1 r2 IH2
                 | lo hi r1 IH1 | n r1 IH1 ]; intros st k x; simpl.
  - intros H. exists st. split; [constructor | assumption].
  - intros H. apply eat_sound in H as (c' & tl & Hr & Hp & Hk).
    eexists. split; [|exact Hk].
    eapply matches_char; [reflexivity | exact Hr | exact Hp].
  - intros H. apply eat_sound in H as (c' & tl & Hr & Hp & Hk).
    eexists. split; [|exact Hk].
    eapply matches_char; [reflexivity | exact Hr | exact Hp].
  - intros H. apply eat_sound in H as (c' & tl & Hr & Hp & Hk).
    eexists. split; [|exact Hk].
    eapply matches_char; [reflexivity | exact Hr | exact Hp].
  - intros H. apply eat_sound in H as (c' & tl & Hr & Hp & Hk).
    eexists. split; [|exact Hk].
    eapply matches_char; [reflexivity | exact Hr | exact Hp].
  - destruct (at_boundary st) eqn:E; [|discriminate].
    intros H. exists st. split; [now constructor | assumption].
  - destruct (pos st) eqn:E; [|discriminate].
    intros H. exists st. split; [now constructor | assumption].
  - intros H. apply IH1 in H as (st1 & M1 & H). apply IH2 in H as (st2 & M2 & H).
    exists st2. split; [econstructor; eassumption | assumption].
  - destruct (m ic r1 st k) as [y|] eqn:E.
    + intros H. injection H as ->. apply IH1 in E as (st' & M1 & H).
      exists st'. split; [now apply matches_or_l | assumption].
    + intros H. apply IH2 in H as (st' & M2 & H).
      exists st'. split; [now apply matches_or_r | assumption].
  - assert (Hrep : forall fuel count st0,
      (fix rep (fuel count : nat) (st : mstate) {struct fuel} : option mstate :=
         match fuel with
         | O => if Nat.leb lo count then k st else None
         | S fuel' =>
             match
               (if below count hi then
                  m ic r1 st (fun st' =>
                    if Nat.ltb (pos st) (pos st') then rep fuel' (S count) st'
                    else None)
                else None)
             with
             | Some x => Some x
             | None => if Nat.leb lo count then k st else None
             end
         end) fuel count st0 = Some x ->
      exists st', iter (matches ic r1) lo hi count st0 st' /\ k st' = Some x).
    { clear st. intros fuel. induction fuel as [|fuel IHf]; intros count st0.
      - destruct (Nat.leb lo count) eqn:E; [|discriminate].
        apply Nat.leb_le in E. intros H. exists st0. split; [now constructor | assumption].
      - destruct (below count hi) eqn:Eb.
        + match goal with
          | |- match ?t with _ => _ end = _ -> _ => destruct t as [y|] eqn:Em
          end.
          * intros H. injection H as ->.
            apply IH1 in Em as (st1 & M1 & Hk).
            destruct (Nat.ltb (pos st0) (pos st1)) eqn:Ep; [|discriminate].
            apply Nat.ltb_lt in Ep.
            apply IHf in Hk as (st' & It & Hk).
            exists st'. split; [|assumption].
            eapply iter_more; eassumption.
          * destruct (Nat.leb lo count) eqn:E; [|discriminate].
            apply Nat.leb_le in E. intros H.
            exists st0. split; [now constructor | assumption].
        + destruct (Nat.leb lo count) eqn:E; [|discriminate].
          apply Nat.leb_le in E. intros H.
          exists st0. split; [now constructor | assumption]. }
    intros H.
    destruct (Hrep (S (length (rest st))) 0 st H) as (st' & It & Hk).
    exists st'. split; [now constructor | assumption].
  - intros H. apply IH1 in H as (st' & M1 & Hk).
    eexists. split; [apply matches_group; eassumption | assumption].
Qed.

End Semantics.

(** *** The text a match consumes *)

Lemma spans_taken (P : str -> Prop) (st st' : mstate) :
  spans P st st' -> P (firstn (pos st' - pos st) (rest st)).
Proof.
  intros (w & Hr & Hp & HP). rewrite Hr, Hp.
  replace (pos st + length w - pos st) with (length w + 0) by lia.
  rewrite firstn_app_2. simpl. now rewrite app_nil_r.
Qed.

Lemma spans_refl (P : str -> Prop) (st : mstate) : P [] -> spans P st st.
Proof. intros H. exists []. simpl. split; [reflexivity|]. split; [lia | assumption]. Qed.

Lemma spans_trans (P Q R : str -> Prop) (st st1 st2 : mstate) :
  (forall u v, P u -> Q v -> R (u ++ v)) ->
  spans P st st1 -> spans Q st1 st2 -> spans R st st2.
Proof.
  intros H (u & Hr1 & Hp1 & Hu) (v & Hr2 & Hp2 & Hv).
  exists (u ++ v). rewrite Hr1, Hr2, <- app_assoc, length_app.
  split; [reflexivity|]. split; [lia | now apply H].
Qed.

Lemma spans_weaken (P Q : str -> Prop) (st st' : mstate) :
  (forall w, P w -> Q w) -> spans P st st' -> spans Q st st'.
Proof. intros H (w & Hr & Hp & HP). exists w. auto. Qed.

Lemma spans_advance (p : char -> bool) (x : char) (tl : str) (st : mstate) :
  rest st = x :: tl -> p x = true ->
  spans (fun w => w = [x] /\ p x = true) st (advance x tl st).
Proof.
  intros Hr Hp. exists [x]. simpl. rewrite Hr.
  split; [reflexivity|]. split; [lia | auto].
Qed.

Lemma spans_set_cap (P : str -> Prop) (n : nat) (s : str) (st st' : mstate) :
  spans P st st' -> spans P st (set_cap n s st').
Proof. intros (w & Hr & Hp & HP). exists w. simpl. auto. Qed.

(** Iterations of steps that each consume a [P] consume a [Q], when [Q]
    holds of the empty text and of a [P] followed by a [Q]. *)
Lemma iter_spans (R : mstate -> mstate -> Prop) (P Q : str -> Prop)
    (lo : nat) (hi : option nat) (count : nat) (st st' : mstate) :
  (forall a b, R a b -> spans P a b) ->
  Q [] -> (forall u v, P u -> Q v -> Q (u ++ v)) ->
  iter R lo hi count st st' -> spans Q st st'.
Proof.
  intros HR Hnil Hcons H.
  induction H as [count st Hlo | count st st1 st2 Hb Hstep Hpos Hrest IH].
  - now apply spans_refl.
  - eapply spans_trans; [exact Hcons | apply HR; exact Hstep | exact IH].
Qed.

Section Consumed.
Context {U : unicode_db} {SO : set_order}.

(** A one-character pattern consumes one character that it accepts. *)
Lemma matches_accepts (ic : bool) (r : regex) (p : char -> bool) (st st' : mstate) :
  accepts ic r = Some p -> matches ic r st st' ->
  spans (fun w => exists x, w = [x] /\ p x = true) st st' /\ caps st' = caps st.
Proof.
  intros Hacc H. inv_matches H; try (simpl in Hacc; discriminate Hacc).
  match goal with
  | A : accepts _ _ = Some _ |- _ => rewrite Hacc in A; injection A as <-
  end.
  split; [|reflexivity].
  match goal with
  | Hr : rest st = ?x :: ?tl, Hp : p ?x = true |- _ =>
      exists [x]; simpl; rewrite Hr;
      split; [reflexivity|]; split; [lia | now exists x]
  end.
Qed.

(** Every match consumes a stretch of the text. *)
Lemma matches_spans (ic : bool) (r : regex) :
  forall st st', matches ic r st st' -> spans (fun _ => True) st st'.
Proof.
  induction r as [ | c | items | | | | | r1 IH1 r2 IH2 | r1 IH1 r2 IH2
                 | lo hi r1 IH1 | n r1 IH1 ]; intros st st' H.
  all: try (solve [ eapply spans_weaken;
                    [ intros ? _; exact I
                    | refine (proj1 (matches_accepts _ _ _ _ _ _ H)); reflexivity ] ]).
  - inv_matches H. now apply spans_refl.
  - inv_matches H. now apply spans_refl.
  - inv_matches H. now apply spans_refl.
  - inv_matches H. eapply spans_trans; [|eapply IH1; eassumption|eapply IH2; eassumption].
    trivial.
  - inv_matches H; [now apply IH1 | now apply IH2].
  - inv_matches H. eapply iter_spans; [exact IH1 | | | eassumption]; trivial.
  - inv_matches H. apply spans_set_cap. now apply IH1.
Qed.

End Consumed.

(** ** Salary parsing (C4) *)

Section Salary.
Context {U : unicode_db} {SO : set_order}.

Lemma isdigit_not_mark (x : char) :
  isdigit x = true ->
  x <> ch "," /\ x <> ch "$" /\ x <> ch "k" /\ x <> ch "K".
Proof. intros H. repeat split; intros ->; vm_compute in H; discriminate. Qed.

Lemma matches_lit (c : char) (st st' : mstate) :
  matches false (Lit c) st st' -> spans (fun w => w = [c]) st st'.
Proof.
  intros H. destruct (matches_accepts false (Lit c) _ st st' eq_refl H) as [Hs _].
  eapply spans_weaken; [|exact Hs]. intros w (x & -> & Hx).
  unfold lit_match in Hx. simpl in Hx. rewrite orb_false_r in Hx.
  apply N.eqb_eq in Hx. now subst.
Qed.

Lemma matches_digit (st st' : mstate) :
  matches false Digit st st' -> spans (fun w => exists x, w = [x] /\ isdigit x = true) st st'.
Proof. intros H. exact (proj1 (matches_accepts false Digit _ st st' eq_refl H)). Qed.

Lemma iter_digits (lo : nat) (hi : option nat) (count : nat) (st st' : mstate) :
  iter (matches false Digit) lo hi count st st' -> spans (Forall digit_or_comma) st st'.
Proof.
  apply iter_spans with (P := fun w => exists x, w = [x] /\ isdigit x = true).
  - intros a b. apply matches_digit.
  - constructor.
  - intros u v (x & -> & Hx) Hv. simpl. constructor; [now left | assumption].
Qed.

(** What [re_amount] consumes has the shape of a numeric token. *)
Lemma matches_re_amount (st st' : mstate) :
  matches false re_amount st st' -> spans amount_shape st st'.
Proof.
  unfold re_amount. simpl Seq. intros H.
  inv_matches H.
  match goal with H : matches _ (Cat _ _) _ _ |- _ => inv_matches H end.
  match goal with H : matches _ (Repeat 1 _ _) _ _ |- _ => inv_matches H end.
  match goal with H : matches _ (Star _) _ _ |- _ => inv_matches H end.
  match goal with H : matches _ (Opt _) _ _ |- _ => inv_matches H end.
  (* the leading digits *)
  match goal with H : iter _ 1 _ 0 _ _ |- _ => inversion H; subst; clear H end;
    [lia|].
  match goal with H : matches _ Digit _ _ |- _ =>
    apply matches_digit in H; destruct H as (w0 & Hr0 & Hp0 & (c & -> & Hc)) end.
  match goal with H : iter _ 1 _ 1 _ _ |- _ =>
    apply iter_digits in H; destruct H as (w1 & Hr1 & Hp1 & Hw1) end.
  (* the groups of three *)
  match goal with H : iter _ 0 None 0 _ _ |- _ =>
    apply iter_spans with (P := Forall digit_or_comma) (Q := Forall digit_or_comma) in H;
      [destruct H as (w2 & Hr2 & Hp2 & Hw2) | | constructor
      | intros u v Hu Hv; apply Forall_app; now split]
  end.
  2:{ intros a b Hab. simpl Seq in Hab. inv_matches Hab.
      match goal with H : matches _ (Lit _) _ _ |- _ => apply matches_lit in H end.
      match goal with H : matches _ (Repeat 3 _ _) _ _ |- _ =>
        inv_matches H end.
      match goal with H : iter _ 3 _ 0 _ _ |- _ => apply iter_digits in H end.
      eapply spans_trans; [|eassumption|eassumption].
      intros u v -> Hv. simpl. constructor; [now right | assumption]. }
  (* the final k *)
  assert (Hk : spans (fun k => k = [] \/ k = [ch "k"] \/ k = [ch "K"]) st2 st').
  { match goal with H : iter _ 0 (Some 1) 0 _ _ |- _ =>
      inversion H; subst; clear H end.
    - apply spans_refl. now left.
    - match goal with H : iter _ 0 (Some 1) 1 _ _ |- _ =>
        inversion H; subst; clear H end;
        [|match goal with B : below 1 (Some 1) = true |- _ => discriminate B end].
      match goal with H : matches _ (Or _ _) _ _ |- _ => inv_matches H end;
        match goal with H : matches _ (Lit _) _ _ |- _ => apply matches_lit in H end;
        (eapply spans_weaken; [|eassumption]); intros w ->; auto. }
  destruct Hk as (w3 & Hr3 & Hp3 & Hw3).
  exists ((c :: w1 ++ w2) ++ w3). split; [|split].
  - rewrite Hr0, Hr1, Hr2, Hr3. simpl. now rewrite <- !app_assoc.
  - rewrite Hp3, Hp2, Hp1, Hp0. simpl. rewrite !length_app. lia.
  - exists c, (w1 ++ w2), w3. repeat split; try assumption.
    apply Forall_app. now split.
Qed.

Lemma int_digits_total (s : str) :
  Forall (fun x => isdigit x = true) s -> forall acc, exists n, int_digits acc s = Some n.
Proof.
  induction 1 as [|x s Hx _ IH]; intros acc; simpl; [now exists acc|].
  unfold isdigit in Hx. destruct (decimal x) as [d|]; [apply IH | discriminate].
Qed.

Lemma int_of_total (c : char) (s : str) :
  Forall (fun x => isdigit x = true) (c :: s) ->
  length (c :: s) <= int_max_str_digits ->
  exists n, int_of (c :: s) = Some n.
Proof.
  intros H Hlen. destruct (int_digits_total (c :: s) H 0%N) as [n Hn].
  exists (Z.of_N n). unfold int_of.
  apply Nat.ltb_ge in Hlen. rewrite Hlen. now rewrite Hn.
Qed.

(** [int] reads digits only. *)
Lemma int_of_Some_digits (s : str) (n : Z) :
  int_of s = Some n ->
  Forall (fun x => isdigit x = true) s /\ length s <= int_max_str_digits.
Proof.
  unfold int_of. destruct s as [|c s]; [discriminate|].
  destruct (Nat.ltb int_max_str_digits (length (c :: s))) eqn:El; [discriminate|].
  apply Nat.ltb_ge in El. intros Hn. split; [|exact El].
  destruct (int_digits 0 (c :: s)) as [v|] eqn:E; [|discriminate].
  clear Hn El. revert E. generalize 0%N. generalize (c :: s). clear.
  induction l as [|x l IH]; intros acc; [constructor|]. simpl.
  destruct (decimal x) as [dv|] eqn:Ed; [|discriminate].
  intros H. constructor; [unfold isdigit; now rewrite Ed | eapply IH; eassumption].
Qed.

Lemma remove_char_length (x : char) (s : str) : length (remove_char x s) <= length s.
Proof. unfold remove_char. apply filter_length_le. Qed.

Lemma remove_char_app (x : char) (a b : str) :
  remove_char x (a ++ b) = remove_char x a ++ remove_char x b.
Proof. unfold remove_char. apply filter_app. Qed.

Lemma remove_char_cons_neq (x y : char) (s : str) :
  y <> x -> remove_char x (y :: s) = y :: remove_char x s.
Proof.
  intros H. apply N.eqb_neq in H.
  change (remove_char x (y :: s))
    with (if negb (N.eqb y x) then y :: remove_char x s else remove_char x s).
  now rewrite H.
Qed.

Lemma remove_char_digits (x : char) (s : str) :
  (forall y, isdigit y = true -> y <> x) ->
  Forall (fun y => isdigit y = true) s -> remove_char x s = s.
Proof.
  intros Hx H. induction H as [|y s Hy _ IH]; [reflexivity|].
  change (remove_char x (y :: s))
    with (if negb (N.eqb y x) then y :: remove_char x s else remove_char x s).
  destruct (N.eqb y x) eqn:E; simpl negb; cbv iota.
  - apply N.eqb_eq in E. now elim (Hx y Hy).
  - f_equal. exact IH.
Qed.

Lemma remove_comma_digits (d : str) :
  Forall digit_or_comma d ->
  Forall (fun y => isdigit y = true) (remove_char (ch ",") d).
Proof.
  induction 1 as [|y d Hy _ IH]; [constructor|].
  change (remove_char (ch ",") (y :: d))
    with (if negb (N.eqb y (ch ",")) then y :: remove_char (ch ",") d
          else remove_char (ch ",") d).
  destruct (N.eqb y (ch ",")) eqn:E; simpl negb; cbv iota; [assumption|].
  constructor; [|assumption].
  destruct Hy as [Hy| ->]; [assumption|]. now rewrite N.eqb_refl in E.
Qed.

Lemma endswith_char_snoc (x y : char) (s : str) :
  endswith_char x (s ++ [y]) = N.eqb y x.
Proof. unfold endswith_char. now rewrite rev_app_distr. Qed.

Lemma drop_last_snoc (y : char) (s : str) : drop_last (s ++ [y]) = s.
Proof. unfold drop_last. apply removelast_last. Qed.

(** A numeric token of at most [int_max_str_digits] characters parses. *)
Lemma parse_salary_amount (w : str) :
  amount_shape w -> length w <= int_max_str_digits ->
  exists z, _parse_salary w = inr z.
Proof.
  intros (c & d & k & -> & Hc & Hd & Hk) Hlen.
  pose proof (remove_comma_digits d Hd) as Hd'.
  set (ds := c :: remove_char (ch ",") d).
  assert (Hds : Forall (fun y => isdigit y = true) ds) by (now constructor).
  assert (Hdl : length ds <= int_max_str_digits).
  { unfold ds. pose proof (remove_char_length (ch ",") d).
    rewrite length_app in Hlen. simpl length in *. lia. }
  assert (Hkeep : forall x, (x = ch "," \/ x = ch "$") -> remove_char x k = k).
  { intros x [-> | ->]; destruct Hk as [-> | [-> | ->]]; reflexivity. }
  assert (Hstrip : remove_char (ch "$") (remove_char (ch ",") ((c :: d) ++ k)) = ds ++ k).
  { rewrite (remove_char_app (ch ",")), (Hkeep (ch ",")) by auto.
    rewrite (remove_char_cons_neq (ch ",") c d) by (apply (isdigit_not_mark c Hc)).
    fold ds.
    rewrite (remove_char_app (ch "$")), (Hkeep (ch "$")) by auto.
    rewrite (remove_char_digits (ch "$") ds) by
      (try assumption; intros y Hy; apply (isdigit_not_mark y Hy)).
    reflexivity. }
  destruct (int_of_total c _ Hds Hdl) as [n Hn]. fold ds in Hn.
  unfold _parse_salary. rewrite Hstrip.
  destruct Hk as [-> | [-> | ->]].
  - rewrite app_nil_r.
    assert (Hlast : forall x, (x = ch "k" \/ x = ch "K") -> endswith_char x ds = false).
    { intros x Hx. unfold endswith_char.
      destruct (rev ds) as [|y t] eqn:Er; [reflexivity|].
      assert (Hy : isdigit y = true).
      { rewrite Forall_forall in Hds. apply Hds. apply in_rev. rewrite Er. now left. }
      apply N.eqb_neq. intros ->.
      destruct (isdigit_not_mark x Hy) as (_ & _ & Hk1 & Hk2).
      destruct Hx; contradiction. }
    rewrite !Hlast by auto. simpl orb. cbv iota. rewrite Hn. now exists n.
  - rewrite !endswith_char_snoc, drop_last_snoc, N.eqb_refl, Hn. now eexists.
  - rewrite !endswith_char_snoc, drop_last_snoc, N.eqb_refl, orb_true_r, Hn.
    now eexists.
Qed.

End Salary.

Section SalaryInfo.
Context {U : unicode_db} {SO : set_order}.

Lemma match_here_sound (ic : bool) (r : regex) (st : mstate) (mo : match_obj) :
  match_here ic r st = Some mo -> matches ic (Group 0 r) st (m_end mo).
Proof.
  unfold match_here. destruct (m ic (Group 0 r) st Some) as [st'|] eqn:E; [|discriminate].
  intros H. injection H as <-. simpl.
  apply m_sound in E as (st'' & M & Hk). now injection Hk as ->.
Qed.

Lemma search_from_sound (ic : bool) (r : regex) (s : str) :
  forall p pv mo,
    search_from ic r p pv s = Some mo -> exists st, match_here ic r st = Some mo.
Proof.
  induction s as [|c s IH]; intros p pv mo; simpl.
  - destruct (match_here ic r _) as [mo'|] eqn:E; [|discriminate].
    intros H. injection H as ->. eauto.
  - destruct (match_here ic r _) as [mo'|] eqn:E.
    + intros H. injection H as ->. eauto.
    + apply IH.
Qed.

Lemma findall_from_sound (ic : bool) (r : regex) (a : str) :
  forall fuel p pv s,
    In a (findall_from ic r fuel p pv s) ->
    exists st mo, match_here ic r st = Some mo /\ a = group_text 1 mo.
Proof.
  induction fuel as [|fuel IH]; intros p pv s; simpl; [contradiction|].
  destruct (search_from ic r p pv s) as [mo|] eqn:E; [|contradiction].
  intros [<-|Hin].
  - apply search_from_sound in E as [st Hst]. eauto.
  - destruct (Nat.ltb (m_start mo) (pos (m_end mo))); [now apply IH in Hin|].
    destruct (rest (m_end mo)); [contradiction | now apply IH in Hin].
Qed.

(** Every token that [findall] extracts from a salary string has the
    shape of a numeric token. *)
Lemma salary_token_shape (s a : str) :
  In a (re_findall false re_salary_token s) -> amount_shape a.
Proof.
  unfold re_findall. intros H.
  apply findall_from_sound in H as (st & mo & Hm & ->).
  apply match_here_sound in Hm. unfold group_text, group.
  inv_matches Hm.
  match goal with M : matches _ re_salary_token _ _ |- _ =>
    unfold re_salary_token in M; simpl Seq in M; inv_matches M end.
  match goal with M : matches _ (Group 1 _) _ _ |- _ => inv_matches M end.
  match goal with M : matches _ re_amount _ _ |- _ =>
    apply matches_re_amount in M; apply spans_taken in M; exact M end.
Qed.

Lemma salary_token_parses (s a : str) :
  In a (re_findall false re_salary_token s) -> length a <= int_max_str_digits ->
  exists z, _parse_salary a = inr z.
Proof.
  intros H Hlen. apply parse_salary_amount; [|exact Hlen].
  eapply salary_token_shape; eassumption.
Qed.

(** [_parse_salary] drops the dollar signs and the commas. *)
Lemma parse_salary_strips (s : str) :
  _parse_salary s = _parse_salary (remove_char (ch "$") (remove_char (ch ",") s)).
Proof.
  unfold _parse_salary.
  assert (Hidem : forall x t, remove_char x (remove_char x t) = remove_char x t).
  { intros x t. unfold remove_char. induction t as [|y t IH]; simpl; [reflexivity|].
    destruct (N.eqb y x) eqn:E; simpl; [assumption|]. rewrite E. simpl. now f_equal. }
  assert (Hcomm : forall x y t,
            remove_char x (remove_char y t) = remove_char y (remove_char x t)).
  { intros x y t. unfold remove_char. induction t as [|z t IH]; simpl; [reflexivity|].
    destruct (N.eqb z x) eqn:Ex, (N.eqb z y) eqn:Ey; simpl;
      rewrite ?Ex, ?Ey; simpl; try assumption. now f_equal. }
  assert (E : remove_char (ch "$") (remove_char (ch ",")
                (remove_char (ch "$") (remove_char (ch ",") s)))
              = remove_char (ch "$") (remove_char (ch ",") s)).
  { rewrite (Hcomm (ch ",") (ch "$") (remove_char (ch ",") s)).
    now rewrite !Hidem. }
  now rewrite E.
Qed.

(** [_parse_salary] on a string of digits that [int] reads, alone and
    with a final k or K. *)
Lemma parse_salary_reads (c : char) (ds : str) (n : Z) :
  int_of (c :: ds) = Some n ->
  _parse_salary (c :: ds) = inr n
  /\ _parse_salary ((c :: ds) ++ [ch "k"]) = inr (n * 1000)%Z
  /\ _parse_salary ((c :: ds) ++ [ch "K"]) = inr (n * 1000)%Z.
Proof.
  intros Hn.
  assert (Hdig : Forall (fun x => isdigit x = true) (c :: ds))
    by (exact (proj1 (int_of_Some_digits _ _ Hn))).
  assert (Hstrip : forall k, (k = [] \/ k = [ch "k"] \/ k = [ch "K"]) ->
            remove_char (ch "$") (remove_char (ch ",") ((c :: ds) ++ k))
            = (c :: ds) ++ k).
  { intros k Hk.
    rewrite !remove_char_app.
    rewrite (remove_char_digits (ch ",") (c :: ds)) by
      (try assumption; intros y Hy; apply (isdigit_not_mark y Hy)).
    rewrite (remove_char_digits (ch "$") (c :: ds)) by
      (try assumption; intros y Hy; apply (isdigit_not_mark y Hy)).
    f_equal. destruct Hk as [-> | [-> | ->]]; reflexivity. }
  unfold _parse_salary. split; [|split].
  + pose proof (Hstrip [] (or_introl eq_refl)) as E. rewrite app_nil_r in E.
    rewrite E.
    assert (Hlast : forall x, (x = ch "k" \/ x = ch "K") ->
              endswith_char x (c :: ds) = false).
    { intros x Hx. unfold endswith_char.
      destruct (rev (c :: ds)) as [|y t] eqn:Er; [reflexivity|].
      assert (Hy : isdigit y = true).
      { rewrite Forall_forall in Hdig. apply Hdig. apply in_rev. rewrite Er. now left. }
      apply N.eqb_neq. intros ->.
      destruct (isdigit_not_mark x Hy) as (_ & _ & Hk1 & Hk2).
      destruct Hx; contradiction. }
    rewrite !Hlast by auto. simpl orb. cbv iota. now rewrite Hn.
  + rewrite (Hstrip [ch "k"]) by auto.
    now rewrite !endswith_char_snoc, drop_last_snoc, N.eqb_refl, Hn.
  + rewrite (Hstrip [ch "K"]) by auto.
    now rewrite !endswith_char_snoc, drop_last_snoc, N.eqb_refl, orb_true_r, Hn.
Qed.

(** On a salary string that is given and not empty,
    [_extract_salary_info] returns the string alone, under the key
    range, when its pattern finds fewer than two tokens in it, and
    minimum, maximum and the floor of their mean from the first two
    tokens otherwise, when these have at most [int_max_str_digits]
    characters. *)
Lemma extract_salary_info_by_tokens (c : char) (s text : str) :
  let salary_range := c :: s in
  let tokens := re_findall false re_salary_token salary_range in
  (length tokens < 2 ->
     _extract_salary_info (Some salary_range) text
     = [("range"%string, VStr salary_range)])
  /\ (forall a0 a1 others,
        tokens = a0 :: a1 :: others ->
        length a0 <= int_max_str_digits -> length a1 <= int_max_str_digits ->
        exists min_sal max_sal,
          _parse_salary a0 = inr min_sal
          /\ _parse_salary a1 = inr max_sal
          /\ _extract_salary_info (Some salary_range) text
             = [ ("min"%string, VInt min_sal);
                 ("max"%string, VInt max_sal);
                 ("average"%string, VInt ((min_sal + max_sal) / 2)%Z);
                 ("range"%string, VStr salary_range) ]).
Proof.
  cbv zeta.
  pose proof (salary_token_parses (c :: s)) as Hparse.
  unfold _extract_salary_info. cbv beta iota zeta.
  destruct (re_findall false re_salary_token (c :: s)) as [|a0 [|a1 others]];
    simpl length.
  - split; [reflexivity | discriminate].
  - split; [reflexivity | discriminate].
  - split; [lia|]. intros b0 b1 others' E H0 H1. injection E as <- <- <-.
    destruct (Hparse a0) as [mn Hmn]; [now left | exact H0 |].
    destruct (Hparse a1) as [mx Hmx]; [right; now left | exact H1 |].
    exists mn, mx. rewrite Hmn, Hmx. repeat split.
Qed.

(** C4.  [_parse_salary] drops the dollar signs and the commas and reads
    a final k or K as a factor of 1000, and on the three examples of
    the claim [_extract_salary_info] returns what the claim says.  But
    the tokens of the code are the matches of its pattern, which reads
    at most three digits before a comma: an amount of four digits or
    more that is written without commas is cut into several tokens.  On
    the string $120000 the claim finds one numeric token and keeps the
    string alone; the code finds the tokens 120 and 000 and returns
    min=120, max=0, average=60.  On $120000 - $150000 the claim gives
    min=120000, max=150000, average=135000, and the code gives min=120,
    max=0, average=60 again. *)
Theorem C4_unseparated_amount_is_split_into_tokens :
  (forall s, _parse_salary s
             = _parse_salary (remove_char (ch "$") (remove_char (ch ",") s)))
  /\ (forall c ds n,
        int_of (c :: ds) = Some n ->
        _parse_salary (c :: ds) = inr n
        /\ _parse_salary ((c :: ds) ++ [ch "k"]) = inr (n * 1000)%Z
        /\ _parse_salary ((c :: ds) ++ [ch "K"]) = inr (n * 1000)%Z)
  /\ (_extract_salary_info (Some (txt "$120k - $150k")) []
      = [ ("min"%string, VInt 120000); ("max"%string, VInt 150000);
          ("average"%string, VInt 135000);
          ("range"%string, VStr (txt "$120k - $150k")) ]
      /\ claimed_salary_info (txt "$120k - $150k")
         = _extract_salary_info (Some (txt "$120k - $150k")) [])
  /\ (_extract_salary_info (Some (txt "$95,000-$110,000")) []
      = [ ("min"%string, VInt 95000); ("max"%string, VInt 110000);
          ("average"%string, VInt 102500);
          ("range"%string, VStr (txt "$95,000-$110,000")) ]
      /\ claimed_salary_info (txt "$95,000-$110,000")
         = _extract_salary_info (Some (txt "$95,000-$110,000")) [])
  /\ (_extract_salary_info (Some (txt "competitive")) []
      = [ ("range"%string, VStr (txt "competitive")) ]
      /\ claimed_salary_info (txt "competitive")
         = _extract_salary_info (Some (txt "competitive")) [])
  /\ (claimed_tokens (txt "$120000") = [txt "120000"]
      /\ re_findall false re_salary_token (txt "$120000") = [txt "120"; txt "000"]
      /\ claimed_salary_info (txt "$120000")
         = [ ("range"%string, VStr (txt "$120000")) ]
      /\ _extract_salary_info (Some (txt "$120000")) []
         = [ ("min"%string, VInt 120); ("max"%string, VInt 0);
             ("average"%string, VInt 60);
             ("range"%string, VStr (txt "$120000")) ])
  /\ (claimed_tokens (txt "$120000 - $150000") = [txt "120000"; txt "150000"]
      /\ re_findall false re_salary_token (txt "$120000 - $150000")
         = [txt "120"; txt "000"; txt "150"; txt "000"]
      /\ claimed_salary_info (txt "$120000 - $150000")
         = [ ("min"%string, VInt 120000); ("max"%string, VInt 150000);
             ("average"%string, VInt 135000);
             ("range"%string, VStr (txt "$120000 - $150000")) ]
      /\ _extract_salary_info (Some (txt "$120000 - $150000")) []
         = [ ("min"%string, VInt 120); ("max"%string, VInt 0);
             ("average"%string, VInt 60);
             ("range"%string, VStr (txt "$120000 - $150000")) ]).
Proof.
  split; [exact parse_salary_strips|].
  split; [exact parse_salary_reads|].
  repeat split; vm_compute; reflexivity.
Qed.

End SalaryInfo.

(** ** Skill detection (C5) *)

Lemma last_char_snoc (s : str) (x : char) : last_char (s ++ [x]) = Some x.
Proof. unfold last_char. now rewrite rev_app_distr. Qed.

Lemma state_at_advance (pre : str) (x : char) (tl : str) :
  advance x tl (state_at pre (x :: tl)) = state_at (pre ++ [x]) tl.
Proof.
  unfold advance, state_at. simpl. rewrite last_char_snoc, length_app. simpl.
  f_equal. lia.
Qed.

Section SkillDetection.
Context {U : unicode_db} {SO : set_order}.

Lemma at_boundary_state_at (pre rest : str) :
  at_boundary (state_at pre rest) = word_edge (last_char pre) (hd_error rest).
Proof. unfold at_boundary, state_at, word_edge. simpl. now destruct rest. Qed.

Lemma m_Str (ic : bool) (s : str) :
  forall st k,
    m ic (Str s) st k
    = match lit_prefix ic s st with Some st' => k st' | None => None end.
Proof.
  induction s as [|c s IH]; intros st k; [reflexivity|].
  destruct s as [|c' s'].
  - simpl. unfold eat. destruct (rest st) as [|x tl]; [reflexivity|].
    now destruct (lit_match ic c x).
  - change (Str (c :: c' :: s')) with (Cat (Lit c) (Str (c' :: s'))).
    change (m ic (Cat (Lit c) (Str (c' :: s'))) st k)
      with (eat (lit_match ic c) st (fun st1 => m ic (Str (c' :: s')) st1 k)).
    unfold eat. change (lit_prefix ic (c :: c' :: s') st)
      with (match rest st with
            | x :: tl => if lit_match ic c x
                         then lit_prefix ic (c' :: s') (advance x tl st) else None
            | [] => None
            end).
    destruct (rest st) as [|x tl]; [reflexivity|].
    destruct (lit_match ic c x); [apply IH | reflexivity].
Qed.

Lemma lit_prefix_state_at (s : str) :
  forall pre r st',
    lit_prefix true s (state_at pre r) = Some st' <->
    exists w post, r = w ++ post /\ same_ignoring_case s w
                   /\ st' = state_at (pre ++ w) post.
Proof.
  induction s as [|c s IH]; intros pre r st'; simpl.
  - split.
    + intros H. injection H as <-. exists [], r. rewrite app_nil_r.
      repeat split. constructor.
    + intros (w & post & -> & Hw & ->). inversion Hw; subst.
      now rewrite app_nil_r.
  - destruct r as [|x tl].
    + split; [discriminate|]. intros (w & post & Hr & Hw & _).
      inversion Hw; subst. discriminate.
    + destruct (lit_match true c x) eqn:E.
      * rewrite state_at_advance, IH. split.
        -- intros (w & post & -> & Hw & ->). exists (x :: w), post.
           rewrite <- app_assoc. repeat split. now constructor.
        -- intros (w & post & Hr & Hw & ->). inversion Hw as [|? y ? w' Hy Hw']; subst.
           injection Hr as <- ->. exists w', post.
           rewrite <- app_assoc. repeat split. assumption.
      * split; [discriminate|]. intros (w & post & Hr & Hw & _).
        inversion Hw as [|? y ? w' Hy Hw']; subst. injection Hr as <- _. congruence.
Qed.

Lemma search_from_state_at (ic : bool) (r : regex) (s : str) :
  forall pre,
    is_match (search_from ic r (length pre) (last_char pre) s) = true <->
    exists a b, s = a ++ b /\ is_match (match_here ic r (state_at (pre ++ a) b)) = true.
Proof.
  induction s as [|c s IH]; intros pre; simpl.
  - fold (state_at pre []).
    destruct (match_here ic r (state_at pre [])) as [mo|] eqn:E; simpl.
    + split; [|reflexivity]. intros _. exists [], []. rewrite (app_nil_r pre), E. auto.
    + split; [discriminate|]. intros (a & b & Hs & H).
      destruct a; [|discriminate]. destruct b; [|discriminate].
      rewrite (app_nil_r pre), E in H. assumption.
  - fold (state_at pre (c :: s)).
    destruct (match_here ic r (state_at pre (c :: s))) as [mo|] eqn:E; simpl.
    + split; [|reflexivity]. intros _. exists [], (c :: s). rewrite (app_nil_r pre), E. auto.
    + replace (S (length pre)) with (length (pre ++ [c]))
        by (rewrite length_app; simpl; lia).
      rewrite <- (last_char_snoc pre c), IH. split.
      * intros (a & b & -> & H). exists (c :: a), b.
        rewrite <- app_assoc in H. auto.
      * intros (a & b & Hs & H). destruct a as [|x a].
        -- simpl in Hs. subst b. rewrite (app_nil_r pre), E in H. discriminate.
        -- injection Hs as <- ->. exists a, b. rewrite <- app_assoc. auto.
Qed.

(** The search for a skill succeeds exactly when the skill occurs as a
    whole phrase. *)
Lemma skill_search_whole_phrase (skill text : str) :
  is_match (re_search true (skill_pattern skill) text) = true <->
  whole_phrase skill text.
Proof.
  unfold re_search.
  rewrite (search_from_state_at true (skill_pattern skill) text []).
  unfold whole_phrase. simpl app.
  assert (Hhere : forall pre r,
    is_match (match_here true (skill_pattern skill) (state_at pre r)) = true <->
    exists w post, r = w ++ post /\ same_ignoring_case skill w
                   /\ word_edge (last_char pre) (hd_error r) = true
                   /\ word_edge (last_char (pre ++ w)) (hd_error post) = true).
  { intros pre r. unfold match_here, skill_pattern, re_escape.
    change (m true (Group 0 (Seq [WordB; Str skill; WordB])) (state_at pre r) Some)
      with (if at_boundary (state_at pre r)
            then m true (Str skill) (state_at pre r)
                   (fun st1 => if at_boundary st1
                               then Some (set_cap 0
                                            (firstn (pos st1 - pos (state_at pre r))
                                                    (rest (state_at pre r))) st1)
                               else None)
            else None).
    rewrite m_Str, at_boundary_state_at.
    destruct (word_edge (last_char pre) (hd_error r)) eqn:E1.
    - destruct (lit_prefix true skill (state_at pre r)) as [st1|] eqn:E2.
      + apply lit_prefix_state_at in E2 as (w & post & -> & Hw & ->).
        rewrite at_boundary_state_at.
        destruct (word_edge (last_char (pre ++ w)) (hd_error post)) eqn:E3; simpl.
        * split; [|reflexivity]. intros _. exists w, post. auto.
        * split; [discriminate|]. intros (w' & post' & Hr & Hw' & _ & H3).
          assert (w' = w).
          { clear - Hr Hw Hw'. revert w w' post post' Hr Hw Hw'.
            induction skill as [|c sk IH]; intros w w' post post' Hr Hw Hw';
              inversion Hw; inversion Hw'; subst; [reflexivity|].
            simpl in Hr. injection Hr as <- Hr. f_equal. eapply IH; eassumption. }
          subst w'. apply app_inv_head in Hr. subst post'. congruence.
      + simpl. split; [discriminate|]. intros (w & post & -> & Hw & _ & _).
        assert (exists st', lit_prefix true skill (state_at pre (w ++ post)) = Some st')
          by (eexists; apply lit_prefix_state_at; eauto).
        destruct H as [st' H]. congruence.
    - simpl. split; [discriminate|]. intros (w & post & _ & _ & H & _). discriminate. }
  split.
  - intros (a & b & -> & H). apply Hhere in H as (w & post & -> & Hw & H1 & H2).
    exists a, w, post. auto.
  - intros (pre & w & post & -> & Hw & H1 & H2). exists pre, (w ++ post).
    split; [reflexivity|]. apply Hhere. exists w, post. auto.
Qed.

End SkillDetection.

Lemma set_add_In (x y : str) (s : list str) : In x (set_add y s) <-> In x s \/ x = y.
Proof.
  unfold set_add. destruct (existsb (text_eqb y) s) eqn:E.
  - apply existsb_text_eqb in E. split; [auto|]. intros [H| ->]; assumption.
  - rewrite in_app_iff. simpl.
    split; [intros [H|[<-|[]]]; auto | intros [H| ->]; auto].
Qed.

Lemma set_add_NoDup (y : str) (s : list str) : NoDup s -> NoDup (set_add y s).
Proof.
  intros H. unfold set_add. destruct (existsb (text_eqb y) s) eqn:E; [assumption|].
  apply NoDup_app_remove_l with (l := []). simpl.
  apply (@Permutation_NoDup _ (y :: s)); [apply Permutation_cons_append|].
  constructor; [|assumption]. intros Hin.
  apply existsb_text_eqb in Hin. congruence.
Qed.

(** The inner loop over the phrases of one category. *)
Lemma add_matching_In (f : str -> bool) (l : list str) :
  forall acc x,
    In x (fold_left (fun skills skill => if f skill then set_add skill skills else skills)
                    l acc)
    <-> In x acc \/ (In x l /\ f x = true).
Proof.
  induction l as [|y l IH]; intros acc x; simpl.
  - tauto.
  - rewrite IH. destruct (f y) eqn:E.
    + rewrite set_add_In. split.
      * intros [[H| ->]|[H1 H2]]; auto.
      * intros [H|[[<-|H1] H2]]; auto.
    + split.
      * intros [H|[H1 H2]]; auto.
      * intros [H|[[<-|H1] H2]]; auto. congruence.
Qed.

Lemma add_matching_NoDup (f : str -> bool) (l : list str) :
  forall acc, NoDup acc ->
    NoDup (fold_left (fun skills skill => if f skill then set_add skill skills else skills)
                     l acc).
Proof.
  induction l as [|y l IH]; intros acc H; simpl; [assumption|].
  apply IH. destruct (f y); [now apply set_add_NoDup | assumption].
Qed.

(** The outer loop over the categories. *)
Lemma add_matching_categories_In (f : str -> bool) (cats : list (string * list str)) :
  forall acc x,
    In x (fold_left
            (fun skills '(category, skill_list) =>
               fold_left (fun skills skill => if f skill then set_add skill skills else skills)
                 skill_list skills)
            cats acc)
    <-> In x acc \/ (In x (flat_map snd cats) /\ f x = true).
Proof.
  induction cats as [|[c sl] cats IH]; intros acc x; simpl.
  - tauto.
  - rewrite IH, add_matching_In, in_app_iff. tauto.
Qed.

Lemma add_matching_categories_NoDup (f : str -> bool) (cats : list (string * list str)) :
  forall acc, NoDup acc ->
    NoDup (fold_left
             (fun skills '(category, skill_list) =>
                fold_left (fun skills skill => if f skill then set_add skill skills else skills)
                  skill_list skills)
             cats acc).
Proof.
  induction cats as [|[c sl] cats IH]; intros acc H; simpl; [assumption|].
  apply IH. now apply add_matching_NoDup.
Qed.

(** [list(s)] holds the elements of the set, each once. *)
Lemma list_of_set_In {SO : set_order} (x : str) (s : list str) :
  In x (list_of_set s) <-> In x s.
Proof.
  split; apply Permutation_in;
    [apply list_of_set_perm | apply Permutation_sym, list_of_set_perm].
Qed.

Lemma list_of_set_NoDup {SO : set_order} (s : list str) :
  NoDup s -> NoDup (list_of_set s).
Proof. apply Permutation_NoDup. apply Permutation_sym, list_of_set_perm. Qed.

Section SkillRules.
Context {U : unicode_db} {SO : set_order}.

(** C5. The rule-based detection returns, without repetition, the
    phrases of the taxonomy that occur in the text as whole phrases, up
    to the case of the letters.  Hence "sql" is detected in every text
    that contains "Strong SQL skills", before and after lowering, and
    neither "sql" in "Sqlite" nor "api" in "rapid". *)
Theorem C5_whole_phrase_skill_detection :
  (forall text skill,
     In skill (_extract_skills_rules text)
     <-> In skill all_skill_phrases /\ whole_phrase skill text)
  /\ (forall text, NoDup (_extract_skills_rules text))
  /\ (forall pre post,
        In (txt "sql") (_extract_skills_rules (pre ++ txt "Strong SQL skills" ++ post))
        /\ In (txt "sql")
              (_extract_skills_rules (lower (pre ++ txt "Strong SQL skills" ++ post))))
  /\ ~ In (txt "sql") (_extract_skills_rules (txt "Sqlite"))
  /\ ~ In (txt "api") (_extract_skills_rules (txt "rapid")).
Proof.
  assert (Hspec : forall text skill,
            In skill (_extract_skills_rules text)
            <-> In skill all_skill_phrases /\ whole_phrase skill text).
  { intros text skill. unfold _extract_skills_rules. cbv zeta.
    rewrite list_of_set_In.
    rewrite (add_matching_categories_In
               (fun skill => is_match (re_search true (skill_pattern skill) text))).
    rewrite skill_search_whole_phrase. unfold all_skill_phrases. simpl In. tauto. }
  assert (Hsql : In (txt "sql") all_skill_phrases).
  { apply existsb_text_eqb. vm_compute. reflexivity. }
  assert (Hocc : forall pre mid post,
            (mid = txt "SQL" \/ mid = txt "sql") ->
            whole_phrase (txt "sql") ((pre ++ [32%N]) ++ mid ++ 32%N :: post)).
  { intros pre mid post Hmid. exists (pre ++ [32%N]), mid, (32%N :: post).
    split; [reflexivity|]. split; [|split].
    - destruct Hmid as [-> | ->]; repeat constructor.
    - rewrite last_char_snoc. destruct Hmid as [-> | ->]; vm_compute; reflexivity.
    - destruct Hmid as [-> | ->].
      + change (txt "SQL") with (txt "SQ" ++ [76%N]).
        rewrite app_assoc, last_char_snoc. vm_compute. reflexivity.
      + change (txt "sql") with (txt "sq" ++ [108%N]).
        rewrite app_assoc, last_char_snoc. vm_compute. reflexivity. }
  split; [exact Hspec|]. split; [|split; [|split]].
  - intros text. unfold _extract_skills_rules. cbv zeta.
    apply list_of_set_NoDup.
    apply add_matching_categories_NoDup. constructor.
  - intros pre post. split.
    + apply Hspec. split; [exact Hsql|].
      replace (pre ++ txt "Strong SQL skills" ++ post)
        with ((pre ++ txt "Strong" ++ [32%N]) ++ txt "SQL" ++ 32%N :: txt "skills" ++ post)
        by (rewrite <- !app_assoc; reflexivity).
      replace (pre ++ txt "Strong" ++ [32%N]) with ((pre ++ txt "Strong") ++ [32%N])
        by (now rewrite <- app_assoc).
      apply Hocc. now left.
    + apply Hspec. split; [exact Hsql|].
      unfold lower. rewrite !flat_map_app.
      change (flat_map lower_char (txt "Strong SQL skills"))
        with (txt "strong" ++ [32%N] ++ txt "sql" ++ 32%N :: txt "skills").
      replace (flat_map lower_char pre
               ++ (txt "strong" ++ [32%N] ++ txt "sql" ++ 32%N :: txt "skills")
               ++ flat_map lower_char post)
        with (((flat_map lower_char pre ++ txt "strong") ++ [32%N])
              ++ txt "sql" ++ 32%N :: (txt "skills" ++ flat_map lower_char post))
        by (rewrite <- !app_assoc; reflexivity).
      apply Hocc. now right.
  - intros H. apply (proj1 (list_of_set_In _ _)) in H. vm_compute in H. tauto.
  - intros H. apply (proj1 (list_of_set_In _ _)) in H. vm_compute in H. tauto.
Qed.

End SkillRules.

(** ** Completeness of the matcher

    Whenever the text admits a match after which the continuation
    succeeds, the backtracking search succeeds too. *)

Section Completeness.
Context {U : unicode_db} {SO : set_order}.

Lemma eat_complete (p : char -> bool) (st : mstate) (k : mstate -> option mstate)
    (c : char) (tl : str) (x : mstate) :
  rest st = c :: tl -> p c = true -> k (advance c tl st) = Some x ->
  eat p st k = Some x.
Proof. intros Hr Hp Hk. unfold eat. now rewrite Hr, Hp. Qed.

Lemma m_complete (ic : bool) (r : regex) :
  forall (st st' : mstate) (k : mstate -> option mstate) (x : mstate),
    matches ic r st st' -> k st' = Some x ->
    exists y, m ic r st k = Some y.
Proof.
  induction r as [ | c | items | | | | | r1 IH1 r2 IH2 | r1 IH1 r2 IH2
                 | lo hi r1 IH1 | n r1 IH1 ]; intros st st' k x M Hk.
  - inv_matches M. exists x. exact Hk.
  - inv_matches M. match goal with A : Some _ = Some _ |- _ => injection A as <- end.
    exists x. simpl. eapply eat_complete; eassumption.
  - inv_matches M. match goal with A : Some _ = Some _ |- _ => injection A as <- end.
    exists x. simpl. eapply eat_complete; eassumption.
  - inv_matches M. match goal with A : Some _ = Some _ |- _ => injection A as <- end.
    exists x. simpl. eapply eat_complete; eassumption.
  - inv_matches M. match goal with A : Some _ = Some _ |- _ => injection A as <- end.
    exists x. simpl. eapply eat_complete; eassumption.
  - inv_matches M. exists x. simpl.
    match goal with B : at_boundary _ = true |- _ => now rewrite B end.
  - inv_matches M. exists x. simpl.
    match goal with B : pos _ = 0 |- _ => now rewrite B end.
  - inv_matches M.
    match goal with
    | M1 : matches _ r1 _ ?s1, M2 : matches _ r2 ?s1 _ |- _ =>
        destruct (IH2 _ _ _ _ M2 Hk) as [y Hy];
        exact (IH1 _ _ (fun st1 => m ic r2 st1 k) _ M1 Hy)
    end.
  - simpl. destruct (m ic r1 st k) as [y|] eqn:E; [now exists y|].
    inv_matches M.
    + match goal with M1 : matches _ r1 _ _ |- _ =>
        destruct (IH1 _ _ _ _ M1 Hk) as [y Hy] end. congruence.
    + match goal with M2 : matches _ r2 _ _ |- _ => exact (IH2 _ _ _ _ M2 Hk) end.
  - inv_matches M.
    match goal with It : iter _ _ _ 0 _ _ |- _ => rename It into Hit end.
    assert (Hrep : forall count a b,
      iter (matches ic r1) lo hi count a b -> k b = Some x ->
      forall fuel, length (rest a) < fuel ->
      exists y,
      (fix rep (fuel count : nat) (st : mstate) {struct fuel} : option mstate :=
         match fuel with
         | O => if Nat.leb lo count then k st else None
         | S fuel' =>
             match
               (if below count hi then
                  m ic r1 st (fun st' =>
                    if Nat.ltb (pos st) (pos st') then rep fuel' (S count) st'
                    else None)
                else None)
             with
             | Some x => Some x
             | None => if Nat.leb lo count then k st else None
             end
         end) fuel count a = Some y).
    { clear st st' Hk Hit. intros count a b Hit.
      induction Hit as [count a Hlo | count a a1 b Hb Hstep Hpos Hrest IH];
        intros Hk fuel Hfuel.
      - destruct fuel as [|fuel]; [lia|].
        apply Nat.leb_le in Hlo.
        match goal with
        | |- exists y, match ?t with _ => _ end = _ => destruct t as [y|]
        end; [now exists y|]. rewrite Hlo. now exists x.
      - destruct fuel as [|fuel]; [lia|].
        rewrite Hb.
        assert (Hlen : length (rest a1) < fuel).
        { destruct (matches_spans ic r1 a a1 Hstep) as (w & Hr & Hp & _).
          rewrite Hr, length_app in Hfuel. lia. }
        destruct (IH Hk fuel Hlen) as [y Hy].
        apply Nat.ltb_lt in Hpos.
        match goal with
        | |- exists y, match m ic r1 a ?kk with _ => _ end = _ =>
            destruct (IH1 a a1 kk y Hstep) as [z Hz];
              [cbv beta; rewrite Hpos; exact Hy|]
        end.
        rewrite Hz. now exists z. }
    apply (Hrep 0 st st' Hit Hk (S (length (rest st)))). lia.
  - inv_matches M.
    match goal with M1 : matches _ r1 _ _ |- _ =>
      exact (IH1 _ _ (fun st1 => k (set_cap n (firstn (pos st1 - pos st) (rest st)) st1))
               _ M1 Hk) end.
Qed.

(** [re.match] succeeds on a text that admits a match from its start. *)
Lemma re_match_complete (ic : bool) (r : regex) (s : str) (st' : mstate) :
  matches ic r (start_state s) st' -> exists mo, re_match ic r s = Some mo.
Proof.
  intros M. unfold re_match, match_here.
  destruct (m_complete ic (Group 0 r) (start_state s) _ Some _
              (matches_group ic 0 r _ _ M) eq_refl) as [y Hy].
  rewrite Hy. eauto.
Qed.

Lemma re_match_sound (ic : bool) (r : regex) (s : str) (mo : match_obj) :
  re_match ic r s = Some mo ->
  exists st', matches ic r (start_state s) st' /\ rest (m_end mo) = rest st'.
Proof.
  intros H. apply match_here_sound in H. inv_matches H.
  eexists. split; [eassumption | reflexivity].
Qed.

End Completeness.

(** ** Section extraction (C6) *)

Lemma firstn_S_nth {A} (d : A) (l : list A) (n : nat) :
  n < length l -> firstn (S n) l = firstn n l ++ [nth n l d].
Proof.
  revert n; induction l as [|x l IH]; intros n H; simpl in H; [lia|].
  destruct n as [|n]; [reflexivity|].
  cbn [firstn nth app]. f_equal. change (firstn (S n) l = firstn n l ++ [nth n l d]).
  apply IH. lia.
Qed.

Lemma enumerate_nth {A} (d : A) (l : list A) (n : nat) :
  n < length l -> nth n (enumerate l) (0, d) = (n, nth n l d).
Proof.
  intros H. unfold enumerate. rewrite combine_nth by (now rewrite length_seq).
  now rewrite seq_nth.
Qed.

Lemma enumerate_length {A} (l : list A) : length (enumerate l) = length l.
Proof. unfold enumerate. rewrite length_combine, length_seq. lia. Qed.

Section Sections.
Context {U : unicode_db} {SO : set_order}.

(** *** [_extract_sections] *)

Section Loop.
Variable lines : list str.
Variable keywords : list str.

Lemma window_after_step (i : nat) :
  window_after lines keywords i = window_step lines keywords (window_before lines keywords i) i.
Proof. destruct i; reflexivity. Qed.

Lemma sections_step_eq (items : list str) (i : nat) :
  sections_step lines keywords (window_before lines keywords i, items) (i, nth i lines [])
  = (window_after lines keywords i, items ++ captured lines keywords i).
Proof.
  rewrite window_after_step. unfold sections_step, captured.
  rewrite window_after_step. unfold window_step.
  fold (line_at lines i). fold (line_at lines (i + 1)).
  fold (is_heading keywords (line_at lines i)).
  fold (starts_with_marker (line_at lines i)). fold (starts_with_marker (line_at lines (i + 1))).
  fold (is_bullet (line_at lines i)). fold (is_numbered (line_at lines i)).
  fold (clean (line_at lines i)).
  destruct (is_heading keywords (line_at lines i)); [now rewrite app_nil_r|].
  set (b' := if window_before lines keywords i && nonempty (line_at lines i)
                && negb (starts_with_marker (line_at lines i))
             then if Nat.ltb i (length lines - 1)
                     && negb (starts_with_marker (line_at lines (i + 1)))
                  then false else window_before lines keywords i
             else window_before lines keywords i).
  destruct (b' && is_bullet (line_at lines i) || is_numbered (line_at lines i));
    [|now rewrite app_nil_r].
  destruct (Nat.ltb 20 (length (clean (line_at lines i)))); [reflexivity|].
  now rewrite app_nil_r.
Qed.

Lemma sections_loop_prefix (n : nat) :
  n <= length lines ->
  fold_left (sections_step lines keywords) (firstn n (enumerate lines)) (false, [])
  = (window_before lines keywords n, flat_map (captured lines keywords) (seq 0 n)).
Proof.
  induction n as [|n IH]; intros Hn; [reflexivity|].
  rewrite (@firstn_S_nth (nat * str) (0, []) (enumerate lines) n)
    by (rewrite enumerate_length; lia).
  rewrite fold_left_app, IH by lia. cbn [fold_left].
  match goal with
  | |- context [nth n (enumerate lines) ?d] =>
      replace (nth n (enumerate lines) d) with (n, nth n lines [])
        by (symmetry; apply (@enumerate_nth str [] lines n); lia)
  end.
  rewrite sections_step_eq.
  rewrite seq_S, flat_map_app. simpl. now rewrite app_nil_r.
Qed.

Lemma window_step_closing (b : bool) (i : nat) :
  window_step lines keywords b i
  = if is_heading keywords (line_at lines i) then true else b && negb (closing_line lines keywords i).
Proof.
  unfold window_step, closing_line.
  destruct (is_heading keywords (line_at lines i)); [reflexivity|].
  destruct b, (nonempty (line_at lines i)), (starts_with_marker (line_at lines i)),
    (Nat.ltb i (length lines - 1)), (starts_with_marker (line_at lines (i + 1)));
    reflexivity.
Qed.

(** The state of the loop, read declaratively. *)
Lemma window_after_iff (i : nat) :
  window_after lines keywords i = true <->
  exists j, j <= i /\ is_heading keywords (line_at lines j) = true
            /\ forall k, j < k -> k <= i -> closing_line lines keywords k = false.
Proof.
  induction i as [|i IH].
  - simpl. rewrite window_step_closing.
    destruct (is_heading keywords (line_at lines 0)) eqn:E.
    + split; [|reflexivity]. intros _. exists 0. repeat split; [lia | assumption|].
      intros k H1 H2. lia.
    + simpl. split; [discriminate|]. intros (j & Hj & Hh & _).
      assert (j = 0) by lia. subst. congruence.
  - simpl. rewrite window_step_closing.
    destruct (is_heading keywords (line_at lines (S i))) eqn:E.
    + split; [|reflexivity]. intros _. exists (S i). repeat split; [lia | assumption|].
      intros k H1 H2. lia.
    + rewrite andb_true_iff, negb_true_iff, IH. split.
      * intros [(j & Hj & Hh & Hk) Hc]. exists j. repeat split; [lia | assumption|].
        intros k H1 H2. destruct (Nat.eq_dec k (S i)) as [->|Hne]; [assumption|].
        apply Hk; lia.
      * intros (j & Hj & Hh & Hk).
        assert (j <> S i) by (intros ->; congruence).
        split.
        -- exists j. repeat split; [lia | assumption|]. intros k H1 H2. apply Hk; lia.
        -- apply Hk; lia.
Qed.

Lemma window_after_open (i : nat) :
  is_heading keywords (line_at lines i) = false ->
  (window_after lines keywords i = true <-> window_open lines keywords i).
Proof.
  intros Hh. rewrite window_after_iff. unfold window_open. split.
  - intros (j & Hj & Hhj & Hk). exists j. repeat split; try assumption.
    assert (j <> i) by (intros ->; congruence). lia.
  - intros (j & Hj & Hhj & Hk). exists j. repeat split; try assumption. lia.
Qed.

End Loop.

End Sections.

(** *** The marker is stripped *)

Lemma iter_mono (R R' : mstate -> mstate -> Prop) (lo : nat) (hi : option nat)
    (count : nat) (a b : mstate) :
  (forall x y, R x y -> R' x y) -> iter R lo hi count a b -> iter R' lo hi count a b.
Proof.
  intros H It. induction It as [count a Hlo | count a a1 b Hb Hstep Hpos Hrest IH].
  - now constructor.
  - eapply iter_more; eauto.
Qed.

Lemma iter_snoc (R : mstate -> mstate -> Prop) (lo count : nat) (a b b' : mstate) :
  iter R lo None count a b -> R b b' -> pos b < pos b' -> iter R lo None count a b'.
Proof.
  intros It Hstep Hpos.
  induction It as [count a Hlo | count a a1 b Hb Hs Hp Hrest IH].
  - eapply iter_more; [reflexivity | exact Hstep | exact Hpos |]. constructor. lia.
  - eapply iter_more; eauto.
Qed.

Section MarkerStripped.
Context {U : unicode_db} {SO : set_order}.

(** One or more characters of a one-character pattern. *)
Lemma plus_spans (ic : bool) (r : regex) (p : char -> bool) (st st' : mstate) :
  accepts ic r = Some p -> matches ic (Plus r) st st' ->
  spans (fun w => w <> [] /\ Forall (fun c => p c = true) w) st st'.
Proof.
  intros Hacc M. unfold Plus in M. inv_matches M.
  match goal with It : iter _ _ _ 0 _ _ |- _ => inversion It; subst; clear It end;
    [lia|].
  match goal with M1 : matches ic r st ?s1, It : iter _ _ _ 1 ?s1 _ |- _ =>
    pose proof (proj1 (matches_accepts ic r p st s1 Hacc M1)) as Hfirst;
    apply iter_spans with (P := fun w => exists x, w = [x] /\ p x = true)
                          (Q := Forall (fun c => p c = true)) in It
  end.
  - eapply spans_trans; [|exact Hfirst|eassumption].
    intros u v (x & -> & Hx) Hv. split; [discriminate|]. now constructor.
  - intros a b Hab. exact (proj1 (matches_accepts ic r p a b Hacc Hab)).
  - constructor.
  - intros u v (x & -> & Hx) Hv. now constructor.
Qed.

(** A character of a bullet, a digit or a full stop is a marker
    character. *)
Lemma matches_marker_class (r : regex) (st st' : mstate) :
  (r = Class [CChar (ch "-"); CChar BULLET; CChar (ch "*")] \/ r = Digit
   \/ r = Lit (ch ".")) ->
  matches false r st st' -> matches false marker_class st st' /\ pos st < pos st'.
Proof.
  intros Hr M.
  assert (Hacc : exists p, accepts false r = Some p
                           /\ forall x, p x = true -> is_marker x = true).
  { destruct Hr as [-> | [-> | ->]]; eexists; (split; [reflexivity|]); intros x Hx.
    - cbn [existsb item_match] in Hx.
      apply orb_true_iff in Hx as [Hx|Hx];
        [|apply orb_true_iff in Hx as [Hx|Hx];
          [|apply orb_true_iff in Hx as [Hx|Hx]; [|discriminate]]];
        apply N.eqb_eq in Hx; subst x; reflexivity.
    - unfold is_marker. cbn [existsb item_match]. rewrite Hx.
      now rewrite !orb_true_r.
    - unfold lit_match in Hx. cbn [andb] in Hx. rewrite orb_false_r in Hx.
      apply N.eqb_eq in Hx. subst x. reflexivity. }
  destruct Hacc as (p & Hacc & Hp).
  inversion M; subst; try (simpl in Hacc; discriminate Hacc).
  match goal with A : accepts false r = Some _ |- _ =>
    rewrite Hacc in A; injection A as <- end.
  split; [|simpl; lia].
  eapply matches_char; [reflexivity | eassumption |].
  match goal with Hx : p _ = true |- _ => exact (Hp _ Hx) end.
Qed.

(** A bulleted or numbered line starts with a marker run that
    [re_marker_run] can match. *)
Lemma marker_run_matches (line : str) :
  is_bullet line = true \/ is_numbered line = true ->
  exists st', matches false re_marker_run (start_state line) st'.
Proof.
  unfold is_bullet, is_numbered. intros [H|H].
  - destruct (re_match false re_bullet line) as [mo|] eqn:E; [|discriminate].
    apply re_match_sound in E as (st' & M & _).
    unfold re_bullet in M. simpl Seq in M. inv_matches M.
    match goal with M2 : matches _ (Cat _ _) _ _ |- _ => inv_matches M2 end.
    match goal with Mb : matches _ Bol _ _ |- _ => inv_matches Mb end.
    match goal with Mc : matches _ (Class _) _ ?s1 |- _ =>
      destruct (matches_marker_class _ _ s1 (or_introl eq_refl) Mc) as [Mm Hpos] end.
    exists st'. unfold re_marker_run. simpl Seq.
    eapply matches_cat; [now constructor|].
    eapply matches_cat; [|eassumption].
    apply matches_repeat. eapply iter_more; [reflexivity | exact Mm | exact Hpos|].
    constructor. lia.
  - destruct (re_match false re_numbered line) as [mo|] eqn:E; [|discriminate].
    apply re_match_sound in E as (st' & M & _).
    unfold re_numbered in M. simpl Seq in M. inv_matches M.
    match goal with M2 : matches _ (Cat _ _) _ _ |- _ => inv_matches M2 end.
    match goal with M3 : matches _ (Cat _ _) _ _ |- _ => inv_matches M3 end.
    match goal with Mb : matches _ Bol _ _ |- _ => inv_matches Mb end.
    match goal with Md : matches _ (Plus Digit) _ _ |- _ =>
      unfold Plus in Md; inv_matches Md end.
    match goal with Ml : matches _ (Lit _) ?s1 ?s2 |- _ =>
      destruct (matches_marker_class _ s1 s2 (or_intror (or_intror eq_refl)) Ml)
        as [Mm Hpos] end.
    exists st'. unfold re_marker_run. simpl Seq.
    eapply matches_cat; [now constructor|].
    eapply matches_cat; [|eassumption].
    apply matches_repeat. eapply iter_snoc; [|exact Mm | exact Hpos].
    eapply iter_mono; [|eassumption].
    intros x y Hxy. exact (proj1 (matches_marker_class _ x y (or_intror (or_introl eq_refl)) Hxy)).
Qed.

Lemma clean_marker_stripped (line : str) :
  is_bullet line = true \/ is_numbered line = true ->
  marker_stripped line (clean line).
Proof.
  intros H. destruct (marker_run_matches line H) as [st0 M0].
  destruct (re_match_complete false re_marker_run line st0 M0) as [mo Hmo].
  unfold clean, re_sub_anchored. rewrite Hmo.
  apply re_match_sound in Hmo as (st' & M & ->).
  unfold re_marker_run in M. simpl Seq in M. inv_matches M.
  match goal with M2 : matches _ (Cat _ _) _ _ |- _ => inv_matches M2 end.
  match goal with Mb : matches _ Bol _ _ |- _ => inv_matches Mb end.
  match goal with Mm : matches _ (Plus marker_class) _ _ |- _ =>
    apply (plus_spans false marker_class _ _ _ eq_refl) in Mm;
    destruct Mm as (marks & Hr1 & _ & Hne1 & Hall1) end.
  match goal with Ms : matches _ (Plus Space) _ _ |- _ =>
    apply (plus_spans false Space _ _ _ eq_refl) in Ms;
    destruct Ms as (blanks & Hr2 & _ & Hne2 & Hall2) end.
  exists marks, blanks. simpl in Hr1. rewrite Hr1, Hr2.
  repeat split; assumption.
Qed.

End MarkerStripped.

(** *** [_extract_nice_to_have] *)

Section NiceToHave.
Context {U : unicode_db} {SO : set_order}.

Lemma lstrip_snoc (a : str) (x : char) :
  lstrip (a ++ [x])
  = match lstrip a with
    | [] => if isspace x then [] else [x]
    | y :: a' => (y :: a') ++ [x]
    end.
Proof.
  induction a as [|y a IH]; simpl; [reflexivity|].
  destruct (isspace y); [exact IH | reflexivity].
Qed.

Lemma rstrip_cons (x : char) (t : str) :
  rstrip (x :: t)
  = match rstrip t with
    | [] => if isspace x then [] else [x]
    | _ :: _ => x :: rstrip t
    end.
Proof.
  unfold rstrip. simpl rev. rewrite lstrip_snoc.
  destruct (lstrip (rev t)) as [|y a'] eqn:E.
  - simpl. now destruct (isspace x).
  - rewrite rev_app_distr. simpl rev at 1. cbn [app].
    destruct (rev (y :: a')) as [|z l] eqn:Er; [|reflexivity].
    apply (f_equal (@length char)) in Er. rewrite length_rev in Er. discriminate.
Qed.

Lemma bullet_class_char (c : char) :
  existsb (fun i => item_match i c) [CChar (ch "-"); CChar BULLET; CChar (ch "*")]
  = true ->
  c = ch "-" \/ c = BULLET \/ c = ch "*".
Proof.
  intros H.
  change (N.eqb (ch "-") c || (N.eqb BULLET c || (N.eqb (ch "*") c || false)) = true)
    in H.
  rewrite orb_false_r in H.
  apply orb_true_iff in H as [H|H]; [|apply orb_true_iff in H as [H|H]];
    apply N.eqb_eq in H; auto.
Qed.

(** A line that the bullet test accepts as it stands is, once trimmed,
    either the bare marker or again a bulleted line. *)
Lemma strip_bullet (raw : str) :
  is_bullet raw = true ->
  (exists c, strip raw = [c] /\ clean [c] = [c]) \/ is_bullet (strip raw) = true.
Proof.
  unfold is_bullet at 1. intros H.
  destruct (re_match false re_bullet raw) as [mo|] eqn:E; [|discriminate]. clear H.
  apply re_match_sound in E as (st' & M & _).
  unfold re_bullet in M. simpl Seq in M. inv_matches M.
  match goal with M2 : matches _ (Cat _ _) _ _ |- _ => inv_matches M2 end.
  match goal with Mb : matches _ Bol _ _ |- _ => inv_matches Mb end.
  match goal with Mc : matches _ (Class _) _ _ |- _ =>
    inversion Mc; subst; clear Mc end.
  match goal with A : accepts _ _ = Some _ |- _ =>
    cbn [accepts] in A; injection A as <- end.
  match goal with Hx : _ ?c = true |- _ => rename Hx into Hclass end.
  cbv beta in Hclass.
  match goal with Ms : matches _ (Plus Space) _ _ |- _ =>
    apply (plus_spans false Space _ _ _ eq_refl) in Ms;
    destruct Ms as (blanks & Hr2 & _ & Hne2 & Hall2) end.
  match goal with Hr : rest (start_state raw) = ?c :: ?tl |- _ =>
    simpl in Hr; subst raw; rename c into c0; rename tl into tl0 end.
  simpl in Hr2. subst tl0.
  destruct blanks as [|s blanks]; [contradiction|].
  inversion Hall2 as [|? ? Hs _]; subst.
  assert (Hc : c0 = ch "-" \/ c0 = BULLET \/ c0 = ch "*").
  { now apply bullet_class_char. }
  assert (Hnsp : isspace c0 = false).
  { destruct Hc as [-> | [-> | ->]]; reflexivity. }
  unfold strip. cbn [app lstrip]. rewrite Hnsp.
  rewrite rstrip_cons, rstrip_cons, Hs.
  destruct (rstrip (blanks ++ rest st')) as [|y t'] eqn:Et.
  - left. rewrite Hnsp. exists c0. split; [reflexivity|].
    destruct Hc as [-> | [-> | ->]]; vm_compute; reflexivity.
  - right. unfold is_bullet.
    assert (Mx : exists st'', matches false re_bullet
                                (start_state (c0 :: s :: y :: t')) st'').
    { eexists. unfold re_bullet. simpl Seq.
      eapply matches_cat; [now constructor|].
      eapply matches_cat.
      - eapply matches_char; [reflexivity | reflexivity |].
        cbn [existsb item_match].
        destruct Hc as [-> | [-> | ->]]; reflexivity.
      - apply matches_repeat.
        eapply iter_more; [reflexivity | | | apply iter_stop; lia].
        + eapply matches_char; [reflexivity | reflexivity | exact Hs].
        + simpl. lia. }
    destruct Mx as [st'' Mx].
    destruct (re_match_complete false re_bullet _ st'' Mx) as [mo' Hmo'].
    now rewrite Hmo'.
Qed.

Section NiceLoop.
Variable lines : list str.

Lemma nice_window_S (n : nat) :
  n < length lines ->
  nice_window lines (S n) = nice_window lines n || is_heading nice_keywords (nth n lines []).
Proof.
  intros H. unfold nice_window.
  rewrite (@firstn_S_nth str [] lines n H), existsb_app. simpl.
  now rewrite orb_false_r.
Qed.

Lemma nice_window_iff (n : nat) :
  n <= length lines ->
  (nice_window lines n = true <->
   exists j, j < n /\ is_heading nice_keywords (nth j lines []) = true).
Proof.
  induction n as [|n IH]; intros Hn.
  - unfold nice_window. simpl. split; [discriminate|]. intros (j & Hj & _). lia.
  - rewrite nice_window_S by lia. rewrite orb_true_iff, IH by lia. split.
    + intros [(j & Hj & Hh)|Hh]; [exists j | exists n]; split; try assumption; lia.
    + intros (j & Hj & Hh). destruct (Nat.eq_dec j n) as [->|Hne]; [now right|].
      left. exists j. split; [lia | assumption].
Qed.

Lemma nice_step_eq (items : list str) (i : nat) :
  i < length lines ->
  nice_step (nice_window lines i, items) (nth i lines [])
  = (nice_window lines (S i), items ++ nice_captured lines i).
Proof.
  intros Hi. rewrite nice_window_S by assumption.
  unfold nice_step, nice_captured.
  fold (is_heading nice_keywords (nth i lines [])).
  fold (is_bullet (nth i lines [])). fold (clean (strip (nth i lines []))).
  destruct (is_heading nice_keywords (nth i lines []));
    [now rewrite orb_true_r, app_nil_r|].
  rewrite orb_false_r.
  destruct (nice_window lines i && is_bullet (nth i lines [])); [|now rewrite app_nil_r].
  destruct (Nat.ltb 10 (length (clean (strip (nth i lines []))))); [reflexivity|].
  now rewrite app_nil_r.
Qed.

Lemma nice_loop_prefix (n : nat) :
  n <= length lines ->
  fold_left nice_step (firstn n lines) (false, [])
  = (nice_window lines n, flat_map (nice_captured lines) (seq 0 n)).
Proof.
  induction n as [|n IH]; intros Hn; [reflexivity|].
  rewrite (@firstn_S_nth str [] lines n) by lia.
  rewrite fold_left_app, IH by lia. cbn [fold_left].
  rewrite nice_step_eq by lia.
  rewrite seq_S, flat_map_app. simpl. now rewrite app_nil_r.
Qed.

End NiceLoop.

Lemma extract_nice_to_have_eq (text : str) :
  _extract_nice_to_have text
  = firstn 10 (flat_map (nice_captured (split_on LF text))
                        (seq 0 (length (split_on LF text)))).
Proof.
  unfold _extract_nice_to_have.
  rewrite <- (firstn_all (split_on LF text)) at 1.
  now rewrite nice_loop_prefix.
Qed.

Lemma extract_sections_eq (text : str) (keywords : list str) :
  _extract_sections text keywords
  = firstn 20 (flat_map (captured (split_on LF text) keywords)
                        (seq 0 (length (split_on LF text)))).
Proof.
  unfold _extract_sections.
  rewrite <- (firstn_all (enumerate (split_on LF text))), enumerate_length.
  now rewrite sections_loop_prefix.
Qed.

End NiceToHave.

Lemma In_firstn {A} (x : A) (n : nat) (l : list A) : In x (firstn n l) -> In x l.
Proof.
  intros H. rewrite <- (firstn_skipn n l). apply in_or_app. now left.
Qed.

Lemma firstn_short {A} (n : nat) (l : list A) :
  length (firstn n l) < n -> firstn n l = l.
Proof.
  intros H. rewrite length_firstn in H. apply firstn_all2. lia.
Qed.

Section SectionExtraction.
Context {U : unicode_db} {SO : set_order}.

Lemma captured_In (lines keywords : list str) (i : nat) (item : str) :
  In item (captured lines keywords i) <->
  is_heading keywords (line_at lines i) = false
  /\ (window_after lines keywords i && is_bullet (line_at lines i)
      || is_numbered (line_at lines i)) = true
  /\ 20 < length (clean (line_at lines i))
  /\ item = firstn 200 (clean (line_at lines i)).
Proof.
  unfold captured.
  destruct (is_heading keywords (line_at lines i)).
  { simpl. split; [tauto | intros (H & _); discriminate]. }
  destruct (window_after lines keywords i && is_bullet (line_at lines i)
            || is_numbered (line_at lines i)).
  2:{ simpl. split; [tauto | intros (_ & H & _); discriminate]. }
  destruct (Nat.ltb 20 (length (clean (line_at lines i)))) eqn:E.
  - apply Nat.ltb_lt in E. simpl. split.
    + intros [<-|[]]. auto.
    + intros (_ & _ & _ & ->). now left.
  - apply Nat.ltb_ge in E. simpl. split; [tauto|]. intros (_ & _ & H & _). lia.
Qed.

Lemma nice_captured_In (lines : list str) (i : nat) (item : str) :
  In item (nice_captured lines i) <->
  is_heading nice_keywords (nth i lines []) = false
  /\ nice_window lines i = true
  /\ is_bullet (nth i lines []) = true
  /\ 10 < length (clean (strip (nth i lines [])))
  /\ item = firstn 200 (clean (strip (nth i lines []))).
Proof.
  unfold nice_captured. cbv zeta.
  destruct (is_heading nice_keywords (nth i lines [])).
  { simpl. split; [tauto | intros (H & _); discriminate]. }
  destruct (nice_window lines i).
  2:{ simpl. split; [tauto | intros (_ & H & _); discriminate]. }
  destruct (is_bullet (nth i lines [])).
  2:{ simpl. split; [tauto | intros (_ & _ & H & _); discriminate]. }
  destruct (Nat.ltb 10 (length (clean (strip (nth i lines []))))) eqn:E.
  - apply Nat.ltb_lt in E. simpl. split.
    + intros [<-|[]]. auto.
    + intros (_ & _ & _ & _ & ->). now left.
  - apply Nat.ltb_ge in E. simpl. split; [tauto|]. intros (_ & _ & _ & H & _). lia.
Qed.

(** What the two extractions return.  Responsibilities and
    qualifications: a heading line opens the window, and the window
    closes at a line that is not empty, is not a heading and does not
    start with a marker character, when it is not the last line and the
    next line does not start with a marker character either.  Every item
    comes from a line that is bulleted while the window is open, or that
    is numbered; every bulleted or numbered line met while the window is
    open yields its item, as long as the list is not full.
    Nice-to-have: a heading line opens a window that never closes, and
    exactly the lines that start with a bullet marker after a heading
    yield items; numbered lines yield none.  In both, the item is the
    line without its marker run and the blanks after it, kept only when
    longer than 20 (nice-to-have: 10) characters and cut to 200, and the
    list is cut to 20 (nice-to-have: 10) items. *)
Lemma section_extraction_characterised :
  forall text : str,
    let lines := split_on LF text in
    (forall keywords,
       let items := _extract_sections text keywords in
       length items <= 20
       /\ Forall (fun item => length item <= 200) items
       /\ (forall item, In item items ->
             exists i, i < length lines
               /\ is_heading keywords (line_at lines i) = false
               /\ ((is_bullet (line_at lines i) = true /\ window_open lines keywords i)
                   \/ is_numbered (line_at lines i) = true)
               /\ marker_stripped (line_at lines i) (clean (line_at lines i))
               /\ 20 < length (clean (line_at lines i))
               /\ item = firstn 200 (clean (line_at lines i)))
       /\ (forall i, i < length lines ->
             is_heading keywords (line_at lines i) = false ->
             is_bullet (line_at lines i) = true \/ is_numbered (line_at lines i) = true ->
             window_open lines keywords i ->
             20 < length (clean (line_at lines i)) ->
             length items < 20 ->
             In (firstn 200 (clean (line_at lines i))) items))
    /\ (let items := _extract_nice_to_have text in
        length items <= 10
        /\ Forall (fun item => length item <= 200) items
        /\ (forall item, In item items ->
              exists i, i < length lines
                /\ is_heading nice_keywords (nth i lines []) = false
                /\ is_bullet (nth i lines []) = true
                /\ (exists j, j < i /\ is_heading nice_keywords (nth j lines []) = true)
                /\ marker_stripped (strip (nth i lines [])) (clean (strip (nth i lines [])))
                /\ 10 < length (clean (strip (nth i lines [])))
                /\ item = firstn 200 (clean (strip (nth i lines []))))
        /\ (forall i, i < length lines ->
              is_heading nice_keywords (nth i lines []) = false ->
              is_bullet (nth i lines []) = true ->
              (exists j, j < i /\ is_heading nice_keywords (nth j lines []) = true) ->
              10 < length (clean (strip (nth i lines []))) ->
              length items < 10 ->
              In (firstn 200 (clean (strip (nth i lines [])))) items)).
Proof.
  intros text lines. split.
  - intros keywords items. unfold items. rewrite extract_sections_eq. fold lines.
    set (all := flat_map (captured lines keywords) (seq 0 (length lines))).
    assert (Hall : forall item, In item all ->
              exists i, i < length lines /\ In item (captured lines keywords i)).
    { intros item H. apply in_flat_map in H as (i & Hi & H).
      apply in_seq in Hi. exists i. split; [lia | assumption]. }
    split; [apply firstn_le_length|]. split; [|split].
    + apply Forall_forall. intros item H. apply In_firstn, Hall in H as (i & _ & H).
      apply captured_In in H as (_ & _ & _ & ->). apply firstn_le_length.
    + intros item H. apply In_firstn, Hall in H as (i & Hi & H).
      apply captured_In in H as (Hh & Hc & Hlen & ->).
      exists i. split; [assumption|]. split; [assumption|].
      assert (Hkind : (is_bullet (line_at lines i) = true /\ window_open lines keywords i)
                      \/ is_numbered (line_at lines i) = true).
      { apply orb_true_iff in Hc as [Hc|Hc]; [left | now right].
        apply andb_true_iff in Hc as [Hw Hb]. split; [assumption|].
        now apply window_after_open. }
      split; [exact Hkind|]. split; [|split; [assumption | reflexivity]].
      apply clean_marker_stripped. tauto.
    + intros i Hi Hh Hkind Hopen Hlen Hfull.
      rewrite (firstn_short 20 all Hfull). unfold all.
      apply in_flat_map. exists i. split; [apply in_seq; lia|].
      apply captured_In. repeat split; try assumption.
      apply (window_after_open lines keywords i Hh) in Hopen. rewrite Hopen.
      destruct Hkind as [-> | ->]; [reflexivity | apply orb_true_r].
  - intros items. unfold items. rewrite extract_nice_to_have_eq. fold lines.
    set (all := flat_map (nice_captured lines) (seq 0 (length lines))).
    assert (Hall : forall item, In item all ->
              exists i, i < length lines /\ In item (nice_captured lines i)).
    { intros item H. apply in_flat_map in H as (i & Hi & H).
      apply in_seq in Hi. exists i. split; [lia | assumption]. }
    split; [apply firstn_le_length|]. split; [|split].
    + apply Forall_forall. intros item H. apply In_firstn, Hall in H as (i & _ & H).
      apply nice_captured_In in H as (_ & _ & _ & _ & ->). apply firstn_le_length.
    + intros item H. apply In_firstn, Hall in H as (i & Hi & H).
      apply nice_captured_In in H as (Hh & Hw & Hb & Hlen & ->).
      exists i. repeat split; try assumption.
      * apply nice_window_iff; [lia | assumption].
      * destruct (strip_bullet _ Hb) as [(c & Es & Ec)|Hb'].
        -- rewrite Es, Ec in Hlen. simpl in Hlen. lia.
        -- apply clean_marker_stripped. now left.
    + intros i Hi Hh Hb Hhead Hlen Hfull.
      rewrite (firstn_short 10 all Hfull). unfold all.
      apply in_flat_map. exists i. split; [apply in_seq; lia|].
      apply nice_captured_In. repeat split; try assumption.
      apply nice_window_iff; [lia | assumption].
Qed.

(** C6.  The items have their marker stripped, are longer than 20
    (nice-to-have: 10) characters and cut to 200, and the lists are cut
    to 20 (nice-to-have: 10) items.  But the window does not rule the
    capture as the claim has it.  In [_extract_sections] the test
    [in_section and bullet or numbered] reads as [(in_section and
    bullet) or numbered]: a numbered line is captured wherever it
    stands, window or no window.  A text with no heading at all and one
    numbered line so yields that line, as a responsibility and as a
    qualification, where the claim captures nothing.  And the window of
    [_extract_nice_to_have] never closes: the bullet that follows two
    lines of plain text is captured, where the claim has the window
    closed. *)
Theorem C6_numbered_line_captured_outside_window :
  (forall (text : str) (keywords : list str) (i : nat),
     let lines := split_on LF text in
     let items := _extract_sections text keywords in
     (i < length lines ->
      is_heading keywords (line_at lines i) = false ->
      is_numbered (line_at lines i) = true ->
      20 < length (clean (line_at lines i)) ->
      length items < 20 ->
      In (firstn 200 (clean (line_at lines i))) items)
     /\ length items <= 20
     /\ Forall (fun item => length item <= 200) items)
  /\ (forall i, window_open (split_on LF numbered_without_heading)
                  responsibilities_keywords i -> False)
  /\ _extract_sections numbered_without_heading responsibilities_keywords
     = [txt "Send your application through our careers page"]
  /\ claimed_extraction 20 20 responsibilities_keywords numbered_without_heading = []
  /\ _extract_sections numbered_without_heading qualifications_keywords
     = [txt "Send your application through our careers page"]
  /\ claimed_extraction 20 20 qualifications_keywords numbered_without_heading = []
  /\ _extract_nice_to_have nice_then_prose
     = [txt "Experience with retail customers"; txt "Send your application by email"]
  /\ claimed_extraction 10 10 nice_keywords nice_then_prose
     = [txt "Experience with retail customers"].
Proof.
  split; [|split].
  - intros text keywords i lines items. split; [|split].
    + intros Hi Hh Hn Hlen Hfull. unfold items in *.
      rewrite extract_sections_eq in *. fold lines in Hfull |- *.
      rewrite (firstn_short 20 _ Hfull).
      apply in_flat_map. exists i. split; [apply in_seq; lia|].
      apply captured_In. repeat split; try assumption.
      rewrite Hn. apply orb_true_r.
    + unfold items. rewrite extract_sections_eq. apply firstn_le_length.
    + unfold items. rewrite extract_sections_eq. fold lines.
      apply Forall_forall. intros item H. apply In_firstn in H.
      apply in_flat_map in H as (j & _ & H).
      apply captured_In in H as (_ & _ & _ & ->). apply firstn_le_length.
  - intros i (j & Hj & Hh & _).
    assert (Hno : forall k, is_heading responsibilities_keywords
                              (line_at (split_on LF numbered_without_heading) k)
                            = false).
    { intros [|[|k]]; vm_compute; try reflexivity.
      destruct k; reflexivity. }
    rewrite Hno in Hh. discriminate.
  - repeat split; vm_compute; reflexivity.
Qed.

End SectionExtraction.

(* ================================================================== *)
(** * Part IV: further properties of the code *)
(* ================================================================== *)

(** ** Patterns as sets of texts *)

Section Language.
Context {U : unicode_db} {SO : set_order}.

Lemma iter_lang (ic : bool) (r : regex) (lo : nat) (hi : option nat) :
  (forall st st', matches ic r st st' -> spans (lang ic r) st st') ->
  forall count st st',
    iter (matches ic r) lo hi count st st' ->
    spans (fun w => exists ws, w = concat ws
                     /\ Forall (fun u => u <> [] /\ lang ic r u) ws
                     /\ lo <= count + length ws
                     /\ match hi with
                        | Some h => ws = [] \/ count + length ws <= h
                        | None => True
                        end)
          st st'.
Proof.
  intros Hr count st st' H.
  induction H as [count st Hlo | count st st1 st2 Hb Hstep Hpos Hrest IH].
  - apply spans_refl. exists []. simpl. repeat split; [constructor | lia |].
    destruct hi; auto.
  - apply Hr in Hstep. destruct Hstep as (u & Hu1 & Hu2 & Hu3).
    destruct IH as (v & Hv1 & Hv2 & ws & -> & Hws & Hlo & Hhi).
    exists (u ++ concat ws). rewrite Hu1, Hv1, <- app_assoc, length_app.
    split; [reflexivity|]. split; [lia|].
    exists (u :: ws). simpl. repeat split.
    + constructor; [|assumption]. split; [|assumption].
      intros ->. simpl in Hu2. lia.
    + lia.
    + destruct hi as [h|]; [|exact I]. right.
      destruct Hhi as [-> | Hhi]; simpl in *.
      * unfold below in Hb. apply Nat.ltb_lt in Hb. lia.
      * lia.
Qed.

(** A match of a pattern that looks at the text alone consumes a text of
    its language. *)
Lemma lang_sound (ic : bool) (r : regex) :
  context_free r = true ->
  forall st st', matches ic r st st' -> spans (lang ic r) st st'.
Proof.
  induction r as [ | c | items | | | | | r1 IH1 r2 IH2 | r1 IH1 r2 IH2
                 | lo hi r1 IH1 | n r1 IH1 ]; simpl; intros Hcf st st' H.
  all: try discriminate Hcf.
  all: try (solve [ refine (proj1 (matches_accepts _ _ _ _ _ _ H)); reflexivity ]).
  - inv_matches H. now apply spans_refl.
  - apply andb_prop in Hcf as [H1 H2]. inv_matches H.
    eapply spans_trans; [|eapply IH1; eassumption|eapply IH2; eassumption].
    intros u v Hu Hv. now exists u, v.
  - apply andb_prop in Hcf as [H1 H2].
    inv_matches H; (eapply spans_weaken; [|eauto]); simpl; auto.
  - inv_matches H.
    match goal with I : iter _ _ _ _ _ _ |- _ =>
      apply (iter_lang ic r1 lo hi (IH1 Hcf)) in I; rename I into It end.
    eapply spans_weaken; [|exact It].
    intros w (ws & -> & Hws & Hlo & Hhi). exists ws. repeat split; try assumption.
    destruct hi as [h|]; [|exact I]. destruct Hhi as [-> | Hhi]; simpl; lia.
  - inv_matches H. apply spans_set_cap. now apply IH1.
Qed.

Lemma lang_iter (ic : bool) (r : regex) (lo : nat) (hi : option nat) :
  (forall w, lang ic r w -> forall st t, rest st = w ++ t ->
     exists st', matches ic r st st' /\ rest st' = t /\ pos st' = pos st + length w) ->
  forall ws count st t,
    Forall (fun u => u <> [] /\ lang ic r u) ws ->
    lo <= count + length ws ->
    match hi with Some h => count + length ws <= h | None => True end ->
    rest st = concat ws ++ t ->
    exists st', iter (matches ic r) lo hi count st st' /\ rest st' = t
                /\ pos st' = pos st + length (concat ws).
Proof.
  intros Hr ws. induction ws as [|u ws IH]; intros count st t Hws Hlo Hhi Hrest.
  - exists st. simpl in *. split; [constructor; lia|]. split; [assumption | lia].
  - inversion Hws as [|? ? [Hne Hu] Hws']; subst. simpl in Hrest.
    rewrite <- app_assoc in Hrest.
    destruct (Hr u Hu st _ Hrest) as (st1 & M1 & Hr1 & Hp1).
    destruct (IH (S count) st1 t Hws') as (st' & It & Hr' & Hp').
    + simpl in Hlo. lia.
    + destruct hi; [simpl in Hhi; lia | exact I].
    + assumption.
    + exists st'. split; [|split; [assumption|]].
      * eapply iter_more; [| exact M1 | | exact It].
        -- destruct hi as [h|]; [|reflexivity]. simpl in *. apply Nat.ltb_lt. lia.
        -- destruct u; [congruence|]. simpl in Hp1. lia.
      * simpl. rewrite length_app. lia.
Qed.

(** Every text of the language is matched, wherever it stands. *)
Lemma lang_complete (ic : bool) (r : regex) :
  context_free r = true ->
  forall w, lang ic r w -> forall st t, rest st = w ++ t ->
    exists st', matches ic r st st' /\ rest st' = t /\ pos st' = pos st + length w.
Proof.
  assert (Hchar : forall r p w, accepts ic r = Some p ->
            (exists x, w = [x] /\ p x = true) -> forall st t, rest st = w ++ t ->
            exists st', matches ic r st st' /\ rest st' = t /\ pos st' = pos st + length w).
  { intros r0 p w Hacc (x & -> & Hx) st t Hrest. simpl in Hrest.
    exists (advance x t st). split; [|split].
    - eapply matches_char; eassumption.
    - reflexivity.
    - simpl. lia. }
  induction r as [ | c | items | | | | | r1 IH1 r2 IH2 | r1 IH1 r2 IH2
                 | lo hi r1 IH1 | n r1 IH1 ]; simpl; intros Hcf w Hw st t Hrest.
  all: try discriminate Hcf.
  all: try (solve [ eapply Hchar; [reflexivity | exact Hw | exact Hrest] ]).
  - subst w. exists st. simpl in *. split; [constructor|]. split; [assumption | lia].
  - apply andb_prop in Hcf as [H1 H2]. destruct Hw as (u & v & -> & Hu & Hv).
    rewrite <- app_assoc in Hrest.
    destruct (IH1 H1 u Hu st _ Hrest) as (st1 & M1 & Hr1 & Hp1).
    destruct (IH2 H2 v Hv st1 _ Hr1) as (st2 & M2 & Hr2 & Hp2).
    exists st2. split; [econstructor; eassumption|]. split; [assumption|].
    rewrite length_app. lia.
  - apply andb_prop in Hcf as [H1 H2]. destruct Hw as [Hw | Hw].
    + destruct (IH1 H1 w Hw st t Hrest) as (st' & M & Hr' & Hp').
      exists st'. split; [now apply matches_or_l | auto].
    + destruct (IH2 H2 w Hw st t Hrest) as (st' & M & Hr' & Hp').
      exists st'. split; [now apply matches_or_r | auto].
  - destruct Hw as (ws & -> & Hws & Hlo & Hhi).
    destruct (lang_iter ic r1 lo hi (IH1 Hcf) ws 0 st t Hws) as (st' & It & Hr' & Hp');
      try assumption.
    exists st'. split; [now constructor | auto].
  - destruct (IH1 Hcf w Hw st t Hrest) as (st' & M & Hr' & Hp').
    eexists. split; [apply matches_group; exact M|]. simpl. auto.
Qed.

(** The first match from a position on, with the text before it. *)
Lemma search_from_split (ic : bool) (r : regex) (s : str) :
  forall pre mo,
    search_from ic r (length pre) (last_char pre) s = Some mo ->
    exists a b, s = a ++ b /\ match_here ic r (state_at (pre ++ a) b) = Some mo.
Proof.
  induction s as [|c s IH]; intros pre mo; simpl.
  - fold (state_at pre []).
    destruct (match_here ic r (state_at pre [])) as [mo'|] eqn:E; [|discriminate].
    intros H. injection H as ->. exists [], []. now rewrite (app_nil_r pre).
  - fold (state_at pre (c :: s)).
    destruct (match_here ic r (state_at pre (c :: s))) as [mo'|] eqn:E.
    + intros H. injection H as ->. exists [], (c :: s). now rewrite (app_nil_r pre).
    + replace (S (length pre)) with (length (pre ++ [c]))
        by (rewrite length_app; simpl; lia).
      rewrite <- (last_char_snoc pre c). intros H.
      apply IH in H as (a & b & -> & H). exists (c :: a), b.
      rewrite <- app_assoc in H. auto.
Qed.

(** What a match object holds: group 0 is the text consumed. *)
Lemma match_here_group0 (ic : bool) (r : regex) (st : mstate) (mo : match_obj) :
  match_here ic r st = Some mo ->
  exists st' w,
    matches ic r st st' /\ rest st = w ++ rest st'
    /\ m_end mo = set_cap 0 w st' /\ group_text 0 mo = w.
Proof.
  intros H. apply match_here_sound in H. inv_matches H.
  match goal with M : matches ic r st ?s |- _ =>
    exists s; pose proof (matches_spans ic r st s M) as Hs end.
  pose proof (spans_taken _ _ _ Hs) as _.
  destruct Hs as (w & Hr & Hp & _).
  exists w. split; [assumption|]. split; [assumption|].
  match goal with E : set_cap 0 _ _ = m_end mo |- _ => rename E into Hend end.
  assert (Hw : firstn (pos st' - pos st) (rest st) = w).
  { rewrite Hr, Hp. replace (pos st + length w - pos st) with (length w + 0) by lia.
    rewrite firstn_app_2. simpl. now rewrite app_nil_r. }
  rewrite Hw. split; [reflexivity|].
  unfold group_text, group. rewrite <- Hend. simpl. exact Hw.
Qed.

Lemma match_here_complete (ic : bool) (r : regex) (st st' : mstate) :
  matches ic r st st' -> exists mo, match_here ic r st = Some mo.
Proof.
  intros H. unfold match_here.
  destruct (m_complete ic (Group 0 r) st _ Some
              (set_cap 0 (firstn (pos st' - pos st) (rest st)) st')
              (matches_group ic 0 r st st' H) eq_refl) as [y Hy].
  rewrite Hy. eauto.
Qed.

End Language.

(** *** Substrings *)

Lemma startswith_iff (p s : str) : startswith p s = true <-> exists b, s = p ++ b.
Proof.
  revert s. induction p as [|x p IH]; intros s; simpl.
  - split; [intros _; now exists s | reflexivity].
  - destruct s as [|y s].
    + split; [discriminate | intros (b & H); discriminate].
    + rewrite andb_true_iff, N.eqb_eq, IH. split.
      * intros (-> & b & ->). now exists b.
      * intros (b & H). injection H as -> ->. eauto.
Qed.

Lemma contains_iff (p s : str) :
  contains p s = true <-> exists a b, s = a ++ p ++ b.
Proof.
  induction s as [|y s IH]; simpl.
  - rewrite orb_false_r, startswith_iff. split.
    + intros (b & H). now exists [], b.
    + intros (a & b & H). destruct a; [now exists b|discriminate].
  - rewrite orb_true_iff, startswith_iff, IH. split.
    + intros [(b & H) | (a & b & ->)]; [now exists [], b | now exists (y :: a), b].
    + intros (a & b & H). destruct a as [|z a]; [left; now exists b|].
      right. injection H as -> ->. eauto.
Qed.

Section SearchLanguage.
Context {U : unicode_db} {SO : set_order}.

(** What [re.search] finds for a pattern that looks at the text alone:
    group 0 is a text of the language of the pattern, and it occurs in
    the text searched. *)
Lemma search_found (ic : bool) (r : regex) (text : str) (mo : match_obj) :
  context_free r = true ->
  re_search ic r text = Some mo ->
  lang ic r (group_text 0 mo) /\ contains (group_text 0 mo) text = true.
Proof.
  intros Hcf H. unfold re_search in H.
  apply (search_from_split ic r text []) in H as (a & b & -> & H).
  apply match_here_group0 in H as (st' & w & M & Hr & _ & ->).
  apply (lang_sound ic r Hcf) in M. destruct M as (w' & Hr' & _ & Hw').
  rewrite Hr in Hr'. simpl in Hr, Hr'. 
  assert (w' = w).
  { pose proof (f_equal (@length char) Hr') as Hl. rewrite !length_app in Hl.
    assert (length w = length w') by lia.
    clear - Hr' H. revert w' Hr' H. induction w as [|x w IH]; intros [|y w']; simpl;
      intros Hr' Hl; try discriminate; [reflexivity|].
    injection Hr' as -> Hr'. f_equal. apply IH; [assumption | lia]. }
  subst w'. split; [assumption|]. apply contains_iff. exists a, (rest st').
  now rewrite <- Hr.
Qed.

(** [re.search] succeeds exactly when some text of the language of the
    pattern occurs in the text searched. *)
Lemma search_lang (ic : bool) (r : regex) (text : str) :
  context_free r = true ->
  (is_match (re_search ic r text) = true <->
   exists w, lang ic r w /\ contains w text = true).
Proof.
  intros Hcf. split.
  - destruct (re_search ic r text) as [mo|] eqn:E; [|discriminate]. intros _.
    exists (group_text 0 mo). now apply search_found.
  - intros (w & Hw & Hc). apply contains_iff in Hc as (a & b & ->).
    unfold re_search. apply (search_from_state_at ic r _ []).
    exists a, (w ++ b). split; [reflexivity|]. simpl.
    destruct (lang_complete ic r Hcf w Hw (state_at a (w ++ b)) b eq_refl)
      as (st' & M & _).
    apply match_here_complete in M as (mo & ->). reflexivity.
Qed.

Lemma lit_match_false (c x : char) : lit_match false c x = N.eqb c x.
Proof. unfold lit_match. simpl. apply orb_false_r. Qed.

(** A literal string matches itself and nothing else. *)
Lemma lang_Str (s w : str) : lang false (Str s) w <-> w = s.
Proof.
  revert w. induction s as [|c s IH]; intros w; [reflexivity|].
  destruct s as [|c' s'].
  - simpl. split.
    + intros (x & -> & Hx). rewrite lit_match_false in Hx.
      apply N.eqb_eq in Hx. now subst.
    + intros ->. exists c. rewrite lit_match_false, N.eqb_refl. auto.
  - change (Str (c :: c' :: s')) with (Cat (Lit c) (Str (c' :: s'))).
    change (lang false (Cat (Lit c) (Str (c' :: s'))) w)
      with (exists u v, w = u ++ v /\ lang false (Lit c) u
                        /\ lang false (Str (c' :: s')) v).
    split.
    + intros (u & v & -> & (x & -> & Hx) & Hv). rewrite lit_match_false in Hx.
      apply N.eqb_eq in Hx. apply IH in Hv. now subst.
    + intros ->. exists [c], (c' :: s'). split; [reflexivity|]. split.
      * exists c. rewrite lit_match_false, N.eqb_refl. auto.
      * now apply IH.
Qed.

(** The repetitions of a one-character pattern. *)
Lemma lang_repeat_char (ic : bool) (r : regex) (p : char -> bool)
    (lo : nat) (hi : option nat) (w : str) :
  accepts ic r = Some p -> lang ic r = (fun w => exists x, w = [x] /\ p x = true) ->
  (lang ic (Repeat lo hi r) w <->
   Forall (fun x => p x = true) w /\ lo <= length w
   /\ match hi with Some h => length w <= h | None => True end).
Proof.
  intros Hacc Hl. simpl. rewrite Hl. split.
  - intros (ws & -> & Hws & Hlo & Hhi).
    assert (H : Forall (fun x => p x = true) (concat ws) /\ length (concat ws) = length ws).
    { clear Hlo Hhi. induction Hws as [|u ws [_ (x & -> & Hx)] _ [IH1 IH2]]; simpl.
      - split; [constructor | reflexivity].
      - split; [now constructor | now rewrite IH2]. }
    destruct H as [H1 H2]. rewrite H2. auto.
  - intros (Hw & Hlo & Hhi). exists (map (fun x => [x]) w).
    rewrite length_map. repeat split; try assumption.
    + clear. induction w as [|x w IH]; simpl; [reflexivity | now f_equal].
    + clear - Hw. induction Hw as [|x w Hx _ IH]; simpl; constructor; [|assumption].
      split; [discriminate | now exists x].
Qed.

Lemma lang_Opt (ic : bool) (r : regex) (w : str) :
  lang ic (Opt r) w <-> w = [] \/ (w <> [] /\ lang ic r w).
Proof.
  unfold Opt. simpl. split.
  - intros (ws & -> & Hws & _ & Hhi).
    destruct ws as [|u [|v ws]]; simpl in *; [now left | | lia].
    right. rewrite app_nil_r. now inversion Hws.
  - intros [-> | [Hne Hw]].
    + exists []. simpl. repeat split; [constructor | lia | lia].
    + exists [w]. simpl. rewrite app_nil_r. repeat split; [| lia | lia].
      constructor; [now split | constructor].
Qed.

Lemma lang_Star_Space (w : str) :
  lang false (Star Space) w <-> Forall (fun x => isspace x = true) w.
Proof.
  unfold Star. rewrite (lang_repeat_char false Space isspace 0 None w eq_refl eq_refl).
  split; [now intros (H & _) | intros H; repeat split; [assumption | lia]].
Qed.

Lemma lang_Plus_Space (w : str) :
  lang false (Plus Space) w <-> w <> [] /\ Forall (fun x => isspace x = true) w.
Proof.
  unfold Plus. rewrite (lang_repeat_char false Space isspace 1 None w eq_refl eq_refl).
  split.
  - intros (H & Hl & _). split; [|assumption]. intros ->. simpl in Hl. lia.
  - intros (Hne & H). repeat split; [assumption|]. destruct w; [congruence | simpl; lia].
Qed.

Lemma lang_Plus_Digit (ic : bool) (w : str) :
  lang ic (Plus Digit) w <-> w <> [] /\ Forall (fun x => isdigit x = true) w.
Proof.
  unfold Plus. rewrite (lang_repeat_char ic Digit isdigit 1 None w eq_refl eq_refl).
  split.
  - intros (H & Hl & _). split; [|assumption]. intros ->. simpl in Hl. lia.
  - intros (Hne & H). repeat split; [assumption|]. destruct w; [congruence | simpl; lia].
Qed.

Lemma lang_dash_or_blank (w : str) :
  lang false dash_or_blank w <-> w = txt "-" \/ w = txt " ".
Proof.
  unfold dash_or_blank.
  change (lang false (Class [CChar (ch "-"); CChar (ch " ")]) w)
    with (exists x, w = [x]
                    /\ (N.eqb (ch "-") x || (N.eqb (ch " ") x || false)) = true).
  split.
  - intros (x & -> & Hx). rewrite !orb_true_iff in Hx.
    destruct Hx as [Hx | [Hx | Hx]]; [| |discriminate];
      apply N.eqb_eq in Hx; subst; auto.
  - intros [-> | ->]; eexists; split; reflexivity.
Qed.

End SearchLanguage.

(** ** The remote policy *)

Section RemotePolicy.
Context {U : unicode_db} {SO : set_order}.

Lemma search_Str (s text : str) :
  is_match (re_search false (Str s) text) = contains s text.
Proof.
  assert (Hcf : context_free (Str s) = true).
  { induction s as [|c [|c' s'] IH]; try reflexivity.
    change (Str (c :: c' :: s')) with (Cat (Lit c) (Str (c' :: s'))). exact IH. }
  apply eq_true_iff_eq. rewrite (search_lang false (Str s) text Hcf). split.
  - intros (w & Hw & Hc). apply lang_Str in Hw. now subst.
  - intros H. exists s. split; [now apply lang_Str | assumption].
Qed.

Lemma lang_fully_remote (w : str) :
  lang false re_fully_remote w <->
  w = txt "fully remote"
  \/ (exists b, blanks b /\ w = txt "100%" ++ b ++ txt "remote")
  \/ w = txt "remote-first" \/ w = txt "remote first".
Proof.
  unfold re_fully_remote. cbn [Alt Seq lang]. split.
  - intros [H | [(u & v & -> & Hu & (b & v' & -> & Hb & Hv)) | (u & v & -> & Hu & (d & v' & -> & Hd & Hv))]].
    + apply lang_Str in H. auto.
    + apply lang_Str in Hu, Hv. apply lang_Star_Space in Hb. subst.
      right. left. now exists b.
    + apply lang_Str in Hu, Hv. apply lang_dash_or_blank in Hd. subst.
      destruct Hd as [-> | ->]; auto.
  - intros [-> | [(b & Hb & ->) | [-> | ->]]].
    + left. now apply lang_Str.
    + right. left. exists (txt "100%"), (b ++ txt "remote").
      split; [reflexivity|]. split; [now apply lang_Str|].
      exists b, (txt "remote"). split; [reflexivity|].
      split; [now apply lang_Star_Space | now apply lang_Str].
    + right. right. exists (txt "remote"), (txt "-first").
      split; [reflexivity|]. split; [now apply lang_Str|].
      exists (txt "-"), (txt "first"). split; [reflexivity|].
      split; [apply lang_dash_or_blank; auto | now apply lang_Str].
    + right. right. exists (txt "remote"), (txt " first").
      split; [reflexivity|]. split; [now apply lang_Str|].
      exists (txt " "), (txt "first"). split; [reflexivity|].
      split; [apply lang_dash_or_blank; auto | now apply lang_Str].
Qed.

Lemma search_fully_remote (text : str) :
  is_match (re_search false re_fully_remote text) = true <-> fully_remote_wording text.
Proof.
  rewrite (search_lang false re_fully_remote text eq_refl). unfold fully_remote_wording.
  split.
  - intros (w & Hw & Hc). apply lang_fully_remote in Hw.
    destruct Hw as [-> | [(b & Hb & ->) | [-> | ->]]]; auto.
    right. left. now exists b.
  - intros [H | [(b & Hb & H) | [H | H]]]; eexists; (split; [|exact H]);
      apply lang_fully_remote; auto.
    right. left. now exists b.
Qed.

Lemma lang_on_site (w : str) :
  lang false re_on_site w <->
  In w [txt "onsite"; txt "on-site"; txt "on site"; txt "in-office"; txt "in office"].
Proof.
  unfold re_on_site. cbn [Alt Seq lang]. split.
  - intros [(u & v & -> & Hu & (d & v' & -> & Hd & Hv)) | (u & v & -> & Hu & (d & v' & -> & Hd & Hv))].
    + apply lang_Str in Hu, Hv. apply lang_Opt in Hd. subst.
      destruct Hd as [-> | [_ Hd]]; [simpl; auto|].
      apply lang_dash_or_blank in Hd. destruct Hd as [-> | ->]; simpl; auto.
    + apply lang_Str in Hu, Hv. apply lang_dash_or_blank in Hd. subst.
      destruct Hd as [-> | ->]; simpl; auto 6.
  - intros [<- | [<- | [<- | [<- | [<- | []]]]]].
    + left. exists (txt "on"), (txt "site"). split; [reflexivity|].
      split; [now apply lang_Str|]. exists [], (txt "site"). split; [reflexivity|].
      split; [apply lang_Opt; auto | now apply lang_Str].
    + left. exists (txt "on"), (txt "-site"). split; [reflexivity|].
      split; [now apply lang_Str|]. exists (txt "-"), (txt "site"). split; [reflexivity|].
      split; [|now apply lang_Str]. apply lang_Opt. right.
      split; [discriminate | apply lang_dash_or_blank; auto].
    + left. exists (txt "on"), (txt " site"). split; [reflexivity|].
      split; [now apply lang_Str|]. exists (txt " "), (txt "site"). split; [reflexivity|].
      split; [|now apply lang_Str]. apply lang_Opt. right.
      split; [discriminate | apply lang_dash_or_blank; auto].
    + right. exists (txt "in"), (txt "-office"). split; [reflexivity|].
      split; [now apply lang_Str|]. exists (txt "-"), (txt "office"). split; [reflexivity|].
      split; [apply lang_dash_or_blank; auto | now apply lang_Str].
    + right. exists (txt "in"), (txt " office"). split; [reflexivity|].
      split; [now apply lang_Str|]. exists (txt " "), (txt "office"). split; [reflexivity|].
      split; [apply lang_dash_or_blank; auto | now apply lang_Str].
Qed.

Lemma search_on_site (text : str) :
  is_match (re_search false re_on_site text) = true <-> on_site_wording text.
Proof.
  rewrite (search_lang false re_on_site text eq_refl). unfold on_site_wording.
  split; intros (w & Hw & Hc); exists w; (split; [|exact Hc]); now apply lang_on_site.
Qed.

Lemma contains_trans (p q s : str) :
  contains p q = true -> contains q s = true -> contains p s = true.
Proof.
  rewrite !contains_iff. intros (a & b & ->) (a' & b' & ->).
  exists (a' ++ a), (b ++ b'). now rewrite <- !app_assoc.
Qed.

Lemma fully_remote_says_remote (text : str) :
  fully_remote_wording text -> contains (txt "remote") text = true.
Proof.
  intros [H | [(b & Hb & H) | [H | H]]];
    (eapply contains_trans; [|exact H]); try reflexivity.
  apply contains_iff. exists (txt "100%" ++ b), []. now rewrite <- app_assoc.
Qed.

(** X1. [_extract_remote_policy] is a decision list over the wordings
    that occur in the text: a fully-remote wording first, then the word
    hybrid, then an on-site wording, then the bare word remote. *)
Theorem X1_remote_policy_decision_list :
  forall text : str,
    (_extract_remote_policy text = txt "Fully Remote" <-> fully_remote_wording text)
    /\ (_extract_remote_policy text = txt "Hybrid" <->
        ~ fully_remote_wording text /\ contains (txt "hybrid") text = true)
    /\ (_extract_remote_policy text = txt "On-Site" <->
        ~ fully_remote_wording text /\ contains (txt "hybrid") text = false
        /\ on_site_wording text)
    /\ (_extract_remote_policy text = txt "Remote Available" <->
        ~ fully_remote_wording text /\ contains (txt "hybrid") text = false
        /\ ~ on_site_wording text /\ contains (txt "remote") text = true)
    /\ (_extract_remote_policy text = txt "Not Specified" <->
        contains (txt "hybrid") text = false /\ ~ on_site_wording text
        /\ contains (txt "remote") text = false).
Proof.
  intros text. unfold _extract_remote_policy.
  rewrite !search_Str.
  pose proof (search_fully_remote text) as Hf.
  pose proof (search_on_site text) as Ho.
  pose proof (fully_remote_says_remote text) as Hfr.
  destruct (is_match (re_search false re_fully_remote text)).
  { assert (F : fully_remote_wording text) by now apply Hf.
    rewrite (Hfr F).
    repeat split; try discriminate; try tauto; intros; try assumption; try reflexivity;
      exfalso; intuition congruence. }
  assert (F : ~ fully_remote_wording text) by (intros F; apply Hf in F; discriminate).
  destruct (contains (txt "hybrid") text).
  { repeat split; try discriminate; try tauto; try reflexivity;
      intros; exfalso; intuition congruence. }
  destruct (is_match (re_search false re_on_site text)).
  { assert (O : on_site_wording text) by now apply Ho.
    repeat split; try discriminate; try tauto; try reflexivity;
      intros; exfalso; intuition congruence. }
  assert (O : ~ on_site_wording text) by (intros O; apply Ho in O; discriminate).
  destruct (contains (txt "remote") text).
  { repeat split; try discriminate; try tauto; try reflexivity;
      intros; exfalso; intuition congruence. }
  repeat split; try discriminate; try tauto; try reflexivity;
    intros; exfalso; intuition congruence.
Qed.

End RemotePolicy.

(** ** The groups of a match *)

Section Groups.
Context {U : unicode_db} {SO : set_order}.

Lemma iter_caps (R : mstate -> mstate -> Prop) (gs : list nat)
    (lo : nat) (hi : option nat) (count : nat) (st st' : mstate) :
  (forall a b, R a b -> exists extra,
      caps b = extra ++ caps a /\ Forall (fun e => In (fst e) gs) extra) ->
  iter R lo hi count st st' ->
  exists extra, caps st' = extra ++ caps st /\ Forall (fun e => In (fst e) gs) extra.
Proof.
  intros HR H. induction H as [count st Hlo | count st st1 st2 Hb Hstep Hpos Hrest IH].
  - exists []. split; [reflexivity | constructor].
  - apply HR in Hstep as (e1 & H1 & F1). destruct IH as (e2 & H2 & F2).
    exists (e2 ++ e1). rewrite H2, H1, app_assoc. split; [reflexivity|].
    apply Forall_app. now split.
Qed.

(** A match adds captures for the groups of its pattern, and no other. *)
Lemma matches_caps (ic : bool) (r : regex) :
  forall st st', matches ic r st st' ->
    exists extra, caps st' = extra ++ caps st
                  /\ Forall (fun e => In (fst e) (groups r)) extra.
Proof.
  induction r as [ | c | items | | | | | r1 IH1 r2 IH2 | r1 IH1 r2 IH2
                 | lo hi r1 IH1 | n r1 IH1 ]; intros st st' H.
  all: try (solve [ exists []; split; [|constructor];
                    refine (proj2 (matches_accepts _ _ _ _ _ _ H)); reflexivity ]).
  - inv_matches H. exists []. split; [reflexivity | constructor].
  - inv_matches H. exists []. split; [reflexivity | constructor].
  - inv_matches H. exists []. split; [reflexivity | constructor].
  - inv_matches H.
    match goal with M1 : matches _ r1 _ _, M2 : matches _ r2 _ _ |- _ =>
      apply IH1 in M1 as (e1 & H1 & F1); apply IH2 in M2 as (e2 & H2 & F2) end.
    exists (e2 ++ e1). rewrite H2, H1, app_assoc. split; [reflexivity|].
    simpl. apply Forall_app. split; eapply Forall_impl; try eassumption;
      intros e He; apply in_or_app; auto.
  - inv_matches H;
      match goal with M : matches _ _ _ _ |- _ =>
        first [apply IH1 in M as (e & He & F) | apply IH2 in M as (e & He & F)] end;
      exists e; (split; [assumption|]); simpl;
      (eapply Forall_impl; [|eassumption]); intros x Hx; apply in_or_app; auto.
  - inv_matches H. eapply iter_caps; [|eassumption]. exact IH1.
  - inv_matches H.
    match goal with M : matches _ r1 _ _ |- _ => apply IH1 in M as (e & He & F) end.
    eexists ((n, _) :: e). simpl. rewrite He. split; [reflexivity|].
    constructor; [now left|]. eapply Forall_impl; [|eassumption]. intros x Hx. now right.
Qed.

Lemma get_cap_app_other (n : nat) (extra cs : list (nat * str)) (gs : list nat) :
  Forall (fun e => In (fst e) gs) extra -> ~ In n gs ->
  get_cap n (extra ++ cs) = get_cap n cs.
Proof.
  intros F Hn. induction F as [|[i s] extra Hi _ IH]; [reflexivity|].
  simpl. destruct (Nat.eqb i n) eqn:E; [|assumption].
  apply Nat.eqb_eq in E. subst. contradiction.
Qed.

(** Group 1 of a pattern that opens with it: the text that the group
    consumed at the start of the match. *)
Lemma group1_first (ic : bool) (g r2 : regex) (st : mstate) (mo : match_obj) :
  ~ In 1 (groups g) -> ~ In 1 (groups r2) ->
  match_here ic (Cat (Group 1 g) r2) st = Some mo ->
  exists st1 w, matches ic g st st1 /\ rest st = w ++ rest st1
                /\ pos st1 = pos st + length w
                /\ group_text 1 mo = w
                /\ (context_free g = true -> lang ic g w)
                /\ exists v, group_text 0 mo = w ++ v
                             /\ rest st = (w ++ v) ++ rest (m_end mo)
                             /\ (context_free r2 = true -> lang ic r2 v).
Proof.
  intros Hg H2 H. apply match_here_group0 in H as (st' & w0 & M & Hr & Hend & H0).
  inv_matches M.
  match goal with M : matches _ (Group 1 g) _ _ |- _ => inv_matches M end.
  match goal with M : matches ic g st ?s |- _ =>
    rename s into st1; rename M into Mg end.
  match goal with M : matches ic r2 _ _ |- _ => rename M into M2 end.
  pose proof (matches_spans ic g st st1 Mg) as Sg.
  pose proof (matches_spans ic r2 _ _ M2) as S2.
  pose proof (spans_taken _ _ _ Sg) as _.
  destruct Sg as (w & Hw & Hp & _).
  assert (Hf : firstn (pos st1 - pos st) (rest st) = w).
  { rewrite Hw, Hp. replace (pos st + length w - pos st) with (length w + 0) by lia.
    rewrite firstn_app_2. simpl. now rewrite app_nil_r. }
  rewrite Hf in *.
  exists st1, w. split; [assumption|]. split; [assumption|]. split; [assumption|].
  destruct (matches_caps ic r2 _ _ M2) as (extra & Hc & F).
  split; [|split].
  - unfold group_text, group. rewrite Hend. simpl.
    rewrite Hc, (get_cap_app_other 1 extra _ (groups r2) F H2). simpl. reflexivity.
  - intros Hcf. destruct (lang_sound ic g Hcf st st1 Mg) as (w' & Hw' & _ & L).
    rewrite Hw in Hw'. apply app_inv_tail in Hw'. now subst w'.
  - destruct S2 as (v & Hv & _ & _). simpl in Hv. exists v.
    assert (E : group_text 0 mo ++ rest st' = (w ++ v) ++ rest st')
      by (rewrite <- Hr, Hw, Hv, app_assoc; reflexivity).
    apply app_inv_tail in E. split; [exact E|]. split.
    + replace (rest (m_end mo)) with (rest st') by (rewrite Hend; reflexivity).
      now rewrite Hw, Hv, app_assoc.
    + intros Hcf. destruct (lang_sound ic r2 Hcf _ _ M2) as (v' & Hv' & _ & L).
      simpl in Hv'. rewrite Hv in Hv'. apply app_inv_tail in Hv'. now subst v'.
Qed.

(** The first match of a search, with the text around it. *)
Lemma re_search_split (ic : bool) (r : regex) (text : str) (mo : match_obj) :
  re_search ic r text = Some mo ->
  exists a b, text = a ++ b /\ match_here ic r (state_at a b) = Some mo.
Proof. intros H. exact (search_from_split ic r text [] mo H). Qed.

End Groups.

(** ** Education *)

Section Education.
Context {U : unicode_db} {SO : set_order}.

Lemma education_keywords_context_free (k : regex) :
  In k education_keywords -> context_free k = true.
Proof.
  intros H. repeat (destruct H as [<- | H]; [reflexivity|]). contradiction.
Qed.

Lemma collect_fold {A B} (f : A -> option B) (g : B -> str) (ks : list A) :
  forall acc,
    fold_left (fun acc k => match f k with Some x => acc ++ [g x] | None => acc end) ks acc
    = acc ++ flat_map (fun k => match f k with Some x => [g x] | None => [] end) ks.
Proof.
  induction ks as [|k ks IH]; intros acc; simpl; [now rewrite app_nil_r|].
  rewrite IH. destruct (f k); simpl; [now rewrite <- app_assoc | reflexivity].
Qed.

Lemma extract_education_eq (text : str) :
  _extract_education text
  = flat_map (fun k => match re_search false k (lower text) with
                       | Some mo => [group_text 0 mo]
                       | None => []
                       end) education_keywords.
Proof.
  unfold _extract_education.
  exact (collect_fold (fun k => re_search false k (lower text)) (group_text 0)
           education_keywords []).
Qed.

Lemma flat_map_option_length {A B} (f : A -> list B) (l : list A) :
  (forall a, length (f a) <= 1) -> length (flat_map f l) <= length l.
Proof.
  intros H. induction l as [|a l IH]; simpl; [lia|].
  rewrite length_app. specialize (H a). lia.
Qed.

(** X2. [_extract_education] returns at most one entry for each of its
    seven patterns.  Every entry is a wording of one of the patterns and
    occurs in the lowercased text; a pattern contributes an entry as soon
    as one of its wordings occurs there.  For the four patterns that are
    plain phrases, the phrase is an entry exactly when it occurs. *)
Theorem X2_education_entries_occur_in_text :
  forall text : str,
    length (_extract_education text) <= 7
    /\ (forall e, In e (_extract_education text) ->
          contains e (lower text) = true
          /\ exists k, In k education_keywords /\ lang false k e)
    /\ (forall k w, In k education_keywords -> lang false k w ->
          contains w (lower text) = true ->
          exists e, In e (_extract_education text) /\ lang false k e)
    /\ (forall p, In p [txt "mba"; txt "computer science degree";
                        txt "technical degree"; txt "engineering degree"] ->
          (In p (_extract_education text) <-> contains p (lower text) = true)).
Proof.
  intros text. rewrite extract_education_eq.
  set (f := fun k => match re_search false k (lower text) with
                     | Some mo => [group_text 0 mo]
                     | None => []
                     end).
  assert (Hsound : forall e, In e (flat_map f education_keywords) ->
            contains e (lower text) = true
            /\ exists k, In k education_keywords /\ lang false k e).
  { intros e He. apply in_flat_map in He as (k & Hk & He). unfold f in He.
    destruct (re_search false k (lower text)) as [mo|] eqn:E; [|contradiction].
    destruct He as [<- | []].
    destruct (search_found false k (lower text) mo
                (education_keywords_context_free k Hk) E) as [L C].
    split; [assumption|]. now exists k. }
  assert (Hcomplete : forall k w, In k education_keywords -> lang false k w ->
            contains w (lower text) = true ->
            exists e, In e (flat_map f education_keywords) /\ lang false k e).
  { intros k w Hk Hw Hc.
    assert (Hm : is_match (re_search false k (lower text)) = true).
    { apply search_lang; [now apply education_keywords_context_free|]. now exists w. }
    destruct (re_search false k (lower text)) as [mo|] eqn:E; [|discriminate].
    exists (group_text 0 mo). split.
    - apply in_flat_map. exists k. split; [assumption|]. unfold f. rewrite E. now left.
    - exact (proj1 (search_found false k (lower text) mo
                      (education_keywords_context_free k Hk) E)). }
  split; [|split; [exact Hsound | split; [exact Hcomplete|]]].
  - change 7 with (length education_keywords). apply flat_map_option_length.
    intros k. unfold f. destruct (re_search false k (lower text)); simpl; lia.
  - intros p Hp. split.
    + intros H. exact (proj1 (Hsound p H)).
    + intros Hc.
      assert (Hk : In (Str p) education_keywords).
      { repeat (destruct Hp as [<- | Hp]; [simpl; auto 10|]). contradiction. }
      destruct (Hcomplete (Str p) p Hk (proj2 (lang_Str p p) eq_refl) Hc) as (e & He & L).
      apply lang_Str in L. now subst e.
Qed.

End Education.

(** ** Company information *)

Section CompanyInfo.
Context {U : unicode_db} {SO : set_order}.

Lemma search_startup (text : str) :
  is_match (re_search false re_startup text) = true <-> startup_wording text.
Proof.
  rewrite (search_lang false re_startup text eq_refl). unfold startup_wording.
  unfold re_startup. cbn [Alt Seq lang]. split.
  - intros (w & [H | (u & v & -> & Hu & (d & v' & -> & Hd & Hv))] & Hc).
    + apply lang_Str in H. subst. auto.
    + apply lang_Str in Hu, Hv. apply lang_dash_or_blank in Hd. subst.
      destruct Hd as [-> | ->]; auto.
  - intros [H | [H | H]]; eexists; (split; [|exact H]).
    + left. now apply lang_Str.
    + right. exists (txt "early"), (txt "-stage"). split; [reflexivity|].
      split; [now apply lang_Str|]. exists (txt "-"), (txt "stage").
      split; [reflexivity|]. split; [apply lang_dash_or_blank; auto | now apply lang_Str].
    + right. exists (txt "early"), (txt " stage"). split; [reflexivity|].
      split; [now apply lang_Str|]. exists (txt " "), (txt "stage").
      split; [reflexivity|]. split; [apply lang_dash_or_blank; auto | now apply lang_Str].
Qed.

Lemma search_enterprise (text : str) :
  is_match (re_search false re_enterprise text) = true <-> enterprise_wording text.
Proof.
  rewrite (search_lang false re_enterprise text eq_refl). unfold enterprise_wording.
  unfold re_enterprise. cbn [Alt lang]. split.
  - intros (w & [H | H] & Hc); apply lang_Str in H; subst; auto.
  - intros [H | H]; eexists; (split; [|exact H]);
      [left | right]; now apply lang_Str.
Qed.

Lemma lang_series_letter (w : str) :
  lang false (Class [CRange (ch "a") (ch "d")]) w <->
  exists x, w = [x] /\ between (ch "a") (ch "d") x = true.
Proof.
  change (lang false (Class [CRange (ch "a") (ch "d")]) w)
    with (exists x, w = [x] /\ (between (ch "a") (ch "d") x || false) = true).
  split; intros (x & -> & H); exists x; (split; [reflexivity|]).
  - now rewrite orb_false_r in H.
  - now rewrite orb_false_r.
Qed.

Lemma search_series (text : str) :
  is_match (re_search false re_series text) = true <->
  exists x, series_wording x text.
Proof.
  rewrite (search_lang false re_series text eq_refl). unfold series_wording.
  unfold re_series. cbn [Seq lang]. split.
  - intros (w & (u & v & -> & Hu & Hv) & Hc). apply lang_Str in Hu.
    apply lang_series_letter in Hv as (x & -> & Hx). subst. now exists x.
  - intros (x & Hx & Hc). exists (txt "series " ++ [x]). split; [|assumption].
    exists (txt "series "), [x]. split; [reflexivity|]. split; [now apply lang_Str|].
    apply lang_series_letter. now exists x.
Qed.

(** The letter that [series ([a-d])] captures. *)
Lemma series_group_letter (text : str) (mo : match_obj) :
  re_search false re_series_group text = Some mo ->
  exists x, series_wording x text /\ group_text 1 mo = [x].
Proof.
  intros H. apply re_search_split in H as (a & b & -> & H).
  apply match_here_group0 in H as (st' & w & M & Hr & Hend & _).
  unfold re_series_group in M. cbn [Seq] in M. inv_matches M.
  match goal with M : matches _ (Group 1 _) _ _ |- _ => inv_matches M end.
  match goal with M : matches _ _ (state_at a b) ?s |- _ =>
    rename s into st1;
    destruct (lang_sound false (Str (txt "series ")) eq_refl _ _ M)
      as (u & Hu & Hpu & Lu) end.
  apply lang_Str in Lu. subst u.
  match goal with M : matches _ (Class _) _ ?s |- _ =>
    rename s into st2;
    destruct (lang_sound false (Class [CRange (ch "a") (ch "d")]) eq_refl _ _ M)
      as (v & Hv & Hpv & Lv) end.
  apply lang_series_letter in Lv as (x & -> & Hx).
  exists x. split; [split; [assumption|]|].
  - apply contains_iff. exists a, (rest st2). simpl in Hu. rewrite Hu, Hv.
    now rewrite <- app_assoc.
  - unfold group_text, group. rewrite Hend. simpl.
    rewrite Hv, Hpv. replace (pos st1 + length [x] - pos st1) with 1 by (simpl; lia).
    reflexivity.
Qed.

Lemma lang_company_size (w : str) :
  lang false re_company_size w <->
  exists ds plus bl noun,
    w = ds ++ plus ++ bl ++ noun
    /\ ds <> [] /\ Forall (fun c => isdigit c = true) ds
    /\ (plus = [] \/ plus = txt "+") /\ blanks bl
    /\ In noun [txt "person"; txt "people"; txt "employee"].
Proof.
  unfold re_company_size. cbn [Alt Seq lang]. split.
  - intros (ds & v & -> & Hds & (plus & v1 & -> & Hplus & (bl & noun & -> & Hbl & Hn))).
    apply (lang_Plus_Digit false) in Hds as [Hne Hds].
    apply lang_Star_Space in Hbl. apply lang_Opt in Hplus.
    exists ds, plus, bl, noun. repeat split; try assumption.
    + destruct Hplus as [-> | [_ (x & -> & Hx)]]; [now left|]. right.
      rewrite lit_match_false in Hx. apply N.eqb_eq in Hx. now subst.
    + destruct Hn as [H | [H | H]]; apply lang_Str in H; subst; simpl; auto.
  - intros (ds & plus & bl & noun & -> & Hne & Hds & Hplus & Hbl & Hn).
    exists ds, (plus ++ bl ++ noun). split; [reflexivity|].
    split; [now apply (lang_Plus_Digit false)|].
    exists plus, (bl ++ noun). split; [reflexivity|]. split.
    + apply lang_Opt. destruct Hplus as [-> | ->]; [now left|]. right.
      split; [discriminate|]. exists (ch "+"). now rewrite lit_match_false.
    + exists bl, noun. split; [reflexivity|]. split; [now apply lang_Star_Space|].
      destruct Hn as [<- | [<- | [<- | []]]];
        [left | right; left | right; right]; now apply lang_Str.
Qed.

Lemma search_company_size (text : str) :
  is_match (re_search false re_company_size text) = true <->
  exists ds, size_wording ds text.
Proof.
  rewrite (search_lang false re_company_size text eq_refl). unfold size_wording. split.
  - intros (w & Hw & Hc).
    apply lang_company_size in Hw
      as (ds & plus & bl & noun & -> & Hne & Hds & Hplus & Hbl & Hn).
    exists ds. repeat split; try assumption. now exists plus, bl, noun.
  - intros (ds & Hne & Hds & plus & bl & noun & Hplus & Hbl & Hn & Hc).
    exists (ds ++ plus ++ bl ++ noun). split; [|assumption].
    apply lang_company_size. exists ds, plus, bl, noun. auto 10.
Qed.

(** The digits that [(\d+)\+?\s*(?:person|people|employee)] captures. *)
Lemma company_size_group (text : str) (mo : match_obj) :
  re_search false re_company_size text = Some mo ->
  size_wording (group_text 1 mo) text.
Proof.
  intros H. apply re_search_split in H as (a & b & -> & H).
  unfold re_company_size in H. cbn [Seq] in H.
  apply group1_first in H
    as (st1 & ds & _ & _ & _ & -> & Lds & v & _ & Hrest & Lv);
    [| simpl; tauto | simpl; tauto].
  specialize (Lds eq_refl). specialize (Lv eq_refl).
  apply (lang_Plus_Digit false) in Lds as [Hne Hds].
  cbn [Alt lang] in Lv.
  destruct Lv as (plus & v1 & -> & Hplus & (bl & noun & -> & Hbl & Hn)).
  apply lang_Star_Space in Hbl. apply lang_Opt in Hplus.
  split; [assumption|]. split; [assumption|].
  exists plus, bl, noun. repeat split; try assumption.
  - destruct Hplus as [-> | [_ (x & -> & Hx)]]; [now left|]. right.
    rewrite lit_match_false in Hx. apply N.eqb_eq in Hx. now subst.
  - destruct Hn as [H | [H | H]]; apply lang_Str in H; subst; simpl; auto.
  - apply contains_iff. eexists a, _. simpl in Hrest. rewrite Hrest. reflexivity.
Qed.

Lemma dict_get_In (k : string) (d : dict) (v : value) :
  dict_get k d = Some v -> In k (map fst d).
Proof.
  induction d as [|[k' v'] d IH]; simpl; [discriminate|].
  destruct (String.eqb k' k) eqn:E; [|auto].
  apply String.eqb_eq in E. auto.
Qed.

(** The dictionary that [_extract_company_info] builds, from the stage
    and the size that it finds. *)
Lemma extract_company_info_eq (text : str) :
  exists stage size : option value,
    stage = (if is_match (re_search false re_startup text)
             then Some (VStr (txt "Startup"))
             else if is_match (re_search false re_series text)
             then match re_search false re_series_group text with
                  | Some mo => Some (VStr (txt "Series " ++ upper (group_text 1 mo)))
                  | None => None
                  end
             else if is_match (re_search false re_enterprise text)
             then Some (VStr (txt "Enterprise"))
             else None)
    /\ size = match re_search false re_company_size text with
              | Some mo => Some (VStr (group_text 1 mo ++ txt "+ employees"))
              | None => None
              end
    /\ dict_get "stage" (_extract_company_info text) = stage
    /\ dict_get "size" (_extract_company_info text) = size
    /\ incl (map fst (_extract_company_info text)) ["stage"%string; "size"%string].
Proof.
  eexists. eexists. split; [reflexivity|]. split; [reflexivity|].
  unfold _extract_company_info.
  destruct (re_search false re_company_size text) as [sm|];
    destruct (is_match (re_search false re_startup text));
    try (destruct (is_match (re_search false re_series text));
         [ destruct (re_search false re_series_group text) as [gm|]
         | destruct (is_match (re_search false re_enterprise text)) ]).
  all: split; [reflexivity|]; split; [reflexivity|].
  all: intros k Hk; simpl in Hk; simpl; tauto.
Qed.

(** X3. [_extract_company_info] sets at most the keys stage and size.
    The stage is Startup exactly when a startup wording occurs; failing
    that it is Series with the upper-case letter of an occurrence of
    "series a" to "series d"; failing that it is Enterprise when
    "enterprise" or "fortune" occurs; and it is absent when none of
    these occurs.  The size is the digits of a wording such as
    "200+ employees" or "50 people", always followed by "+ employees". *)
Theorem X3_company_info_stage_and_size :
  forall text : str,
    let info := _extract_company_info text in
    (forall k v, dict_get k info = Some v -> k = "stage"%string \/ k = "size"%string)
    /\ (dict_get "stage" info = Some (VStr (txt "Startup")) <-> startup_wording text)
    /\ (forall v, dict_get "stage" info = Some v ->
          (v = VStr (txt "Startup") /\ startup_wording text)
          \/ (~ startup_wording text
              /\ exists x, series_wording x text
                           /\ v = VStr (txt "Series " ++ [ascii_upper x]))
          \/ (~ startup_wording text /\ (forall x, ~ series_wording x text)
              /\ enterprise_wording text /\ v = VStr (txt "Enterprise")))
    /\ (dict_get "stage" info = None <->
        ~ startup_wording text /\ (forall x, ~ series_wording x text)
        /\ ~ enterprise_wording text)
    /\ (forall v, dict_get "size" info = Some v ->
          exists ds, size_wording ds text /\ v = VStr (ds ++ txt "+ employees"))
    /\ (dict_get "size" info = None <-> forall ds, ~ size_wording ds text).
Proof.
  intros text info.
  destruct (extract_company_info_eq text) as (stage & size & Hstage & Hsize & G1 & G2 & K).
  subst info. rewrite G1, G2. clear G1 G2.
  split; [|split; [|split; [|split; [|split]]]].
  - intros k v H. apply dict_get_In in H. apply K in H. simpl in H.
    destruct H as [<- | [<- | []]]; auto.
  - (* Startup *)
    rewrite <- search_startup. rewrite Hstage.
    destruct (is_match (re_search false re_startup text)); [tauto|].
    split; [|discriminate].
    destruct (is_match (re_search false re_series text)).
    + destruct (re_search false re_series_group text) as [gm|] eqn:Eg; [|discriminate].
      destruct (series_group_letter text gm Eg) as (x & _ & ->). discriminate.
    + destruct (is_match (re_search false re_enterprise text)); discriminate.
  - (* the stage, case by case *)
    intros v. rewrite Hstage.
    pose proof (search_startup text) as Hst.
    pose proof (search_series text) as Hse.
    pose proof (search_enterprise text) as Hen.
    destruct (is_match (re_search false re_startup text)).
    { intros H. injection H as <-. left. split; [reflexivity | now apply Hst]. }
    assert (N1 : ~ startup_wording text) by (intros F; apply Hst in F; discriminate).
    destruct (is_match (re_search false re_series text)).
    { destruct (re_search false re_series_group text) as [gm|] eqn:Eg; [|discriminate].
      destruct (series_group_letter text gm Eg) as (x & Hx & ->).
      intros H. injection H as <-. right. left. split; [assumption|]. now exists x. }
    assert (N2 : forall x, ~ series_wording x text).
    { intros x F. assert (F' : exists x, series_wording x text) by now exists x.
      apply Hse in F'. discriminate. }
    destruct (is_match (re_search false re_enterprise text)); [|discriminate].
    intros H. injection H as <-. right. right.
    repeat split; try assumption. now apply Hen.
  - (* no stage *)
    rewrite Hstage.
    pose proof (search_startup text) as Hst.
    pose proof (search_series text) as Hse.
    pose proof (search_enterprise text) as Hen.
    destruct (is_match (re_search false re_startup text)).
    { split; [discriminate|]. intros (N & _). exfalso. apply N. now apply Hst. }
    assert (N1 : ~ startup_wording text) by (intros F; apply Hst in F; discriminate).
    destruct (is_match (re_search false re_series text)) eqn:E2.
    { destruct (proj1 Hse eq_refl) as (x & Hx).
      assert (Hg : is_match (re_search false re_series_group text) = true).
      { apply (search_lang false re_series text eq_refl) in E2.
        apply (search_lang false re_series_group text eq_refl). exact E2. }
      destruct (re_search false re_series_group text); [|discriminate].
      split; [discriminate|]. intros (_ & N & _). exfalso. now apply (N x). }
    assert (N2 : forall x, ~ series_wording x text).
    { intros x F. assert (F' : exists x, series_wording x text) by now exists x.
      apply Hse in F'. discriminate. }
    destruct (is_match (re_search false re_enterprise text)).
    { split; [discriminate|]. intros (_ & _ & N). exfalso. apply N. now apply Hen. }
    split; [|reflexivity]. intros _. repeat split; try assumption.
    intros F. apply Hen in F. discriminate.
  - (* the size *)
    intros v. rewrite Hsize.
    destruct (re_search false re_company_size text) as [sm|] eqn:E; [|discriminate].
    intros H. injection H as <-. exists (group_text 1 sm).
    split; [now apply company_size_group | reflexivity].
  - rewrite Hsize. pose proof (search_company_size text) as Hsz.
    destruct (re_search false re_company_size text) as [sm|] eqn:E; simpl in Hsz.
    + split; [discriminate|]. intros N. exfalso.
      destruct (proj1 Hsz eq_refl) as (ds & Hds). now apply (N ds).
    + split; [|reflexivity]. intros _ ds F.
      assert (F' : exists ds, size_wording ds text) by now exists ds.
      apply Hsz in F'. discriminate.
Qed.

End CompanyInfo.

(** ** Years of experience *)

Section Years.
Context {U : unicode_db} {SO : set_order}.

Lemma digit_prefix_app (ds b : str) :
  Forall (fun c => isdigit c = true) ds -> length ds <= digit_prefix (ds ++ b).
Proof.
  induction 1 as [|c ds Hc _ IH]; simpl; [lia|]. rewrite Hc. lia.
Qed.

Lemma longest_digit_run_suffix (a s : str) :
  digit_prefix s <= longest_digit_run (a ++ s).
Proof.
  induction a as [|x a IH]; simpl.
  - destruct s as [|c s]; simpl; lia.
  - lia.
Qed.

(** A run of digits of a text is no longer than its longest run. *)
Lemma digit_run_length (ds text : str) :
  digit_run ds text -> length ds <= longest_digit_run text.
Proof.
  intros (_ & Hds & Hc). apply contains_iff in Hc as (a & b & ->).
  pose proof (digit_prefix_app ds b Hds). pose proof (longest_digit_run_suffix a (ds ++ b)).
  lia.
Qed.

Lemma int_of_digits (ds : str) :
  ds <> [] -> Forall (fun c => isdigit c = true) ds ->
  (length ds <= int_max_str_digits ->
     exists n, int_digits 0 ds = Some n /\ int_of ds = Some (Z.of_N n))
  /\ (int_max_str_digits < length ds -> int_of ds = None).
Proof.
  intros Hne Hds. destruct ds as [|c ds]; [congruence|].
  unfold int_of. destruct (int_digits_total (c :: ds) Hds 0%N) as [n Hn].
  split; intros Hl.
  - apply Nat.ltb_ge in Hl. rewrite Hl, Hn. now exists n.
  - apply Nat.ltb_lt in Hl. now rewrite Hl.
Qed.

(** The first match from a position on: no earlier position matches. *)
Lemma search_from_first (ic : bool) (r : regex) (s : str) :
  forall pre mo,
    search_from ic r (length pre) (last_char pre) s = Some mo ->
    exists a b,
      s = a ++ b /\ match_here ic r (state_at (pre ++ a) b) = Some mo
      /\ forall a1 a2, a = a1 ++ a2 -> a2 <> [] ->
           match_here ic r (state_at (pre ++ a1) (a2 ++ b)) = None.
Proof.
  induction s as [|c s IH]; intros pre mo; simpl.
  - fold (state_at pre []).
    destruct (match_here ic r (state_at pre [])) as [mo'|] eqn:E; [|discriminate].
    intros H. injection H as ->. exists [], []. rewrite (app_nil_r pre).
    split; [reflexivity|]. split; [assumption|].
    intros a1 a2 Ha Hne. destruct a1; [simpl in Ha; congruence | discriminate].
  - fold (state_at pre (c :: s)).
    destruct (match_here ic r (state_at pre (c :: s))) as [mo'|] eqn:E.
    + intros H. injection H as ->. exists [], (c :: s). rewrite (app_nil_r pre).
      split; [reflexivity|]. split; [assumption|].
      intros a1 a2 Ha Hne. destruct a1; [simpl in Ha; congruence | discriminate].
    + replace (S (length pre)) with (length (pre ++ [c]))
        by (rewrite length_app; simpl; lia).
      rewrite <- (last_char_snoc pre c). intros H.
      apply IH in H as (a & b & -> & H & Hfirst). exists (c :: a), b.
      rewrite <- app_assoc in H. split; [reflexivity|]. split; [exact H|].
      intros a1 a2 Ha Hne. destruct a1 as [|x a1]; simpl in Ha.
      * subst a2. rewrite (app_nil_r pre). exact E.
      * injection Ha as <- ->.
        specialize (Hfirst a1 a2 eq_refl Hne).
        rewrite <- app_assoc in Hfirst. exact Hfirst.
Qed.

Lemma years_patterns_shape (wording : regex) :
  In wording [years_range_wording; years_single_wording] ->
  context_free (years_pattern wording) = true /\ ~ In 1 (groups wording)
  /\ context_free wording = true.
Proof.
  intros [<- | [<- | []]]; (split; [reflexivity|]); (split; [|reflexivity]);
    simpl; intuition discriminate.
Qed.

(** What [re.search] finds for either pattern of
    [_extract_years_experience]: group 1 holds the digits of the first
    place of the text where digits come with the wording. *)
Lemma years_search_found (wording : regex) (text : str) (mo : match_obj) :
  In wording [years_range_wording; years_single_wording] ->
  re_search true (years_pattern wording) text = Some mo ->
  years_first_found wording text (group_text 1 mo).
Proof.
  intros Hw H. destruct (years_patterns_shape wording Hw) as (Hcf & Hg & Hcfw).
  unfold re_search in H.
  apply (search_from_first true _ text []) in H as (a & b & -> & H & Hfirst).
  simpl app in H, Hfirst.
  unfold years_pattern in H.
  apply group1_first in H as (st1 & ds & _ & _ & _ & -> & Lds & v & _ & Hrest & Lv);
    [| simpl; tauto | assumption].
  specialize (Lds eq_refl). specialize (Lv Hcfw).
  apply (lang_Plus_Digit true) in Lds as [Hne Hds].
  simpl in Hrest.
  exists a, v, (rest (m_end mo)).
  split; [now rewrite Hrest, <- app_assoc|].
  split; [assumption|]. split; [assumption|]. split; [assumption|].
  intros a1 a2 w c Ha Hne2 Hsplit L.
  specialize (Hfirst a1 a2 Ha Hne2).
  assert (E : a2 ++ b = w ++ c) by (now rewrite Hrest, <- app_assoc).
  rewrite E in Hfirst.
  destruct (lang_complete true _ Hcf w L (state_at a1 (w ++ c)) c eq_refl)
    as (st' & M & _).
  apply match_here_complete in M as (mo' & M). congruence.
Qed.

Lemma years_search_not_found (wording : regex) (text : str) :
  In wording [years_range_wording; years_single_wording] ->
  re_search true (years_pattern wording) text = None ->
  years_not_found wording text.
Proof.
  intros Hw H w L. destruct (years_patterns_shape wording Hw) as (Hcf & _).
  destruct (contains w text) eqn:E; [|reflexivity].
  assert (F : is_match (re_search true (years_pattern wording) text) = true).
  { apply (search_lang true _ text Hcf). now exists w. }
  rewrite H in F. discriminate.
Qed.

(** Group 1 of either pattern of [_extract_years_experience] is a run
    of digits of the text. *)
Lemma years_group_digits (pattern : regex) (text : str) (mo : match_obj) :
  In pattern [re_years_range; re_years_single] ->
  re_search true pattern text = Some mo ->
  digit_run (group_text 1 mo) text.
Proof.
  intros Hp H.
  assert (F : exists wording,
            In wording [years_range_wording; years_single_wording]
            /\ years_first_found wording text (group_text 1 mo)).
  { destruct Hp as [<- | [<- | []]].
    - exists years_range_wording. split; [now left|].
      apply years_search_found; [now left | exact H].
    - exists years_single_wording. split; [right; now left|].
      apply years_search_found; [right; now left | exact H]. }
  destruct F as (wording & _ & a & v & b & E & Hne & Hds & _).
  split; [assumption|]. split; [assumption|].
  apply contains_iff. exists a, (v ++ b). exact E.
Qed.

(** What [_extract_years_experience] makes of group 1. *)
Lemma years_read_group (ds : str) :
  ds <> [] -> Forall (fun c => isdigit c = true) ds ->
  years_read ds (match int_of ds with
                 | Some n => ret (Some n)
                 | None => raise ValueError
                 end).
Proof.
  intros Hne Hds. destruct (int_of_digits ds Hne Hds) as [Hle Hgt].
  split; intros Hl.
  - destruct (Hle Hl) as (n & Hn & ->). now exists n.
  - now rewrite (Hgt Hl).
Qed.

(** The years: none when neither pattern matches; else the value of a
    run of digits, or [ValueError] for a run that [int] refuses. *)
Lemma extract_years_experience_cases (text : str) :
  (_extract_years_experience text = inr None
   /\ re_search true re_years_range text = None
   /\ re_search true re_years_single text = None)
  \/ exists ds,
       digit_run ds text
       /\ ((exists n, int_of ds = Some n /\ (0 <= n)%Z
                      /\ _extract_years_experience text = inr (Some n))
           \/ (int_max_str_digits < length ds
               /\ _extract_years_experience text = inl ValueError)).
Proof.
  assert (Hint : forall ds, digit_run ds text ->
            (exists n, int_of ds = Some n /\ (0 <= n)%Z)
            \/ (int_max_str_digits < length ds /\ int_of ds = None)).
  { intros ds (Hne & Hds & _). destruct (int_of_digits ds Hne Hds) as [Hle Hgt].
    destruct (Nat.le_gt_cases (length ds) int_max_str_digits) as [Hl|Hl].
    - left. destruct (Hle Hl) as (n & _ & Hn). exists (Z.of_N n). split; [assumption|lia].
    - right. auto. }
  unfold _extract_years_experience.
  destruct (re_search true re_years_range text) as [mo|] eqn:E1.
  - right. pose proof (years_group_digits re_years_range text mo
                         (or_introl eq_refl) E1) as D.
    exists (group_text 1 mo). split; [exact D|].
    destruct (Hint _ D) as [(n & Hn & Hpos) | (Hl & Hn)]; rewrite Hn;
      [left; now exists n | right; auto].
  - destruct (re_search true re_years_single text) as [mo|] eqn:E2.
    + right. pose proof (years_group_digits re_years_single text mo
                           (or_intror (or_introl eq_refl)) E2) as D.
      exists (group_text 1 mo). split; [exact D|].
      destruct (Hint _ D) as [(n & Hn & Hpos) | (Hl & Hn)]; rewrite Hn;
        [left; now exists n | right; auto].
    + left. auto.
Qed.

(** On a text whose runs of digits [int] reads, the years are none or
    the value of a run of digits. *)
Lemma extract_years_experience_returns (text : str) :
  longest_digit_run text <= int_max_str_digits ->
  (_extract_years_experience text = inr None
   /\ re_search true re_years_range text = None
   /\ re_search true re_years_single text = None)
  \/ exists ds n,
       digit_run ds text /\ int_of ds = Some n /\ (0 <= n)%Z
       /\ _extract_years_experience text = inr (Some n).
Proof.
  intros Hb. destruct (extract_years_experience_cases text)
    as [H | (ds & D & [(n & Hn & Hpos & H) | (Hl & _)])].
  - now left.
  - right. now exists ds, n.
  - pose proof (digit_run_length ds text D). lia.
Qed.

(** X4. [_extract_years_experience] reads group 1 of the first match of
    the range pattern, else group 1 of the first match of the single
    pattern, and returns [None] when neither pattern matches.  Group 1
    holds the digits at the first place of the text where digits come
    with the wording of the pattern after them; the result is their
    decimal value, and [ValueError] when they are more than the 4300
    digits that [int] converts.  A pattern that does not match finds
    such digits nowhere in the text. *)
Theorem X4_years_experience_reads_group_1_of_first_match :
  forall text : str,
    (forall mo, re_search true re_years_range text = Some mo ->
       years_first_found years_range_wording text (group_text 1 mo)
       /\ years_read (group_text 1 mo) (_extract_years_experience text))
    /\ (re_search true re_years_range text = None ->
        years_not_found years_range_wording text
        /\ (forall mo, re_search true re_years_single text = Some mo ->
              years_first_found years_single_wording text (group_text 1 mo)
              /\ years_read (group_text 1 mo) (_extract_years_experience text))
        /\ (re_search true re_years_single text = None ->
              years_not_found years_single_wording text
              /\ _extract_years_experience text = inr None)).
Proof.
  intros text.
  assert (Hr : In years_range_wording [years_range_wording; years_single_wording])
    by (now left).
  assert (Hs : In years_single_wording [years_range_wording; years_single_wording])
    by (right; now left).
  change re_years_range with (years_pattern years_range_wording).
  change re_years_single with (years_pattern years_single_wording).
  assert (Hread : forall wording mo,
            years_first_found wording text (group_text 1 mo) ->
            years_read (group_text 1 mo)
              (match int_of (group_text 1 mo) with
               | Some n => ret (Some n)
               | None => raise ValueError
               end)).
  { intros wording mo (a & v & b & _ & Hne & Hds & _). now apply years_read_group. }
  split.
  - intros mo E. pose proof (years_search_found _ text mo Hr E) as F.
    split; [exact F|].
    unfold _extract_years_experience.
    change re_years_range with (years_pattern years_range_wording).
    rewrite E. exact (Hread _ mo F).
  - intros E1. split; [now apply years_search_not_found|]. split.
    + intros mo E2. pose proof (years_search_found _ text mo Hs E2) as F.
      split; [exact F|].
      unfold _extract_years_experience.
      change re_years_range with (years_pattern years_range_wording).
      change re_years_single with (years_pattern years_single_wording).
      rewrite E1, E2. exact (Hread _ mo F).
    + intros E2. split; [now apply years_search_not_found|].
      unfold _extract_years_experience.
      change re_years_range with (years_pattern years_range_wording).
      change re_years_single with (years_pattern years_single_wording).
      rewrite E1, E2. reflexivity.
Qed.

End Years.

Lemma X4_witness :
  re_search (U := ascii_db) true re_years_range (description posting_years) = None
  /\ exists n,
       int_digits (U := ascii_db) 0 (txt "5") = Some n
       /\ _extract_years_experience (U := ascii_db) (description posting_years)
          = inr (Some (Z.of_N n)).
Proof.
  assert (E1 : re_search (U := ascii_db) true re_years_range (description posting_years)
               = None) by (vm_compute; reflexivity).
  split; [exact E1|].
  destruct (@X4_years_experience_reads_group_1_of_first_match ascii_db
              (description posting_years)) as [_ H].
  destruct (H E1) as (_ & Hsingle & _).
  destruct (re_search (U := ascii_db) true re_years_single (description posting_years))
    as [mo|] eqn:E2; [|vm_compute in E2; discriminate].
  destruct (Hsingle mo eq_refl) as (_ & Hread & _).
  vm_compute in E2. injection E2 as <-.
  apply Hread. apply Nat.leb_le. vm_compute. reflexivity.
Defined.

(** ** One posting *)

Section OnePosting.
Context {U : unicode_db} {SO : set_order}.
Variable nlp : option (str -> spacy_doc).

Lemma extract_experience_level_returns (text : str) :
  longest_digit_run text <= int_max_str_digits ->
  exists l, _extract_experience_level text = inr l /\ In l ExperienceLevel.
Proof.
  intros Hb. rewrite experience_level_cascade. unfold ExperienceLevel.
  destruct (is_match (re_search false re_lead (lower text))); [eexists; split; [reflexivity|simpl; auto]|].
  destruct (is_match (re_search false re_senior (lower text))); [eexists; split; [reflexivity|simpl; auto]|].
  destruct (is_match (re_search false re_entry (lower text))); [eexists; split; [reflexivity|simpl; auto]|].
  destruct (extract_years_experience_returns text Hb)
    as [(H & _) | (ds & n & _ & _ & _ & H)];
    rewrite H; [eexists; split; [reflexivity|simpl; auto]|].
  destruct (Z.eqb n 0); [eexists; split; [reflexivity|simpl; auto]|].
  destruct (Z.leb 10 n); [eexists; split; [reflexivity|simpl; auto]|].
  destruct (Z.leb 6 n); [eexists; split; [reflexivity|simpl; auto]|].
  destruct (Z.leb 3 n); eexists; (split; [reflexivity|simpl; auto]).
Qed.

(** The body of [analyze_job_description] returns, when [int] reads the
    runs of digits of the description. *)
Lemma job_insights_returns (d : JobDescription) :
  longest_digit_run (description d) <= int_max_str_digits ->
  exists i,
    job_insights nlp d = inr i
    /\ ins_title i = title d /\ ins_company i = company d
    /\ ins_location i = match location d with
                        | Some (c :: l) => c :: l
                        | _ => txt "Not specified"
                        end
    /\ In (experience_level i) ExperienceLevel
    /\ _extract_years_experience (description d) = inr (experience_years i)
    /\ ins_salary_range i = _extract_salary_info (salary_range d) (description d).
Proof.
  intros Hb. unfold job_insights.
  destruct (extract_experience_level_returns (description d) Hb) as (l & Hl & Hin).
  rewrite Hl. simpl bind.
  destruct (extract_years_experience_returns (description d) Hb)
    as [(H & _) | (ds & n & _ & _ & _ & H)]; rewrite H; simpl bind;
    eexists; (split; [reflexivity|]); simpl; repeat split; try assumption;
    destruct (location d) as [[|c l']|]; reflexivity.
Qed.

End OnePosting.

Section OnePostingByRules.
Context {U : unicode_db} {SO : set_order}.

(** X5. Without spaCy, on a posting whose runs of digits have at most
    4300 digits, [analyze_job_description] does not raise: it returns
    an insight and hands one debug record, with the title and the
    company of the posting, to the logger.  The insight carries the
    title and the company of the posting, the location or "Not
    specified" when the location is missing or empty, one of the four
    experience levels of [core/models.py], and years that are the value
    of a run of digits of the description. *)
Theorem X5_analyze_job_description_returns :
  forall (d : JobDescription) (w : list log_event),
    longest_digit_run (description d) <= 4300 ->
    exists i,
      analyze_job_description None d w
      = (inr i, w ++ [debug_analyzed (title d) (company d)])
      /\ ins_title i = title d /\ ins_company i = company d
      /\ ins_location i = match location d with
                          | Some (c :: l) => c :: l
                          | _ => txt "Not specified"
                          end
      /\ In (experience_level i) ExperienceLevel
      /\ match experience_years i with
         | None => True
         | Some n => exists ds, digit_run ds (description d) /\ length ds <= 4300
                                /\ int_of ds = Some n /\ (0 <= n)%Z
         end.
Proof.
  intros d w Hb.
  destruct (job_insights_returns None d Hb) as (i & Hi & Ht & Hc & Hl & He & Hy & _).
  exists i. split; [|repeat split; try assumption].
  - unfold analyze_job_description, try_except, mbind, lift, logger, mret.
    rewrite Hi. reflexivity.
  - destruct (extract_years_experience_returns (description d) Hb)
      as [(H & _) | (run & n & D & Hn & Hpos & H)]; rewrite H in Hy;
      injection Hy as <-; [exact I|].
    exists run. pose proof (digit_run_length run (description d) D).
    repeat split; try assumption; try lia; apply D.
Qed.

End OnePostingByRules.

Lemma X5_witness :
  exists i,
    analyze_job_description (U := ascii_db) (SO := insertion_order) None posting_years []
    = (inr i, [] ++ [debug_analyzed (title posting_years) (company posting_years)])
    /\ ins_title i = title posting_years /\ ins_company i = company posting_years
    /\ ins_location i = match location posting_years with
                        | Some (c :: l) => c :: l
                        | _ => txt "Not specified"
                        end
    /\ In (experience_level i) ExperienceLevel
    /\ match experience_years i with
       | None => True
       | Some n => exists ds, digit_run (U := ascii_db) ds (description posting_years)
                              /\ length ds <= 4300
                              /\ int_of (U := ascii_db) ds = Some n /\ (0 <= n)%Z
       end.
Proof.
  apply (@X5_analyze_job_description_returns ascii_db insertion_order posting_years []).
  apply Nat.leb_le. vm_compute. reflexivity.
Defined.

(** ** The batch, posting by posting *)

Section BatchErrors.
Context {U : unicode_db} {SO : set_order}.

(** What [analyze_multiple_descriptions] raises, and the log then. *)
Lemma analyze_multiple_descriptions_with_raises :
  forall (analyze : JobDescription -> M insight) (min_required : Z)
         (descriptions : list JobDescription) (w w' : list log_event) (e : exn),
    analyze_multiple_descriptions_with analyze min_required descriptions w = (inl e, w') ->
    (e = InsufficientDataError min_required (length descriptions)
     /\ w' = w /\ (Z.of_nat (length descriptions) < min_required)%Z)
    \/ (exists cause w1,
          e = AnalysisError cause
          /\ w' = w1 ++ [error_multi cause]
          /\ (min_required <= Z.of_nat (length descriptions))%Z).
Proof.
  intros analyze min_required descriptions w w' e.
  unfold analyze_multiple_descriptions_with.
  destruct (Z.ltb (Z.of_nat (length descriptions)) min_required) eqn:Egate.
  - apply Z.ltb_lt in Egate. unfold mraise. intros H. injection H as He Hw. subst. auto.
  - apply Z.ltb_ge in Egate. intros H. right. revert H.
    unfold mbind, logger, try_except, lift, mret, mraise.
    destruct (for_each analyze descriptions
                (w ++ [info_analyzing (length descriptions)])) as [[e0|a] w0].
    { intros H. injection H as He Hw. subst. now exists e0, w0. }
    destruct (if nonempty (map ins_salary_range (filter has_min a))
              then d <- _aggregate_salary_data (map ins_salary_range (filter has_min a)) ;;
                   ret (Some d)
              else ret None) as [e0|s0].
    { intros H. injection H as He Hw. subst. now exists e0, w0. }
    destruct (_generate_market_comparison a) as [e0|mc].
    { intros H. injection H as He Hw. subst. now exists e0, w0. }
    discriminate.
Qed.

(** X6. Whatever the per-document analysis does,
    [analyze_multiple_descriptions] raises nothing but
    [InsufficientDataError], from the gate and with the log untouched, and
    [AnalysisError], which wraps the exception of a per-document analysis
    or of the aggregation and comes after an error record for it, the
    last of the log. *)
Theorem X6_batch_raises_only_its_two_errors :
  forall (analyze : JobDescription -> M insight) (min_required : Z)
         (descriptions : list JobDescription) (w w' : list log_event) (e : exn),
    analyze_multiple_descriptions_with analyze min_required descriptions w = (inl e, w') ->
    (e = InsufficientDataError min_required (length descriptions)
     /\ w' = w /\ (Z.of_nat (length descriptions) < min_required)%Z)
    \/ (exists cause w1,
          e = AnalysisError cause
          /\ w' = w1 ++ [error_multi cause]
          /\ (min_required <= Z.of_nat (length descriptions))%Z).
Proof. exact analyze_multiple_descriptions_with_raises. Qed.

Lemma for_each_app {A B} (f : A -> M B) (l1 l2 : list A) (w : list log_event) :
  for_each f (l1 ++ l2) w
  = match for_each f l1 w with
    | (inl e, w1) => (inl e, w1)
    | (inr ys, w1) =>
        match for_each f l2 w1 with
        | (inl e, w2) => (inl e, w2)
        | (inr zs, w2) => (inr (ys ++ zs), w2)
        end
    end.
Proof.
  revert w. induction l1 as [|x l1 IH]; intros w; simpl.
  - unfold mret. destruct (for_each f l2 w) as [[e|zs] w2]; reflexivity.
  - unfold mbind, mret.
    destruct (f x w) as [[e|y] w1]; [reflexivity|].
    rewrite IH.
    destruct (for_each f l1 w1) as [[e|ys] w2]; [reflexivity|].
    destruct (for_each f l2 w2) as [[e|zs] w3]; reflexivity.
Qed.

(** X7. The batch is all or nothing.  When the analysis of a posting
    raises, the postings before it having been analysed, the batch ends
    there: [analyze_multiple_descriptions] raises [AnalysisError] around
    that exception, the log ends with the records of the failing analysis
    and the error record of the batch, and the postings that follow are
    not analysed. *)
Theorem X7_batch_stops_at_first_failure :
  forall (analyze : JobDescription -> M insight) (min_required : Z)
         (before after : list JobDescription) (d : JobDescription)
         (w w1 w2 : list log_event) (done : list insight) (e : exn),
    (min_required <= Z.of_nat (length (before ++ d :: after)))%Z ->
    for_each analyze before (w ++ [info_analyzing (length (before ++ d :: after))])
      = (inr done, w1) ->
    analyze d w1 = (inl e, w2) ->
    analyze_multiple_descriptions_with analyze min_required (before ++ d :: after) w
    = (inl (AnalysisError e), w2 ++ [error_multi e]).
Proof.
  intros analyze min_required before after d w w1 w2 done e Hgate Hbefore Hd.
  unfold analyze_multiple_descriptions_with.
  apply Z.ltb_ge in Hgate. rewrite Hgate.
  unfold mbind, logger, try_except.
  rewrite for_each_app, Hbefore. simpl for_each. unfold mbind. rewrite Hd. reflexivity.
Qed.

(** X9. An empty batch that the gate lets through, the minimum being
    zero or less, is not analysed into an empty result: the division by
    the number of insights in [_find_common_patterns] raises
    [ZeroDivisionError], which comes out as [AnalysisError]. *)
Theorem X9_empty_batch_raises_analysis_error :
  forall (analyze : JobDescription -> M insight) (min_required : Z)
         (w : list log_event),
    (min_required <= 0)%Z ->
    analyze_multiple_descriptions_with analyze min_required [] w
    = (inl (AnalysisError ZeroDivisionError),
       w ++ [info_analyzing 0; error_multi ZeroDivisionError]).
Proof.
  intros analyze min_required w Hmin.
  unfold analyze_multiple_descriptions_with.
  change (Z.of_nat (@length JobDescription [])) with 0%Z.
  assert (G : Z.ltb 0 min_required = false) by (apply Z.ltb_ge; lia).
  rewrite G. unfold mbind, logger, try_except, lift, mret, mraise. simpl.
  now rewrite <- app_assoc.
Qed.

End BatchErrors.

Lemma X6_witness :
  (AnalysisError TypeError = InsufficientDataError default_min_job_descriptions
                               (length short_batch)
   /\ [info_analyzing 3; debug_analyzed (txt "PM") (txt "Corp"); error_multi TypeError] = []
   /\ (Z.of_nat (length short_batch) < default_min_job_descriptions)%Z)
  \/ (exists cause w1,
        AnalysisError TypeError = AnalysisError cause
        /\ [info_analyzing 3; debug_analyzed (txt "PM") (txt "Corp"); error_multi TypeError]
           = w1 ++ [error_multi cause]
        /\ (default_min_job_descriptions <= Z.of_nat (length short_batch))%Z).
Proof.
  apply (X6_batch_raises_only_its_two_errors loud_analysis default_min_job_descriptions
           short_batch []).
  reflexivity.
Defined.

Lemma X7_witness :
  analyze_multiple_descriptions_with loud_analysis default_min_job_descriptions
    ([] ++ short_posting :: [short_posting; short_posting]) []
  = (inl (AnalysisError TypeError),
     [info_analyzing 3; debug_analyzed (txt "PM") (txt "Corp")] ++ [error_multi TypeError]).
Proof.
  apply (X7_batch_stops_at_first_failure loud_analysis default_min_job_descriptions
           [] [short_posting; short_posting] short_posting []
           [info_analyzing 3] _ [] TypeError).
  - vm_compute. discriminate.
  - reflexivity.
  - reflexivity.
Defined.

Lemma X9_witness :
  analyze_multiple_descriptions_with loud_analysis 0 [] []
  = (inl (AnalysisError ZeroDivisionError),
     [] ++ [info_analyzing 0; error_multi ZeroDivisionError]).
Proof.
  apply (X9_empty_batch_raises_analysis_error loud_analysis 0 []). lia.
Defined.

(** ** A batch that passes the gate *)

Section BatchSuccess.
Context {U : unicode_db} {SO : set_order}.
Variable nlp : option (str -> spacy_doc).

Lemma for_each_analyze_job_description_returns (descriptions : list JobDescription) :
  Forall (fun d => longest_digit_run (description d) <= int_max_str_digits)
    descriptions ->
  forall w, exists all_insights,
    for_each (analyze_job_description nlp) descriptions w
    = (inr all_insights,
       w ++ map (fun d => debug_analyzed (title d) (company d)) descriptions)
    /\ Forall2 (fun d i => job_insights nlp d = inr i) descriptions all_insights.
Proof.
  induction 1 as [|d ds Hd _ IH]; intros w; simpl.
  - exists []. unfold mret. rewrite app_nil_r. split; [reflexivity | constructor].
  - destruct (job_insights_returns nlp d Hd) as (i & Hi & _).
    destruct (IH (w ++ [debug_analyzed (title d) (company d)])) as (is' & Hfor & Hall).
    exists (i :: is'). split; [|now constructor].
    unfold mbind at 1. unfold analyze_job_description at 1.
    unfold try_except, mbind, lift, logger, mret. rewrite Hi.
    unfold mbind, mret in Hfor. rewrite Hfor. now rewrite <- app_assoc.
Qed.

Lemma generate_market_comparison_returns (all_insights : list insight) :
  all_insights <> [] -> exists mc, _generate_market_comparison all_insights = inr mc.
Proof.
  intros Hne. unfold _generate_market_comparison, _find_common_patterns.
  destruct all_insights as [|i is']; [congruence|]. simpl bind. eauto.
Qed.

Lemma salary_insights_returns (descriptions : list JobDescription)
    (all_insights : list insight) :
  Forall2 (fun d i => job_insights nlp d = inr i) descriptions all_insights ->
  exists s,
    (if nonempty (map ins_salary_range (filter has_min all_insights))
     then d <- _aggregate_salary_data (map ins_salary_range (filter has_min all_insights)) ;;
          ret (Some d)
     else ret None) = inr s.
Proof.
  intros Hall.
  destruct (map ins_salary_range (filter has_min all_insights)) as [|s0 ss] eqn:E;
    simpl nonempty; cbv iota; [eauto|].
  assert (F : Forall fully_parsed (s0 :: ss)).
  { rewrite <- E. apply Forall_forall. intros s Hs.
    apply in_map_iff in Hs as (i & <- & Hi). apply filter_In in Hi as [Hi Hmin].
    assert (Hd : exists d, job_insights nlp d = inr i).
    { clear - Hall Hi. induction Hall as [|d i' ds is' Hdi _ IH]; [contradiction|].
      destruct Hi as [<- | Hi]; eauto. }
    destruct Hd as [d Hd]. eapply has_min_fully_parsed; eassumption. }
  destruct (aggregate_fully_parsed (s0 :: ss) F) as (m0 & ms & x0 & xs & _ & _ & H);
    [discriminate|].
  rewrite H. simpl. eauto.
Qed.

(** A batch that passes the gate and is not empty is analysed, when
    [int] reads the runs of digits of its descriptions. *)
Lemma analyze_multiple_descriptions_returns (min_required : Z)
    (descriptions : list JobDescription) (w : list log_event) :
  (min_required <= Z.of_nat (length descriptions))%Z ->
  descriptions <> [] ->
  Forall (fun d => longest_digit_run (description d) <= int_max_str_digits)
    descriptions ->
  exists r,
    analyze_multiple_descriptions nlp min_required descriptions w
    = (inr r,
       w ++ [info_analyzing (length descriptions)]
         ++ map (fun d => debug_analyzed (title d) (company d)) descriptions
         ++ [info_complete (length (common_skills r))])
    /\ total_analyzed r = length descriptions
    /\ Forall2 (fun d i => job_insights nlp d = inr i) descriptions (insights r).
Proof.
  intros Hgate Hne Hdigits.
  destruct (for_each_analyze_job_description_returns descriptions Hdigits
              (w ++ [info_analyzing (length descriptions)]))
    as (all_insights & Hfor & Hall).
  destruct (salary_insights_returns descriptions all_insights Hall) as (s & Hs).
  destruct (generate_market_comparison_returns all_insights) as (mc & Hmc).
  { intros ->. inversion Hall. subst. congruence. }
  exists {| total_analyzed := length descriptions;
            common_skills := most_common 50 (Counter (flat_map skills all_insights));
            common_responsibilities :=
              most_common 30 (Counter (flat_map responsibilities all_insights));
            common_qualifications :=
              most_common 30 (Counter (flat_map qualifications all_insights));
            insights := all_insights;
            salary_insights := s;
            market_comparison := Some mc |}.
  split; [|split; [reflexivity | exact Hall]].
  unfold analyze_multiple_descriptions, analyze_multiple_descriptions_with.
  apply Z.ltb_ge in Hgate. rewrite Hgate.
  unfold mbind, logger, try_except, lift, mret. rewrite Hfor, Hs, Hmc.
  cbn [common_skills]. rewrite <- !app_assoc. reflexivity.
Qed.

End BatchSuccess.

Section BatchSuccessByRules.
Context {U : unicode_db} {SO : set_order}.

(** X8. Without spaCy, a batch that is not empty, has as many postings
    as the gate asks for, and whose runs of digits have at most 300
    digits is always analysed: [analyze_multiple_descriptions] returns a
    result and raises no [AnalysisError].  The log gains the opening
    record, one debug record for each posting in the order of the batch,
    and the closing record with the number of skills counted.  The
    result holds one insight for each posting, in the order of the
    batch, with the title and the company of the posting and years read
    from a run of digits of its description. *)
Theorem X8_batch_analysis_succeeds :
  forall (min_required : Z) (descriptions : list JobDescription) (w : list log_event),
    (min_required <= Z.of_nat (length descriptions))%Z ->
    descriptions <> [] ->
    Forall (fun d => longest_digit_run (description d) <= 300) descriptions ->
    exists r,
      analyze_multiple_descriptions None min_required descriptions w
      = (inr r,
         w ++ [info_analyzing (length descriptions)]
           ++ map (fun d => debug_analyzed (title d) (company d)) descriptions
           ++ [info_complete (length (common_skills r))])
      /\ total_analyzed r = length descriptions
      /\ Forall2 (fun d i =>
                    ins_title i = title d /\ ins_company i = company d
                    /\ match experience_years i with
                       | None => True
                       | Some n => exists ds, digit_run ds (description d)
                                              /\ length ds <= 300
                                              /\ int_of ds = Some n
                       end)
                 descriptions (insights r).
Proof.
  intros min_required descriptions w Hgate Hne Hdigits.
  assert (Hdigits' : Forall (fun d => longest_digit_run (description d)
                                      <= int_max_str_digits) descriptions).
  { eapply Forall_impl; [|exact Hdigits]. intros d Hd. cbv beta in Hd.
    unfold int_max_str_digits. lia. }
  destruct (analyze_multiple_descriptions_returns None min_required descriptions w
              Hgate Hne Hdigits')
    as (r & Hrun & Htotal & Hall).
  exists r. split; [exact Hrun|]. split; [exact Htotal|].
  clear - Hall Hdigits Hdigits'.
  induction Hall as [|d i ds is' Hdi _ IH]; [constructor|].
  inversion Hdigits as [|? ? Hd Hds]; subst.
  inversion Hdigits' as [|? ? Hd' Hds']; subst.
  constructor; [|now apply IH].
  destruct (job_insights_returns None d Hd') as (i' & Hi' & Ht & Hc & _ & _ & Hy & _).
  rewrite Hdi in Hi'. injection Hi' as <-.
  split; [assumption|]. split; [assumption|].
  destruct (extract_years_experience_returns (description d) Hd')
    as [(H & _) | (run & n & D & Hn & _ & H)]; rewrite H in Hy;
    injection Hy as <-; [exact I|].
  exists run. pose proof (digit_run_length run (description d) D).
  repeat split; try assumption; try lia; apply D.
Qed.

End BatchSuccessByRules.

Lemma X8_witness :
  exists r,
    analyze_multiple_descriptions (U := ascii_db) (SO := insertion_order) None
      default_min_job_descriptions sample_batch []
    = (inr r,
       [] ++ [info_analyzing (length sample_batch)]
          ++ map (fun d => debug_analyzed (title d) (company d)) sample_batch
          ++ [info_complete (length (common_skills r))])
    /\ total_analyzed r = length sample_batch
    /\ Forall2 (fun d i =>
                  ins_title i = title d /\ ins_company i = company d
                  /\ match experience_years i with
                     | None => True
                     | Some n => exists ds, digit_run (U := ascii_db) ds (description d)
                                            /\ length ds <= 300
                                            /\ int_of (U := ascii_db) ds = Some n
                     end)
               sample_batch (insights r).
Proof.
  apply (@X8_batch_analysis_succeeds ascii_db insertion_order
           default_min_job_descriptions sample_batch []).
  - vm_compute. discriminate.
  - discriminate.
  - repeat constructor; apply Nat.leb_le; vm_compute; reflexivity.
Defined.

(** ** The salary summary, at its edges *)


(** *** Bounds *)

Lemma fold_min_le (l : list Z) (m : Z) :
  (fold_left Z.min l m <= m)%Z /\ Forall (fun x => fold_left Z.min l m <= x)%Z l.
Proof.
  revert m. induction l as [|x l IH]; intros m; simpl; [split; [lia | constructor]|].
  destruct (IH (Z.min m x)) as [H1 H2]. split; [lia|]. constructor; [lia | assumption].
Qed.

Lemma fold_min_In (l : list Z) (m : Z) : In (fold_left Z.min l m) (m :: l).
Proof.
  revert m. induction l as [|x l IH]; intros m; simpl; [auto|].
  destruct (IH (Z.min m x)) as [H | H]; [|right; right; exact H].
  destruct (Z.min_spec m x) as [[_ E] | [_ E]];
    [left | right; left]; rewrite <- H; symmetry; exact E.
Qed.

Lemma fold_max_ge (l : list Z) (m : Z) :
  (m <= fold_left Z.max l m)%Z /\ Forall (fun x => x <= fold_left Z.max l m)%Z l.
Proof.
  revert m. induction l as [|x l IH]; intros m; simpl; [split; [lia | constructor]|].
  destruct (IH (Z.max m x)) as [H1 H2]. split; [lia|]. constructor; [lia | assumption].
Qed.

Lemma fold_max_In (l : list Z) (m : Z) : In (fold_left Z.max l m) (m :: l).
Proof.
  revert m. induction l as [|x l IH]; intros m; simpl; [auto|].
  destruct (IH (Z.max m x)) as [H | H]; [|right; right; exact H].
  destruct (Z.max_spec m x) as [[_ E] | [_ E]];
    [right; left | left]; rewrite <- H; symmetry; exact E.
Qed.

Lemma fold_add_acc (l : list Z) (a : Z) :
  fold_left Z.add l a = (a + fold_left Z.add l 0)%Z.
Proof.
  revert a. induction l as [|x l IH]; intros a; simpl; [lia|].
  rewrite (IH (a + x)%Z), (IH x). lia.
Qed.

Lemma sum_bounds (l : list Z) (lo hi : Z) :
  Forall (fun x => lo <= x <= hi)%Z l ->
  (lo * Z.of_nat (length l) <= fold_left Z.add l 0 <= hi * Z.of_nat (length l))%Z.
Proof.
  induction 1 as [|x l Hx _ IH]; [simpl; lia|].
  cbn [fold_left length]. rewrite fold_add_acc. lia.
Qed.

Lemma average_bounds (l : list Z) (lo hi : Z) :
  l <> [] -> Forall (fun x => lo <= x <= hi)%Z l ->
  (lo <= fold_left Z.add l 0 / Z.of_nat (length l) <= hi)%Z.
Proof.
  intros Hne H. pose proof (sum_bounds l lo hi H) as [H1 H2].
  assert (Hn : (0 < Z.of_nat (length l))%Z) by (destruct l; [congruence | simpl; lia]).
  split.
  - apply Z.div_le_lower_bound; lia.
  - apply Z.div_le_upper_bound; lia.
Qed.

(** X11. Over salaries that are fully parsed, [_aggregate_salary_data]
    returns a summary in which market_min is the least of the minimums
    and market_max the greatest of the maximums, each of them attained;
    average_min lies between the least and the greatest minimum,
    average_max between the least and the greatest maximum; and
    sample_size is the number of salaries. *)
Theorem X11_aggregate_salary_data_bounds :
  forall salary_ranges : list dict,
    Forall fully_parsed salary_ranges -> salary_ranges <> [] ->
    exists summary,
      _aggregate_salary_data salary_ranges = inr summary
      /\ int_at "sample_size" summary = Z.of_nat (length salary_ranges)
      /\ Forall (fun s => (int_at "market_min" summary <= int_at "min" s)%Z
                          /\ (int_at "max" s <= int_at "market_max" summary)%Z)
                salary_ranges
      /\ (exists s, In s salary_ranges /\ int_at "min" s = int_at "market_min" summary)
      /\ (exists s, In s salary_ranges /\ int_at "max" s = int_at "market_max" summary)
      /\ (int_at "market_min" summary <= int_at "average_min" summary)%Z
      /\ (int_at "average_max" summary <= int_at "market_max" summary)%Z
      /\ (exists s, In s salary_ranges
                    /\ (int_at "average_min" summary <= int_at "min" s)%Z)
      /\ (exists s, In s salary_ranges
                    /\ (int_at "max" s <= int_at "average_max" summary)%Z).
Proof.
  intros ds F Hne.
  destruct (aggregate_fully_parsed ds F Hne) as (m0 & ms & x0 & xs & Hmin & Hmax & H).
  eexists. split; [exact H|].
  change (int_at "sample_size" _) with (Z.of_nat (length ds)).
  change (int_at "market_min" _) with (fold_left Z.min ms m0).
  change (int_at "market_max" _) with (fold_left Z.max xs x0).
  change (int_at "average_min" _)
    with (fold_left Z.add (m0 :: ms) 0 / Z.of_nat (length ds))%Z.
  change (int_at "average_max" _)
    with (fold_left Z.add (x0 :: xs) 0 / Z.of_nat (length ds))%Z.
  pose proof (fold_min_le ms m0) as [Hm1 Hm2].
  pose proof (fold_max_ge xs x0) as [Hx1 Hx2].
  assert (Hmins : Forall (fun x => fold_left Z.min ms m0 <= x)%Z (map (int_at "min") ds))
    by (rewrite Hmin; now constructor).
  assert (Hmaxs : Forall (fun x => x <= fold_left Z.max xs x0)%Z (map (int_at "max") ds))
    by (rewrite Hmax; now constructor).
  rewrite Forall_map in Hmins, Hmaxs.
  assert (Lmin : length ds = length (m0 :: ms)) by (rewrite <- Hmin; now rewrite length_map).
  assert (Lmax : length ds = length (x0 :: xs)) by (rewrite <- Hmax; now rewrite length_map).
  split; [reflexivity|]. split; [|split; [|split; [|split; [|split; [|split]]]]].
  - rewrite Forall_forall in *. intros s Hs. split; [now apply Hmins | now apply Hmaxs].
  - pose proof (fold_min_In ms m0) as Hin. rewrite <- Hmin in Hin.
    apply in_map_iff in Hin as (s & Hs & Hin). now exists s.
  - pose proof (fold_max_In xs x0) as Hin. rewrite <- Hmax in Hin.
    apply in_map_iff in Hin as (s & Hs & Hin). now exists s.
  - rewrite Lmin.
    apply (average_bounds (m0 :: ms) (fold_left Z.min ms m0) (fold_left Z.max ms m0));
      [discriminate|].
    pose proof (fold_max_ge ms m0) as [G1 G2].
    constructor; [lia|]. rewrite Forall_forall in *. intros x Hx.
    specialize (Hm2 x Hx). specialize (G2 x Hx). lia.
  - rewrite Lmax.
    apply (average_bounds (x0 :: xs) (fold_left Z.min xs x0) (fold_left Z.max xs x0));
      [discriminate|].
    pose proof (fold_min_le xs x0) as [G1 G2].
    constructor; [lia|]. rewrite Forall_forall in *. intros x Hx.
    specialize (Hx2 x Hx). specialize (G2 x Hx). lia.
  - pose proof (fold_max_In ms m0) as Hin. rewrite <- Hmin in Hin.
    apply in_map_iff in Hin as (s & Hs & Hin). exists s. split; [assumption|].
    rewrite Hs, Lmin.
    apply (average_bounds (m0 :: ms) (fold_left Z.min ms m0) (fold_left Z.max ms m0));
      [discriminate|].
    pose proof (fold_max_ge ms m0) as [G1 G2].
    constructor; [lia|]. rewrite Forall_forall in *. intros x Hx.
    specialize (Hm2 x Hx). specialize (G2 x Hx). lia.
  - pose proof (fold_min_In xs x0) as Hin. rewrite <- Hmax in Hin.
    apply in_map_iff in Hin as (s & Hs & Hin). exists s. split; [assumption|].
    rewrite Hs, Lmax.
    apply (average_bounds (x0 :: xs) (fold_left Z.min xs x0) (fold_left Z.max xs x0));
      [discriminate|].
    pose proof (fold_min_le xs x0) as [G1 G2].
    constructor; [lia|]. rewrite Forall_forall in *. intros x Hx.
    specialize (Hx2 x Hx). specialize (G2 x Hx). lia.
Qed.

Lemma X11_witness :
  exists summary,
    _aggregate_salary_data [salary_120_150; salary_95_110] = inr summary
    /\ int_at "sample_size" summary = Z.of_nat (length [salary_120_150; salary_95_110])
    /\ Forall (fun s => (int_at "market_min" summary <= int_at "min" s)%Z
                        /\ (int_at "max" s <= int_at "market_max" summary)%Z)
              [salary_120_150; salary_95_110]
    /\ (exists s, In s [salary_120_150; salary_95_110]
                  /\ int_at "min" s = int_at "market_min" summary)
    /\ (exists s, In s [salary_120_150; salary_95_110]
                  /\ int_at "max" s = int_at "market_max" summary)
    /\ (int_at "market_min" summary <= int_at "average_min" summary)%Z
    /\ (int_at "average_max" summary <= int_at "market_max" summary)%Z
    /\ (exists s, In s [salary_120_150; salary_95_110]
                  /\ (int_at "average_min" summary <= int_at "min" s)%Z)
    /\ (exists s, In s [salary_120_150; salary_95_110]
                  /\ (int_at "max" s <= int_at "average_max" summary)%Z).
Proof.
  apply (X11_aggregate_salary_data_bounds [salary_120_150; salary_95_110]).
  - repeat constructor; do 3 eexists; reflexivity.
  - discriminate.
Defined.

(** ** The grouping of skills *)

Lemma first_category_In (s : str) (c : string) :
  first_category s = Some c ->
  In c (map fst skill_patterns) /\ In s all_skill_phrases.
Proof.
  unfold first_category.
  destruct (find _ skill_patterns) as [[c' l]|] eqn:E; [|discriminate].
  intros H. injection H as ->. apply find_some in E as [Hin Hl].
  apply existsb_text_eqb in Hl. split.
  - apply in_map_iff. now exists (c, l).
  - unfold all_skill_phrases. apply in_flat_map. now exists (c, l).
Qed.

Lemma first_category_Some (s : str) :
  In s all_skill_phrases -> exists c, first_category s = Some c.
Proof.
  unfold all_skill_phrases. intros H. apply in_flat_map in H as ([c l] & Hin & Hs).
  unfold first_category.
  destruct (find (fun '(_, skill_list) => existsb (text_eqb s) skill_list) skill_patterns)
    as [[c' l']|] eqn:E; [eauto|].
  exfalso. pose proof (find_none _ _ E (c, l) Hin) as N. cbv beta iota in N.
  apply existsb_text_eqb in Hs. simpl in Hs. congruence.
Qed.

Lemma cat_append_map (c0 : string) (s : str) (F : string -> list str)
    (cats : list string) :
  NoDup cats ->
  cat_append c0 s (map (fun c => (c, F c)) cats)
  = map (fun c => (c, if String.eqb c c0 then F c ++ [s] else F c)) cats.
Proof.
  induction 1 as [|c cats Hc Hnd IH]; simpl; [reflexivity|].
  destruct (String.eqb c c0) eqn:E.
  - apply String.eqb_eq in E. subst c0. f_equal.
    apply map_ext_in. intros c' Hc'.
    destruct (String.eqb c' c) eqn:E'; [|reflexivity].
    apply String.eqb_eq in E'. subst. contradiction.
  - now rewrite IH.
Qed.

Lemma categorize_loop (cats : list string) (skills : list str) :
  NoDup cats ->
  forall p,
    fold_left (fun categorized skill =>
                 match first_category skill with
                 | Some category => cat_append category skill categorized
                 | None => categorized
                 end)
      skills
      (map (fun c => (c, filter (in_category c) p)) cats)
    = map (fun c => (c, filter (in_category c) (p ++ skills))) cats.
Proof.
  intros Hnd. induction skills as [|s skills IH]; intros p; cbn [fold_left].
  - now rewrite app_nil_r.
  - replace (p ++ s :: skills) with ((p ++ [s]) ++ skills) by now rewrite <- app_assoc.
    rewrite <- IH. f_equal.
    destruct (first_category s) as [c0|] eqn:E.
    + rewrite (cat_append_map c0 s (fun c => filter (in_category c) p) cats Hnd).
      apply map_ext. intros c. rewrite filter_app. cbn [filter].
      assert (Hc : in_category c s = String.eqb c c0)
        by (unfold in_category; rewrite E; apply String.eqb_sym).
      rewrite Hc.
      destruct (String.eqb c c0); [reflexivity | now rewrite app_nil_r].
    + apply map_ext. intros c. rewrite filter_app. cbn [filter].
      assert (Hc : in_category c s = false) by (unfold in_category; now rewrite E).
      rewrite Hc. now rewrite app_nil_r.
Qed.

(** X12. [_categorize_skills] groups the skills by the first category
    of the taxonomy that lists them.  The categories come in the order of
    the taxonomy, each with its skills in the order and with the
    repetitions of the input; a category without skill is left out.
    Every skill of the input that the taxonomy lists is kept, and a skill
    that it does not list is dropped. *)
Theorem X12_categorize_skills_groups_by_first_category :
  forall skills : list str,
    _categorize_skills skills
    = filter (fun '(k, v) => nonempty v)
        (map (fun c => (c, filter (in_category c) skills)) (map fst skill_patterns))
    /\ (forall s, In s skills -> In s all_skill_phrases ->
          exists c l, In (c, l) (_categorize_skills skills) /\ In s l)
    /\ (forall c l s, In (c, l) (_categorize_skills skills) -> In s l ->
          In s skills /\ In s all_skill_phrases)
    /\ (forall c l, In (c, l) (_categorize_skills skills) -> l <> []).
Proof.
  intros skills.
  assert (E : _categorize_skills skills
              = filter (fun '(k, v) => nonempty v)
                  (map (fun c => (c, filter (in_category c) skills))
                       (map fst skill_patterns))).
  { unfold _categorize_skills. f_equal.
    change (map (fun '(category, _) => (category, [])) skill_patterns)
      with (map (fun c => (c, filter (in_category c) (@nil str))) (map fst skill_patterns)).
    apply (categorize_loop (map fst skill_patterns) skills skill_patterns_keys_NoDup []). }
  split; [exact E|]. rewrite E. split; [|split].
  - intros s Hs Hall. destruct (first_category_Some s Hall) as [c Hc].
    exists c, (filter (in_category c) skills).
    assert (Hin : In s (filter (in_category c) skills)).
    { apply filter_In. split; [assumption|]. unfold in_category.
      rewrite Hc. apply String.eqb_refl. }
    split; [|assumption]. apply filter_In. split.
    + apply in_map_iff. exists c. split; [reflexivity|].
      exact (proj1 (first_category_In s c Hc)).
    + destruct (filter (in_category c) skills); [contradiction | reflexivity].
  - intros c l s Hcl Hs. apply filter_In in Hcl as [Hcl _].
    apply in_map_iff in Hcl as (c' & Heq & _). injection Heq as -> <-.
    apply filter_In in Hs as [Hs Hc]. split; [assumption|].
    unfold in_category in Hc. destruct (first_category s) as [c0|] eqn:E0; [|discriminate].
    exact (proj2 (first_category_In s c0 E0)).
  - intros c l Hcl. apply filter_In in Hcl as [_ Hne]. intros ->. discriminate.
Qed.

(** ** Skills with spaCy *)

Lemma set_update_In (x : str) (new s : list str) :
  In x (set_update s new) <-> In x s \/ In x new.
Proof.
  unfold set_update. revert s. induction new as [|y new IH]; intros s; simpl.
  - tauto.
  - rewrite IH, set_add_In. split.
    + intros [[H | ->] | H]; auto.
    + intros [H | [<- | H]]; auto.
Qed.

Lemma set_update_NoDup (new s : list str) : NoDup s -> NoDup (set_update s new).
Proof.
  unfold set_update. revert s. induction new as [|y new IH]; intros s H; simpl;
    [assumption|]. apply IH. now apply set_add_NoDup.
Qed.

Lemma add_skills_where_In (p : str -> bool) (acc : list str) (x : str) :
  In x (add_skills_where p acc) <-> In x acc \/ (In x all_skill_phrases /\ p x = true).
Proof. unfold add_skills_where. apply add_matching_categories_In. Qed.

Lemma add_skills_where_NoDup (p : str -> bool) (acc : list str) :
  NoDup acc -> NoDup (add_skills_where p acc).
Proof. unfold add_skills_where. apply add_matching_categories_NoDup. Qed.

Lemma add_skills_loop_In {A} (P : A -> str -> bool) (l : list A) (x : str) :
  forall acc,
    In x (fold_left (fun skills a => add_skills_where (P a) skills) l acc)
    <-> In x acc \/ (In x all_skill_phrases /\ exists a, In a l /\ P a x = true).
Proof.
  induction l as [|a l IH]; intros acc; simpl.
  - split; [auto | intros [H | (_ & a & [] & _)]; assumption].
  - rewrite IH, add_skills_where_In. split.
    + intros [[H | (H1 & H2)] | (H1 & b & Hb & H2)]; eauto 8.
    + intros [H | (H1 & b & [<- | Hb] & H2)]; eauto 8.
Qed.

Lemma add_skills_loop_NoDup {A} (P : A -> str -> bool) (l : list A) :
  forall acc, NoDup acc ->
    NoDup (fold_left (fun skills a => add_skills_where (P a) skills) l acc).
Proof.
  induction l as [|a l IH]; intros acc H; simpl; [assumption|].
  apply IH. now apply add_skills_where_NoDup.
Qed.

Section SkillsNlp.
Context {U : unicode_db} {SO : set_order}.

Lemma extract_skills_rules_In (text skill : str) :
  In skill (_extract_skills_rules text)
  <-> In skill all_skill_phrases /\ whole_phrase skill text.
Proof.
  unfold _extract_skills_rules. cbv zeta. rewrite list_of_set_In.
  rewrite (add_matching_categories_In
             (fun skill => is_match (re_search true (skill_pattern skill) text))).
  rewrite skill_search_whole_phrase. unfold all_skill_phrases.
  change (In skill []) with False. tauto.
Qed.

Lemma extract_skills_rules_NoDup (text : str) : NoDup (_extract_skills_rules text).
Proof.
  unfold _extract_skills_rules. cbv zeta. apply list_of_set_NoDup.
  apply add_matching_categories_NoDup. constructor.
Qed.

Lemma extract_skills_nlp_eq (pipeline : str -> spacy_doc) (text : str) :
  _extract_skills_nlp (Some pipeline) text
  = list_of_set
      (set_update
         (fold_left (fun skills ent => add_skills_where (entity_suggests ent) skills)
            (ents (pipeline text))
            (fold_left (fun skills chunk => add_skills_where (chunk_suggests chunk) skills)
               (noun_chunks (pipeline text)) []))
         (_extract_skills_rules (lower text))).
Proof.
  assert (Hnone : forall acc, add_skills_where (fun _ => false) acc = acc).
  { intros a. unfold add_skills_where. generalize skill_patterns.
    intros cats. revert a. induction cats as [|[c sl] cats IHc]; intros a;
      cbn [fold_left]; [reflexivity|].
    rewrite <- (IHc a) at 2. f_equal.
    clear. revert a. induction sl as [|s sl IHs]; intros a; cbn [fold_left]; auto. }
  assert (Hents : forall l acc,
    fold_left
      (fun skills '(ent, label_) =>
         if existsb (text_eqb label_) [txt "PRODUCT"; txt "ORG"; txt "SKILL"]
         then add_skills_where (fun skill => contains skill (lower ent)) skills
         else skills) l acc
    = fold_left (fun skills ent => add_skills_where (entity_suggests ent) skills) l acc).
  { induction l as [|[ent label] l IH]; intros acc; cbn [fold_left]; [reflexivity|].
    rewrite IH. f_equal. unfold entity_suggests. cbn [fst snd].
    destruct (existsb (text_eqb label) [txt "PRODUCT"; txt "ORG"; txt "SKILL"]).
    - reflexivity.
    - symmetry. apply Hnone. }
  unfold _extract_skills_nlp. cbv zeta. f_equal. f_equal. apply Hents.
Qed.

(** X13. With spaCy, [_extract_skills_nlp] returns, without
    repetition, the phrases of the taxonomy that occur in the lowercased
    text as whole phrases, that a noun chunk suggests, or that an entity
    labelled PRODUCT, ORG or SKILL suggests.  So it returns every skill
    that the rule-based detection finds in the lowercased text; and
    without spaCy it is that detection. *)
Theorem X13_skills_nlp_adds_to_the_rules :
  forall (text : str),
    _extract_skills_nlp None text = _extract_skills_rules (lower text)
    /\ forall pipeline : str -> spacy_doc,
         (forall s,
            In s (_extract_skills_nlp (Some pipeline) text) <->
            In s all_skill_phrases
            /\ (whole_phrase s (lower text)
                \/ (exists chunk, In chunk (noun_chunks (pipeline text))
                                  /\ chunk_suggests chunk s = true)
                \/ (exists ent, In ent (ents (pipeline text))
                                /\ entity_suggests ent s = true)))
         /\ NoDup (_extract_skills_nlp (Some pipeline) text)
         /\ (forall s, In s (_extract_skills_rules (lower text)) ->
               In s (_extract_skills_nlp (Some pipeline) text)).
Proof.
  intros text. split; [reflexivity|]. intros pipeline.
  rewrite extract_skills_nlp_eq. split; [|split].
  - intros s.
    rewrite list_of_set_In, set_update_In, !add_skills_loop_In, extract_skills_rules_In.
    change (In s []) with False. tauto.
  - apply list_of_set_NoDup.
    apply set_update_NoDup. apply add_skills_loop_NoDup. apply add_skills_loop_NoDup.
    constructor.
  - intros s H. apply list_of_set_In, set_update_In. right. exact H.
Qed.

End SkillsNlp.

(** ** Extraction without a heading *)

Section NoHeading.
Context {U : unicode_db} {SO : set_order}.

Lemma window_after_no_heading (lines keywords : list str) (i : nat) :
  (forall j, j <= i -> is_heading keywords (line_at lines j) = false) ->
  window_after lines keywords i = false.
Proof.
  intros H. destruct (window_after lines keywords i) eqn:E; [|reflexivity].
  apply window_after_iff in E as (j & Hj & Hh & _). rewrite (H j Hj) in Hh. discriminate.
Qed.

(** X14. A numbered line needs no heading: [_extract_sections]
    captures every numbered line that is no heading and is long enough,
    whether a section is open or not, as long as the twenty items are not
    reached.  In a text without any heading line the items of
    [_extract_sections] are numbered lines and nothing else, and
    [_extract_nice_to_have] returns nothing. *)
Theorem X14_extraction_without_heading :
  forall (text : str) (keywords : list str),
    let lines := split_on LF text in
    (forall i, i < length lines ->
       is_heading keywords (line_at lines i) = false ->
       is_numbered (line_at lines i) = true ->
       20 < length (clean (line_at lines i)) ->
       length (_extract_sections text keywords) < 20 ->
       In (firstn 200 (clean (line_at lines i))) (_extract_sections text keywords))
    /\ ((forall i, i < length lines -> is_heading keywords (line_at lines i) = false) ->
        forall item, In item (_extract_sections text keywords) ->
          exists i, i < length lines /\ is_numbered (line_at lines i) = true
                    /\ item = firstn 200 (clean (line_at lines i)))
    /\ ((forall i, i < length lines -> is_heading nice_keywords (nth i lines []) = false) ->
        _extract_nice_to_have text = []).
Proof.
  intros text keywords lines. split; [|split].
  - intros i Hi Hh Hn Hlen Hfull. rewrite extract_sections_eq in *. fold lines in Hfull |- *.
    rewrite (firstn_short 20 _ Hfull).
    apply in_flat_map. exists i. split; [apply in_seq; lia|].
    apply captured_In. repeat split; try assumption.
    rewrite Hn. apply orb_true_r.
  - intros Hno item H. rewrite extract_sections_eq in H. fold lines in H.
    apply In_firstn in H. apply in_flat_map in H as (i & Hi & H).
    apply in_seq in Hi. apply captured_In in H as (_ & Hc & _ & ->).
    exists i. split; [lia|]. split; [|reflexivity].
    rewrite (window_after_no_heading lines keywords i) in Hc.
    + exact Hc.
    + intros j Hj. apply Hno. lia.
  - intros Hno. rewrite extract_nice_to_have_eq. fold lines.
    destruct (firstn 10 (flat_map (nice_captured lines) (seq 0 (length lines))))
      as [|item rest] eqn:E; [reflexivity|].
    exfalso.
    assert (H : In item (firstn 10 (flat_map (nice_captured lines) (seq 0 (length lines)))))
      by (rewrite E; now left).
    apply In_firstn in H. apply in_flat_map in H as (i & Hi & H).
    apply in_seq in Hi. apply nice_captured_In in H as (_ & Hw & _).
    apply nice_window_iff in Hw as (j & Hj & Hh); [|lia].
    rewrite Hno in Hh; [discriminate | lia].
Qed.

End NoHeading.

(** ** The market comparison and the result *)

Lemma for_each_length {A B} (f : A -> M B) (l : list A) :
  forall w ys w', for_each f l w = (inr ys, w') -> length ys = length l.
Proof.
  induction l as [|x l IH]; intros w ys w'; simpl.
  - unfold mret. intros H. injection H as <- _. reflexivity.
  - unfold mbind, mret. destruct (f x w) as [[e|y] w1]; [discriminate|].
    destruct (for_each f l w1) as [[e|zs] w2] eqn:E; [discriminate|].
    intros H. injection H as <- _. simpl. f_equal. eapply IH. exact E.
Qed.

Lemma counter_incr_total (x : str) (c : list (str * nat)) :
  list_sum (map snd (counter_incr x c)) = S (list_sum (map snd c)).
Proof.
  induction c as [|[k n] c IH]; simpl; [reflexivity|].
  destruct (text_eqb k x); simpl; [reflexivity | rewrite IH; lia].
Qed.

(** The counts of a [Counter] add up to the number of elements counted. *)
Lemma Counter_total (l : list str) : list_sum (map snd (Counter l)) = length l.
Proof.
  unfold Counter.
  assert (H : forall c, list_sum (map snd (fold_left (fun c x => counter_incr x c) l c))
                        = list_sum (map snd c) + length l).
  { induction l as [|x l IH]; intros c; simpl; [lia|].
    rewrite IH, counter_incr_total. lia. }
  now rewrite H.
Qed.

Lemma Counter_keys (l : list str) (k : str) : In k (map fst (Counter l)) <-> In k l.
Proof. destruct (Counter_inv l) as (_ & _ & H & _). apply H. Qed.

Section MarketConsistency.
Context {U : unicode_db} {SO : set_order}.

(** X15. In a result of [analyze_multiple_descriptions] the market
    comparison agrees with the rest of the result, whatever the
    per-document analysis: total_roles_analyzed is total_analyzed;
    top_skills are the keys of the first ten entries of common_skills, in
    that order; and the counts of the histogram of experience levels, as
    those of the histogram of remote policies, add up to total_analyzed,
    over keys that are levels, or policies, of the insights. *)
Theorem X15_market_comparison_agrees_with_result :
  forall (analyze : JobDescription -> M insight) (min_required : Z)
         (descriptions : list JobDescription) (w w' : list log_event)
         (r : AnalysisResult),
    analyze_multiple_descriptions_with analyze min_required descriptions w = (inr r, w') ->
    length (insights r) = total_analyzed r
    /\ exists mc cr levels policies,
         market_comparison r = Some mc
         /\ dict_get "total_roles_analyzed" mc
            = Some (VInt (Z.of_nat (total_analyzed r)))
         /\ dict_get "common_requirements" mc = Some (VDict cr)
         /\ dict_get "top_skills" cr
            = Some (VStrs (map fst (firstn 10 (common_skills r))))
         /\ dict_get "experience_levels" mc = Some (VCounter levels)
         /\ list_sum (map snd levels) = total_analyzed r
         /\ (forall k, In k (map fst levels)
                       <-> exists i, In i (insights r) /\ experience_level i = k)
         /\ dict_get "remote_policies" mc = Some (VCounter policies)
         /\ list_sum (map snd policies) = total_analyzed r
         /\ (forall k, In k (map fst policies)
                       <-> exists i, In i (insights r) /\ remote_policy i = k).
Proof.
  intros analyze min_required descriptions w w' r H.
  apply analyze_multiple_descriptions_with_success in H
    as (_ & (w1 & Hfor) & Htotal & Hskills & _ & _ & _ & (mc & Hmc & Hgen)).
  apply for_each_length in Hfor.
  assert (Hlen : length (insights r) = total_analyzed r) by congruence.
  split; [exact Hlen|].
  unfold _generate_market_comparison in Hgen.
  destruct (_find_common_patterns (insights r)) as [e|cr] eqn:Ecr; [discriminate|].
  simpl in Hgen. injection Hgen as <-.
  destruct (find_common_patterns_keys (insights r) cr Ecr) as (_ & Htop & _).
  eexists. exists cr, (Counter (map experience_level (insights r))),
                      (Counter (map remote_policy (insights r))).
  split; [exact Hmc|]. split; [|split; [reflexivity|split; [|split; [reflexivity|]]]].
  - change (dict_get "total_roles_analyzed" _)
      with (Some (VInt (Z.of_nat (length (insights r))))). now rewrite Hlen.
  - rewrite Htop, Hskills. unfold most_common. rewrite firstn_firstn. reflexivity.
  - split; [now rewrite Counter_total, length_map|]. split; [|split; [reflexivity|split]].
    + intros k. rewrite Counter_keys, in_map_iff. split; intros (i & ? & ?); eauto.
    + now rewrite Counter_total, length_map.
    + intros k. rewrite Counter_keys, in_map_iff. split; intros (i & ? & ?); eauto.
Qed.

End MarketConsistency.

Lemma X15_witness :
  length (insights sample_result) = total_analyzed sample_result
  /\ exists mc cr levels policies,
       market_comparison sample_result = Some mc
       /\ dict_get "total_roles_analyzed" mc
          = Some (VInt (Z.of_nat (total_analyzed sample_result)))
       /\ dict_get "common_requirements" mc = Some (VDict cr)
       /\ dict_get "top_skills" cr
          = Some (VStrs (map fst (firstn 10 (common_skills sample_result))))
       /\ dict_get "experience_levels" mc = Some (VCounter levels)
       /\ list_sum (map snd levels) = total_analyzed sample_result
       /\ (forall k, In k (map fst levels)
                     <-> exists i, In i (insights sample_result)
                                   /\ experience_level i = k)
       /\ dict_get "remote_policies" mc = Some (VCounter policies)
       /\ list_sum (map snd policies) = total_analyzed sample_result
       /\ (forall k, In k (map fst policies)
                     <-> exists i, In i (insights sample_result) /\ remote_policy i = k).
Proof.
  apply (X15_market_comparison_agrees_with_result
           (analyze_job_description (U := ascii_db) (SO := insertion_order) None)
           default_min_job_descriptions sample_batch [] (snd sample_run) sample_result).
  vm_compute. reflexivity.
Defined.

(** ** The configuration *)

Lemma assoc_get_set_same {V} (k : str) (v : V) (d : list (str * V)) :
  assoc_get k (assoc_set k v d) = Some v.
Proof.
  induction d as [|[k' w] d IH]; simpl.
  - now rewrite text_eqb_refl.
  - destruct (text_eqb k' k) eqn:E; simpl; rewrite E; [reflexivity | exact IH].
Qed.

Lemma split_on_aux_nonempty (sep : char) (s cur : str) : split_on_aux sep cur s <> [].
Proof.
  revert cur. induction s as [|c s IH]; intros cur; simpl; [discriminate|].
  destruct (N.eqb c sep); [discriminate | apply IH].
Qed.

(** [str.split(sep)] returns at least one piece. *)
Lemma split_on_nonempty (sep : char) (s : str) : split_on sep s <> [].
Proof. apply split_on_aux_nonempty. Qed.

Lemma set_loop_dict (keys : list str) (last_key : str) (value config config' : yaml) :
  set_loop keys last_key value config = inr config' -> exists d, config' = YDict d.
Proof.
  destruct keys as [|k keys]; simpl; destruct config; try discriminate.
  - intros H. injection H as <-. eauto.
  - destruct (set_loop keys last_key value _) as [e|child']; simpl; [discriminate|].
    intros H. injection H as <-. eauto.
Qed.

Lemma set_loop_get_loop (keys : list str) (last_key : str) (value default : yaml) :
  forall config config',
    set_loop keys last_key value config = inr config' ->
    get_loop (keys ++ [last_key]) config' default
    = match value with YNone => default | _ => value end.
Proof.
  induction keys as [|k keys IH]; intros config config'; simpl.
  - destruct config; try discriminate. intros H. injection H as <-.
    rewrite assoc_get_set_same. destruct value; reflexivity.
  - destruct config; try discriminate.
    destruct (set_loop keys last_key value _) as [e|child'] eqn:E; simpl; [discriminate|].
    intros H. injection H as <-. rewrite assoc_get_set_same.
    destruct (set_loop_dict _ _ _ _ _ E) as [d' ->].
    now apply (IH _ _ E).
Qed.

Lemma set_loop_fresh (keys : list str) (last_key : str) (value : yaml) :
  exists config', set_loop keys last_key value (YDict []) = inr config'.
Proof.
  induction keys as [|k keys [c' IH]]; simpl; [eauto|].
  rewrite IH. simpl. eauto.
Qed.

(** X16. What [Config.set] has stored under a dotted path,
    [Config.get] reads back under that path, whatever the configuration
    was before; a stored [None] alone reads back as the default. *)
Theorem X16_config_set_then_get :
  forall (_config _config' : yaml) (key : str) (value default : yaml),
    Config_set _config key value = inr _config' ->
    Config_get _config' key default
    = match value with YNone => default | _ => value end.
Proof.
  intros c c' key value default. unfold Config_set, Config_get. cbv zeta.
  intros H.
  rewrite (app_removelast_last [] (split_on_nonempty (ch ".") key)) at 1.
  now apply (set_loop_get_loop _ _ value default c c').
Qed.

Lemma X16_witness :
  Config_get
    (YDict [(txt "analysis", YDict [(txt "min_job_descriptions", YInt 5)])])
    min_job_descriptions_key (YInt 3)
  = match YInt 5 with YNone => YInt 3 | _ => YInt 5 end.
Proof.
  apply (X16_config_set_then_get empty_config _ min_job_descriptions_key (YInt 5) (YInt 3)).
  reflexivity.
Defined.

Lemma get_loop_not_None (keys : list str) (default : yaml) :
  keys <> [] -> default <> YNone ->
  forall value, get_loop keys value default <> YNone.
Proof.
  intros Hne Hd. induction keys as [|k keys IH]; [congruence|]. intros value. simpl.
  destruct value; try assumption.
  destruct (assoc_get k d) as [v|]; [|assumption].
  destruct keys as [|k' keys'].
  - destruct v; simpl; try assumption; discriminate.
  - destruct v; try assumption; apply IH; discriminate.
Qed.

(** X17. [Config.get] returns the default instead of [None]: with a
    default other than [None] its result is never [None].  It returns the
    default when the configuration is no mapping, as after an empty
    file, and when the first key of the path is missing; in the first
    case [Config.set] raises [TypeError], in the second it creates the
    mappings of the path and succeeds. *)
Theorem X17_config_get_defaults :
  forall (_config : yaml) (key : str) (default : yaml),
    (default <> YNone -> Config_get _config key default <> YNone)
    /\ ((forall d, _config <> YDict d) ->
        Config_get _config key default = default
        /\ forall value, Config_set _config key value = inl TypeError)
    /\ (forall d, _config = YDict d ->
          assoc_get (hd [] (split_on (ch ".") key)) d = None ->
          Config_get _config key default = default
          /\ forall value, exists _config', Config_set _config key value = inr _config').
Proof.
  intros c key default. unfold Config_get, Config_set. cbv zeta.
  pose proof (split_on_nonempty (ch ".") key) as Hne.
  destruct (split_on (ch ".") key) as [|k keys] eqn:E; [congruence|].
  split; [|split].
  - intros Hd. apply get_loop_not_None; [discriminate | assumption].
  - intros Hc. split.
    + destruct c; try reflexivity. exfalso. now apply (Hc d).
    + intros value.
      destruct (removelast (k :: keys)); destruct c; try reflexivity;
        exfalso; now apply (Hc d).
  - intros d -> Hk. cbn [hd] in Hk. split.
    + cbn [get_loop]. now rewrite Hk.
    + intros value. destruct keys as [|k' keys'].
      * cbn [removelast last set_loop]. eauto.
      * change (removelast (k :: k' :: keys')) with (k :: removelast (k' :: keys')).
        cbn [set_loop]. rewrite Hk.
        destruct (set_loop_fresh (removelast (k' :: keys')) (last (k :: k' :: keys') [])
                    value) as [c' Hc'].
        rewrite Hc'. cbn [bind]. eauto.
Qed.

(** ** The request and the endpoint *)

(** X18. [GenerationRequest] accepts its postings exactly when there
    are at least three of them, and returns them as they are.  The
    analyzer, under a configured minimum of three or less, then never
    raises [InsufficientDataError] on the postings of a request: whatever
    it raises is an [AnalysisError]. *)
Theorem X18_validated_request_passes_the_gate :
  forall v : list JobDescription,
    (validate_job_descriptions v = inr v <-> 3 <= length v)
    /\ (forall v', validate_job_descriptions v = inr v' -> v' = v)
    /\ (3 <= length v ->
        forall (analyze : JobDescription -> M insight) (min_required : Z)
               (w w' : list log_event) (e : exn),
          (min_required <= default_min_job_descriptions)%Z ->
          analyze_multiple_descriptions_with analyze min_required v w = (inl e, w') ->
          exists cause, e = AnalysisError cause).
Proof.
  intros v. unfold validate_job_descriptions. split; [|split].
  - destruct (Nat.ltb (length v) 3) eqn:E.
    + apply Nat.ltb_lt in E. split; [discriminate | lia].
    + apply Nat.ltb_ge in E. tauto.
  - intros v'. destruct (Nat.ltb (length v) 3); [discriminate|].
    intros H. now injection H as <-.
  - intros Hlen analyze min_required w w' e Hmin H.
    apply analyze_multiple_descriptions_with_raises in H
      as [(_ & _ & Hlt) | (cause & w1 & -> & _)]; [|eauto].
    unfold default_min_job_descriptions in Hmin. lia.
Qed.

Section Endpoint.
Context {U : unicode_db} {SO : set_order}.

(** X19. [POST /api/v1/analyze] answers 400 to fewer than three
    postings: the analyzer is not built and nothing is analysed.  With
    three postings or more it builds the analyzer, inside its [try]: an
    exception that leaves the constructor is answered with 500, and with
    "Internal server error" unless it is a [HiringSystemError].  Once
    the analyzer is built, a batch below the configured minimum is
    answered with 500 and the [InsufficientDataError] of the analyzer;
    any other batch with the result of the analysis or, when the
    analysis raises, with 500 and its [AnalysisError].  Without spaCy, a
    batch that has the configured minimum of postings and runs of at
    most 300 digits is answered with a result for as many postings. *)
Theorem X19_analyze_endpoint_answers :
  forall (NLPAnalyzer : M (option (str -> spacy_doc))) (min_required : Z)
         (job_descriptions : list JobDescription) (w : list log_event),
    (length job_descriptions < 3 ->
     analyze_job_descriptions NLPAnalyzer min_required job_descriptions w
     = (HTTPException 400 detail_too_few, w, [server_error_validation]))
    /\ (3 <= length job_descriptions ->
        forall e w0,
          NLPAnalyzer w = (inl e, w0) ->
          analyze_job_descriptions NLPAnalyzer min_required job_descriptions w
          = if is_HiringSystemError e
            then (HTTPException 500 (detail_of e), w0, [server_error_analysis e])
            else (HTTPException 500 detail_internal, w0, [server_error_unexpected e]))
    /\ (3 <= length job_descriptions ->
        forall nlp w0,
          NLPAnalyzer w = (inr nlp, w0) ->
          ((Z.of_nat (length job_descriptions) < min_required)%Z ->
           let e := InsufficientDataError min_required (length job_descriptions) in
           analyze_job_descriptions NLPAnalyzer min_required job_descriptions w
           = (HTTPException 500 (detail_of e), w0, [server_error_analysis e]))
          /\ ((min_required <= Z.of_nat (length job_descriptions))%Z ->
              (exists r w',
                 analyze_multiple_descriptions nlp min_required job_descriptions w0
                 = (inr r, w')
                 /\ analyze_job_descriptions NLPAnalyzer min_required job_descriptions w
                    = (http_return r, w',
                       [server_info_analyzed (length job_descriptions)]))
              \/ (exists cause w',
                    analyze_multiple_descriptions nlp min_required job_descriptions w0
                    = (inl (AnalysisError cause), w')
                    /\ analyze_job_descriptions NLPAnalyzer min_required
                         job_descriptions w
                       = (HTTPException 500 (detail_of (AnalysisError cause)), w',
                          [server_error_analysis (AnalysisError cause)])))
          /\ (nlp = None ->
              (min_required <= Z.of_nat (length job_descriptions))%Z ->
              Forall (fun d => longest_digit_run (description d) <= 300)
                job_descriptions ->
              exists r w',
                analyze_job_descriptions NLPAnalyzer min_required job_descriptions w
                = (http_return r, w', [server_info_analyzed (length job_descriptions)])
                /\ total_analyzed r = length job_descriptions)).
Proof.
  intros NLPAnalyzer min_required jds w. unfold analyze_job_descriptions.
  split; [|split].
  - intros H. apply Nat.ltb_lt in H. now rewrite H.
  - intros H e w0 E. apply Nat.ltb_ge in H. rewrite H.
    unfold mbind. rewrite E. reflexivity.
  - intros H nlp w0 E. apply Nat.ltb_ge in H. rewrite H.
    unfold mbind. rewrite E. split; [|split].
    + intros Hlt. cbv zeta.
      unfold analyze_multiple_descriptions, analyze_multiple_descriptions_with.
      apply Z.ltb_lt in Hlt. rewrite Hlt. reflexivity.
    + intros Hge.
      destruct (analyze_multiple_descriptions nlp min_required jds w0)
        as [[e|r] w'] eqn:E'.
      * right. unfold analyze_multiple_descriptions in E'.
        apply analyze_multiple_descriptions_with_raises in E'
          as [(_ & _ & Hlt) | (cause & w1 & -> & _ & _)]; [lia|].
        exists cause, w'. split; reflexivity.
      * left. exists r, w'. split; reflexivity.
    + intros -> Hge Hdigits.
      assert (Hne : jds <> []).
      { intros ->. apply Nat.ltb_ge in H. simpl in H. lia. }
      assert (Hdigits' : Forall (fun d => longest_digit_run (description d)
                                          <= int_max_str_digits) jds).
      { eapply Forall_impl; [|exact Hdigits]. intros d Hd. cbv beta in Hd.
        unfold int_max_str_digits. lia. }
      destruct (analyze_multiple_descriptions_returns None min_required jds w0
                  Hge Hne Hdigits') as (r & Hr & Ht & _).
      rewrite Hr. exists r. eexists. split; [reflexivity | exact Ht].
Qed.

End Endpoint.

Lemma X19_witness :
  exists r w',
    analyze_job_descriptions (U := ascii_db) (SO := insertion_order)
      spacy_not_installed default_min_job_descriptions sample_batch []
    = (http_return r, w', [server_info_analyzed (length sample_batch)])
    /\ total_analyzed r = length sample_batch.
Proof.
  refine (proj2 (proj2 (proj2 (proj2
            (@X19_analyze_endpoint_answers ascii_db insertion_order
               spacy_not_installed default_min_job_descriptions sample_batch [])
            ) _ None [warning_spacy_not_installed] eq_refl)) eq_refl _ _).
  - apply Nat.leb_le. vm_compute. reflexivity.
  - vm_compute. discriminate.
  - repeat constructor; apply Nat.leb_le; vm_compute; reflexivity.
Defined.
